(** * mytable: fixed-width records over a flat binary file

    A shallow embedding of the Python package [mytable] (modules
    [errors], [fields], [table] and [struct]) together with the
    properties of its codecs, its block store and its record layer.

    Conventions of the embedding.
    - A Python [int] is a [Z]; a [bytes] object is a [list byte]; a [str]
      is the list of its Unicode code points ([list N]).
    - A function that can raise returns a [result]; a method that reads or
      writes mutable state (the file behind a table, the attributes of a
      record) is a computation in the state-and-exception monad [M]: the
      state survives a raised exception, as it does in Python.
    - The file is the byte sequence the operating system holds; writes go
      straight through to it (the buffer of the file object is left out).
    - [Float32] and [Float64] pack IEEE-754 values in the byte order of
      the host; these two codecs are left out of the embedding. *)

From Stdlib Require Import ZArith NArith Lia Strings.Byte.
From stdpp Require Import base list strings gmap.

Local Open Scope Z_scope.

(** Linear arithmetic extended with division and remainder by constants. *)
Ltac lia_div := zify; Z.to_euclidean_division_equations; lia.

(** Settle every comparison on [N] in the goal by arithmetic. *)
Ltac settle_tests :=
  repeat match goal with
    | |- context [(?a <? ?b)%N] =>
        (rewrite (proj2 (N.ltb_lt a b)) by lia_div)
        || (rewrite (proj2 (N.ltb_ge a b)) by lia_div)
    | |- context [(?a <=? ?b)%N] =>
        (rewrite (proj2 (N.leb_le a b)) by lia_div)
        || (rewrite (proj2 (N.leb_gt a b)) by lia_div)
    end.

(** ** Exceptions ([mytable/errors.py] and the built-in ones the code can raise) *)

Inductive error : Type :=
  (* mytable.errors *)
  | MytableError | StructError | NotFoundError | IdError
  | FieldError | NoFieldError | ValidationError
  | InvalidLengthError | TooLongError
  (* raised by the interpreter and its library *)
  | StructPackError          (* struct.error *)
  | TypeError | AttributeError | KeyError
  | OSError                  (* seek to a negative offset *)
  | ZeroDivisionError
  | UnicodeEncodeError | UnicodeDecodeError.

(** [parent e] is the direct base class of [e] among the library's errors. *)
Definition parent (e : error) : option error :=
  match e with
  | StructError | FieldError => Some MytableError
  | NotFoundError | IdError => Some StructError
  | NoFieldError | ValidationError => Some FieldError
  | InvalidLengthError => Some ValidationError
  | TooLongError => Some InvalidLengthError
  | _ => None
  end.

Global Instance error_eq_dec : EqDecision error.
Proof. solve_decision. Defined.

(** [issubclass(e, base)]; the chain of base classes of a library error
    has at most four links. *)
Fixpoint climbs (links : nat) (e base : error) : bool :=
  bool_decide (e = base)
  || match links, parent e with
     | S links', Some p => climbs links' p base
     | _, _ => false
     end.

Definition issubclass (e base : error) : bool := climbs 4 e base.

Inductive result (A : Type) : Type :=
  | Ok (a : A)
  | Raise (e : error).
Arguments Ok {A} a.
Arguments Raise {A} e.

Global Instance result_ret : MRet result := λ A a, Ok a.
Global Instance result_bind : MBind result := λ A B k r,
  match r with Ok a => k a | Raise e => Raise e end.

Global Instance result_fmap : FMap result := λ A B f r,
  match r with Ok a => Ok (f a) | Raise e => Raise e end.

Definition is_ok {A} (r : result A) : bool :=
  match r with Ok _ => true | Raise _ => false end.

(** ** The state-and-exception monad

    [M S A] is a computation over a mutable state [S] that returns an [A]
    or raises.  An exception leaves the state as it was when it was
    raised: nothing is rolled back. *)

Definition M (S A : Type) : Type := S → result A * S.

Global Instance M_ret {S} : MRet (M S) := λ A a s, (Ok a, s).
Global Instance M_bind {S} : MBind (M S) := λ A B k m s,
  match m s with
  | (Ok a, s') => k a s'
  | (Raise e, s') => (Raise e, s')
  end.

Definition raise {S A} (e : error) : M S A := λ s, (Raise e, s).
Definition lift {S A} (r : result A) : M S A := λ s, (r, s).
Definition gets {S A} (f : S → A) : M S A := λ s, (Ok (f s), s).
Definition modify {S} (f : S → S) : M S unit := λ s, (Ok tt, f s).

(** Run a computation on one component of a pair of states. *)
Definition on_fst {S1 S2 A} (m : M S1 A) : M (S1 * S2) A := λ s,
  let '(r, s1) := m s.1 in (r, (s1, s.2)).
Definition on_snd {S1 S2 A} (m : M S2 A) : M (S1 * S2) A := λ s,
  let '(r, s2) := m s.2 in (r, (s.1, s2)).

(** ** Generators

    A generator object is a state [G] of its own next to the state [S]
    its body works on; [next(gen)] is a computation on the two that
    returns [None] for [StopIteration].  Nothing runs when the generator
    is created. *)

(** A generator whose body raises is finished: the exception goes to
    the caller of [next] and the generator is left in the state [done]. *)
Definition closing {G S A} (done : G) (m : M (G * S) A) : M (G * S) A := λ s,
  match m s with
  | (Raise e, (_, s')) => (Raise e, (done, s'))
  | r => r
  end.

(** [yield from] and [for x in inner]: one step of the inner generator
    [g], whose state is kept as [wrap g]; when the inner generator is
    exhausted the outer one goes to [done]. *)
Definition delegate {G G' S A} (wrap : G → G') (done : G')
    (next : M (G * S) (option A)) (g : G) : M (G' * S) (option A) := λ s,
  match next (g, s.2) with
  | (Ok (Some a), (g', s')) => (Ok (Some a), (wrap g', s'))
  | (Ok None, (_, s')) => (Ok None, (done, s'))
  | (Raise e, (_, s')) => (Raise e, (done, s'))
  end.

(** [list(gen)]: call [next] until it is exhausted.  The answer is
    [None] if [fuel] calls were not enough. *)
Fixpoint drain {S A} (next : M S (option A)) (fuel : nat) : M S (option (list A)) :=
  match fuel with
  | O => mret None
  | S fuel' =>
      o ← next;
      match o with
      | None => mret (Some [])
      | Some a => rest ← drain next fuel'; mret (cons a <$> rest)
      end
  end.

(** ** Bytes and machine integers (Python's [struct] module) *)

Global Instance byte_eq_dec : EqDecision byte := Byte.byte_eq_dec.

Definition Z_of_byte (b : byte) : Z := Z.of_N (Byte.to_N b).

(** The byte of value [z mod 256]. *)
Definition byte_of_Z (z : Z) : byte :=
  match Byte.of_N (Z.to_N (z mod 256)) with
  | Some b => b
  | None => x00
  end.

(** [be_bytes w z]: the [w] low-order bytes of [z], most significant first. *)
Fixpoint be_bytes (w : nat) (z : Z) : list byte :=
  match w with
  | O => []
  | S w' => be_bytes w' (z / 256) ++ [byte_of_Z z]
  end.

(** The unsigned integer a byte string denotes, most significant byte first. *)
Definition be_value (bs : list byte) : Z :=
  fold_left (λ acc b, acc * 256 + Z_of_byte b) bs 0.

(** ** Python values

    The objects a record attribute can hold in the embedding: [None],
    booleans, integers, strings and byte strings. *)

Inductive value : Type :=
  | VNone
  | VBool (b : bool)
  | VInt (z : Z)
  | VStr (s : list N)
  | VBytes (bs : list byte).

Global Instance value_eq_dec : EqDecision value.
Proof. solve_decision. Defined.

(** The integer a value stands for where Python wants an [int]. *)
Definition as_int (v : value) : option Z :=
  match v with
  | VInt z => Some z
  | VBool b => Some (if b then 1 else 0)
  | _ => None
  end.

(** Python's [==] on the values of the embedding. *)
Definition py_eq (a b : value) : bool :=
  match as_int a, as_int b with
  | Some x, Some y => x =? y
  | None, None => bool_decide (a = b)
  | _, _ => false
  end.

(** Python's truth value ([bool(v)]). *)
Definition truthy (v : value) : bool :=
  match v with
  | VNone => false
  | VBool b => b
  | VInt z => negb (z =? 0)
  | VStr s => negb (bool_decide (s = []))
  | VBytes bs => negb (bool_decide (bs = []))
  end.

(** [len(v)]. *)
Definition py_len (v : value) : result nat :=
  match v with
  | VStr s => Ok (length s)
  | VBytes bs => Ok (length bs)
  | _ => Raise TypeError
  end.

(** [struct.pack] with a big-endian unsigned format of [w] bytes
    ([>B], [>H], [>I], [>Q]).  The argument must be an integer ([bool] is
    a subclass of [int]) within the range of the format. *)
Definition pack_unsigned (w : nat) (v : value) : result (list byte) :=
  match as_int v with
  | Some z =>
      if (0 <=? z) && (z <? 256 ^ Z.of_nat w)
      then Ok (be_bytes w z) else Raise StructPackError
  | None => Raise StructPackError
  end.

(** [struct.pack] with a big-endian signed format ([>b], [>h], [>i], [>q]):
    two's complement on [w] bytes. *)
Definition pack_signed (w : nat) (v : value) : result (list byte) :=
  match as_int v with
  | Some z =>
      if (- (256 ^ Z.of_nat w / 2) <=? z) && (z <? 256 ^ Z.of_nat w / 2)
      then Ok (be_bytes w (z mod 256 ^ Z.of_nat w)) else Raise StructPackError
  | None => Raise StructPackError
  end.

(** [struct.unpack(fmt, block)[0]]: the buffer must have exactly the size
    of the format. *)
Definition unpack_unsigned (w : nat) (block : value) : result value :=
  match block with
  | VBytes bs =>
      if bool_decide (length bs = w) then Ok (VInt (be_value bs))
      else Raise StructPackError
  | _ => Raise TypeError
  end.

Definition unpack_signed (w : nat) (block : value) : result value :=
  match block with
  | VBytes bs =>
      if bool_decide (length bs = w) then
        let u := be_value bs in
        Ok (VInt (if u <? 256 ^ Z.of_nat w / 2 then u else u - 256 ^ Z.of_nat w))
      else Raise StructPackError
  | _ => Raise TypeError
  end.

(** [struct.pack('?', v)] stores the truth value of any object in one byte;
    [struct.unpack('?', block)] reads any non-zero byte as [True]. *)
Definition pack_bool (v : value) : list byte :=
  [if truthy v then x01 else x00].

Definition unpack_bool (block : value) : result value :=
  match block with
  | VBytes [b] => Ok (VBool (negb (bool_decide (b = x00))))
  | VBytes _ => Raise StructPackError
  | _ => Raise TypeError
  end.

(** ** UTF-8 ([str.encode()] and [bytes.decode()], both strict) *)

Definition byte_of_N (n : N) : byte := byte_of_Z (Z.of_N n).

(** The encoding of one code point.  Surrogates cannot be encoded; a
    number from 0x110000 on is not a code point at all. *)
Definition utf8_encode_cp (c : N) : result (list byte) :=
  (if c <? 0x80 then Ok [byte_of_N c]
   else if c <? 0x800 then
     Ok [byte_of_N (0xC0 + c / 64); byte_of_N (0x80 + c mod 64)]
   else if c <? 0x10000 then
     if (0xD800 <=? c) && (c <? 0xE000) then Raise UnicodeEncodeError
     else Ok [byte_of_N (0xE0 + c / 4096);
              byte_of_N (0x80 + (c / 64) mod 64);
              byte_of_N (0x80 + c mod 64)]
   else if c <? 0x110000 then
     Ok [byte_of_N (0xF0 + c / 262144);
         byte_of_N (0x80 + (c / 4096) mod 64);
         byte_of_N (0x80 + (c / 64) mod 64);
         byte_of_N (0x80 + c mod 64)]
   else Raise UnicodeEncodeError)%N.

Fixpoint utf8_encode (s : list N) : result (list byte) :=
  match s with
  | [] => Ok []
  | c :: s' =>
      bs ← utf8_encode_cp c; rest ← utf8_encode s'; Ok (bs ++ rest)
  end.

(** A continuation byte, 10xxxxxx. *)
Definition is_cont (b : byte) : bool :=
  ((0x80 <=? Byte.to_N b) && (Byte.to_N b <? 0xC0))%N.

Definition cont_bits (b : byte) : N := (Byte.to_N b - 0x80)%N.

(** The strict decoder: no overlong form, no surrogate, nothing above
    0x10FFFF, no truncated sequence. *)
Fixpoint utf8_decode (bs : list byte) : result (list N) :=
  match bs with
  | [] => Ok []
  | b0 :: r0 =>
      let n0 := Byte.to_N b0 in
      (if n0 <? 0x80 then
         s ← utf8_decode r0; Ok (n0 :: s)
       else if (0xC2 <=? n0) && (n0 <? 0xE0) then
         match r0 with
         | b1 :: r1 =>
             if is_cont b1 then
               s ← utf8_decode r1;
               Ok (((n0 - 0xC0) * 64 + cont_bits b1) :: s)
             else Raise UnicodeDecodeError
         | _ => Raise UnicodeDecodeError
         end
       else if (0xE0 <=? n0) && (n0 <? 0xF0) then
         match r0 with
         | b1 :: b2 :: r2 =>
             let c := (n0 - 0xE0) * 4096 + cont_bits b1 * 64 + cont_bits b2 in
             if is_cont b1 && is_cont b2 && (0x800 <=? c)
                && negb ((0xD800 <=? c) && (c <? 0xE000)) then
               s ← utf8_decode r2; Ok (c :: s)
             else Raise UnicodeDecodeError
         | _ => Raise UnicodeDecodeError
         end
       else if (0xF0 <=? n0) && (n0 <? 0xF5) then
         match r0 with
         | b1 :: b2 :: b3 :: r3 =>
             let c := (n0 - 0xF0) * 262144 + cont_bits b1 * 4096
                      + cont_bits b2 * 64 + cont_bits b3 in
             if is_cont b1 && is_cont b2 && is_cont b3
                && (0x10000 <=? c) && (c <? 0x110000) then
               s ← utf8_decode r3; Ok (c :: s)
             else Raise UnicodeDecodeError
         | _ => Raise UnicodeDecodeError
         end
       else Raise UnicodeDecodeError)%N
  end.

(** ** Field codecs ([mytable/fields.py]) *)

Module Fields.

(** The classes derived from [BaseField], with the arguments of their
    constructors; the [length] of a text or of a byte field is a natural
    number. *)
Inductive codec : Type :=
  | Varchar (length : nat)
  | Bytes (length : nat)
  | Uint8 | Uint16 | Uint32 | Uint64
  | Int8 | Int16 | Int32 | Int64
  | Boolean.

(** A field object: its class and the [default] it was built with. *)
Record field : Type := Field { kind : codec; default : value }.

Global Instance codec_eq_dec : EqDecision codec.
Proof. solve_decision. Defined.
Global Instance field_eq_dec : EqDecision field.
Proof. solve_decision. Defined.

(** [BaseField.__init__]: [assert default is not None]. *)
Definition new (k : codec) (default : value) : option field :=
  match default with
  | VNone => None
  | _ => Some (Field k default)
  end.

(** [BaseField.validate]. *)
Definition base_validate (v : value) : result unit :=
  match v with
  | VNone => Raise ValidationError
  | _ => Ok tt
  end.

Definition validate (k : codec) (v : value) : result unit :=
  match k with
  | Varchar length =>
      base_validate v;;
      n ← py_len v;
      if bool_decide (length < n)%nat then Raise TooLongError else Ok tt
  | Bytes length =>
      base_validate v;;
      n ← py_len v;
      if bool_decide (n ≠ length) then Raise InvalidLengthError else Ok tt
  | _ => base_validate v
  end.

Definition sizeof (k : codec) : nat :=
  match k with
  | Varchar length | Bytes length => length
  | Uint8 | Int8 | Boolean => 1
  | Uint16 | Int16 => 2
  | Uint32 | Int32 => 4
  | Uint64 | Int64 => 8
  end.

(** [to_bytes].  [Varchar] encodes the text and pads it with zero bytes
    up to [length] ([b'\x00' * k] is empty for a negative [k]); only a
    [str] has [encode].  [Bytes] hands its argument back as it is. *)
Definition to_bytes (k : codec) (v : value) : result value :=
  match k with
  | Varchar length =>
      match v with
      | VStr s =>
          block ← utf8_encode s;
          Ok (VBytes (block ++ replicate (length - List.length block) x00))
      | _ => Raise AttributeError
      end
  | Bytes _ => Ok v
  | Uint8 => VBytes <$> pack_unsigned 1 v
  | Uint16 => VBytes <$> pack_unsigned 2 v
  | Uint32 => VBytes <$> pack_unsigned 4 v
  | Uint64 => VBytes <$> pack_unsigned 8 v
  | Int8 => VBytes <$> pack_signed 1 v
  | Int16 => VBytes <$> pack_signed 2 v
  | Int32 => VBytes <$> pack_signed 4 v
  | Int64 => VBytes <$> pack_signed 8 v
  | Boolean => Ok (VBytes (pack_bool v))
  end.

(** [from_bytes].  [Varchar] decodes the whole span, padding included. *)
Definition from_bytes (k : codec) (block : value) : result value :=
  match k with
  | Varchar _ =>
      match block with
      | VBytes bs => VStr <$> utf8_decode bs
      | _ => Raise AttributeError
      end
  | Bytes _ => Ok block
  | Uint8 => unpack_unsigned 1 block
  | Uint16 => unpack_unsigned 2 block
  | Uint32 => unpack_unsigned 4 block
  | Uint64 => unpack_unsigned 8 block
  | Int8 => unpack_signed 1 block
  | Int16 => unpack_signed 2 block
  | Int32 => unpack_signed 4 block
  | Int64 => unpack_signed 8 block
  | Boolean => unpack_bool block
  end.

End Fields.

(** ** The block store ([mytable/table.py]) *)

(** Python's ordering operators on the keys a search compares. *)
Class Comparable (K : Type) : Type := {
  gt : K → K → bool;   (* a > b *)
  ge : K → K → bool    (* a >= b *)
}.

Global Instance Z_comparable : Comparable Z := {| gt := Z.gtb; ge := Z.geb |}.

Module Table.

(** An open binary file object: what the file holds and where the next
    read or write takes place. *)
Record file : Type := File { content : list byte; pos : nat }.

(** Writing [bs] at offset [p]: bytes are overwritten in place, the
    file grows as needed, and a gap past the old end reads as zeros. *)
Definition write_at (data : list byte) (p : nat) (bs : list byte) : list byte :=
  take p data ++ replicate (p - length data) x00 ++ bs
    ++ drop (p + length bs) data.

(** [file.seek(offset)]: a negative offset is refused. *)
Definition seek (offset : Z) : M file Z := λ f,
  if offset <? 0 then (Raise OSError, f)
  else (Ok offset, File (content f) (Z.to_nat offset)).

(** [file.read(n)]: at most [n] bytes from the current position, all
    the rest for a negative [n]. *)
Definition read (n : Z) : M file (list byte) := λ f,
  let rest := drop (pos f) (content f) in
  let out := if n <? 0 then rest else take (Z.to_nat n) rest in
  (Ok out, File (content f) (pos f + length out)).

(** [file.write(bs)]. *)
Definition write (bs : list byte) : M file Z := λ f,
  (Ok (Z.of_nat (length bs)),
   File (write_at (content f) (pos f) bs) (pos f + length bs)).

(** [os.fstat(file.fileno()).st_size]. *)
Definition st_size : M file Z := gets (λ f, Z.of_nat (length (content f))).

(** A [Table] object; [path] only names the file and is left out. *)
Record table : Type := mk { block_size : Z; file_of : file }.

(** Run a file operation on the file of the table. *)
Definition on_file {A} (m : M file A) : M table A := λ t,
  let '(r, f) := m (file_of t) in (r, mk (block_size t) f).

(** [Table(path, block_size)], where [data] is what the file at [path]
    holds (nothing when it had to be created). *)
Definition init (data : list byte) (block_size : Z) : table :=
  mk block_size (File data 0).

Definition size : M table Z :=
  n ← on_file st_size;
  bs ← gets block_size;
  if bs =? 0 then raise ZeroDivisionError else mret (n / bs).

Definition empty : M table bool :=
  n ← size; mret (n =? 0).

Definition get (idx : Z) : M table (list byte) :=
  bs ← gets block_size;
  on_file (seek (idx * bs));;
  on_file (read bs).

Definition append (block : list byte) : M table Z :=
  idx ← size;
  bs ← gets block_size;
  on_file (seek (idx * bs));;
  on_file (write block);;
  mret idx.

Definition update (block : list byte) (idx : Z) : M table unit :=
  bs ← gets block_size;
  on_file (seek (idx * bs));;
  on_file (write block);;
  mret tt.

Section find_sorted.
Context {K : Type} `{Comparable K}.

(** The [while size > 0] loop of [find_sorted].  An iteration is spent
    for each unit of [fuel]; [find_sorted] starts it with as much fuel
    as there are blocks, and each iteration at least halves [size]. *)
Fixpoint find_loop (fuel : nat) (value : K) (get_value : list byte → K)
    (idx size : Z) : M table (option Z) :=
  if 0 <? size then
    match fuel with
    | O => mret None
    | S fuel' =>
        block ← get (idx + size / 2);
        if gt value (get_value block) then
          find_loop fuel' value get_value
            (idx + (size / 2 + 1)) (size / 2 + size mod 2 - 1)
        else
          find_loop fuel' value get_value idx (size / 2)
    end
  else mret (Some idx).

(** [find_sorted(value, get_value)]; the answer is [None] only if the
    loop were to outlive its fuel. *)
Definition find_sorted (value : K) (get_value : list byte → K)
    : M table (option Z) :=
  size ← size;
  find_loop (Z.to_nat size) value get_value 0 size.

(** [find_sorted] with a [get_value] that may raise, as the one
    [Struct.iter_between] passes, which decodes the block first. *)
Fixpoint find_loop_partial (fuel : nat) (value : K)
    (get_value : list byte → result K) (idx size : Z) : M table (option Z) :=
  if 0 <? size then
    match fuel with
    | O => mret None
    | S fuel' =>
        block ← get (idx + size / 2);
        key ← lift (get_value block);
        if gt value key then
          find_loop_partial fuel' value get_value
            (idx + (size / 2 + 1)) (size / 2 + size mod 2 - 1)
        else
          find_loop_partial fuel' value get_value idx (size / 2)
    end
  else mret (Some idx).

Definition find_sorted_partial (value : K) (get_value : list byte → result K)
    : M table (option Z) :=
  size ← size;
  find_loop_partial (Z.to_nat size) value get_value 0 size.

End find_sorted.

(** The generator of [iter_between(idx_from, idx_to)]: not started yet,
    or inside the [for] loop with [todo] indexes of the range left, or
    finished. *)
Inductive between_state : Type :=
  | BetweenNew (idx_from idx_to : Z)
  | BetweenLoop (todo : nat)
  | BetweenDone.

Definition iter_between (idx_from idx_to : Z) : between_state :=
  BetweenNew idx_from idx_to.

(** One turn of [for _ in range(idx_from, idx_to): yield self.file.read(...)]. *)
Definition between_loop (todo : nat)
    : M (between_state * table) (option (list byte)) :=
  match todo with
  | O => on_fst (modify (λ _, BetweenDone));; mret None
  | S todo' =>
      bs ← on_snd (gets block_size);
      block ← on_snd (on_file (read bs));
      on_fst (modify (λ _, BetweenLoop todo'));;
      mret (Some block)
  end.

(** [next] on the generator of [iter_between]: the first call seeks to
    the first block; [range(idx_from, idx_to)] has [idx_to - idx_from]
    elements, none if that is negative. *)
Definition next_between : M (between_state * table) (option (list byte)) :=
  closing BetweenDone
    (g ← on_fst (gets (λ g, g));
     match g with
     | BetweenNew idx_from idx_to =>
         bs ← on_snd (gets block_size);
         on_snd (on_file (seek (idx_from * bs)));;
         between_loop (Z.to_nat (idx_to - idx_from))
     | BetweenLoop todo => between_loop todo
     | BetweenDone => mret None
     end).

(** The generator of [iter()]: [yield from self.iter_between(0, self.size())]. *)
Inductive iter_state : Type :=
  | IterNew
  | IterIn (g : between_state)
  | IterDone.

Definition iter : iter_state := IterNew.

Definition next_iter : M (iter_state * table) (option (list byte)) :=
  closing IterDone
    (g ← on_fst (gets (λ g, g));
     match g with
     | IterNew =>
         n ← on_snd size;
         delegate IterIn IterDone next_between (iter_between 0 n)
     | IterIn g => delegate IterIn IterDone next_between g
     | IterDone => mret None
     end).

End Table.

(** ** Records ([mytable/struct.py]) *)

Module Struct.
Import Fields.

(** What a name is bound to in the body of a [Struct] subclass: a field
    object or anything else. *)
Inductive attr : Type :=
  | AField (f : field)
  | AOther (v : value).

(** [cls.__dict__]: the attributes of the class in definition order. *)
Definition class := list (string * attr).

(** [self.__dict__]. *)
Abbreviation instance := (gmap string value).

Definition class_lookup (cls : class) (name : string) : option attr :=
  snd <$> find (λ p, bool_decide (p.1 = name)) cls.

(** [__init_subclass__]: run when the subclass is defined. *)
Definition init_subclass (cls : class) : result unit :=
  if bool_decide (is_Some (class_lookup cls "id")) then Ok tt
  else Raise NoFieldError.

(** [_iter_fields]: the attributes that are fields, in order. *)
Definition iter_fields (cls : class) : list (string * field) :=
  omap (λ p, match p.2 with
             | AField f => Some (p.1, f)
             | AOther _ => None
             end) cls.

Definition block_size (cls : class) : nat :=
  sum_list ((λ p, sizeof (kind p.2)) <$> iter_fields cls).

(** [__setattr__(name, value)]. *)
Definition setattr (cls : class) (name : string) (v : value)
    : M instance unit :=
  match class_lookup cls name with
  | None => raise KeyError
  | Some (AOther _) => raise AttributeError
  | Some (AField f) =>
      lift (validate (kind f) v);;
      modify (λ self : instance, <[name := v]> self)
  end.

(** Reading the attribute [name] of an instance: the instance's own
    entry, else the attribute of the class.  [__init__] gives the
    instance an entry for every field, so the search reaches the class
    only for a name that is not a field. *)
Definition getattr (cls : class) (name : string) : M instance value :=
  self ← gets (λ self : instance, self);
  match self !! name with
  | Some v => mret v
  | None =>
      match class_lookup cls name with
      | Some (AOther v) => mret v
      | _ => raise AttributeError
      end
  end.

(** [__init__] with keyword arguments [kwargs], run on a fresh object. *)
Definition init_fields (cls : class) (kwargs : instance)
    : list (string * field) → M instance unit :=
  fix go fields :=
    match fields with
    | [] => mret tt
    | (name, f) :: rest =>
        setattr cls name
          (match kwargs !! name with Some v => v | None => default f end);;
        go rest
    end.

Definition init (cls : class) (kwargs : instance) : result instance :=
  match init_fields cls kwargs (iter_fields cls) ∅ with
  | (Ok _, self) => Ok self
  | (Raise e, _) => Raise e
  end.

(** [b''.join(...)]: every item must be a byte string. *)
Fixpoint join (items : list value) : result (list byte) :=
  match items with
  | [] => Ok []
  | VBytes bs :: rest => tl ← join rest; Ok (bs ++ tl)
  | _ :: _ => Raise TypeError
  end.

(** The generator handed to [join] in [as_bytes]: it is run to its end
    before the items are joined. *)
Fixpoint encode_fields (self : instance) (fields : list (string * field))
    : result (list value) :=
  match fields with
  | [] => Ok []
  | (name, f) :: rest =>
      v ← match self !! name with Some v => Ok v | None => Raise KeyError end;
      b ← to_bytes (kind f) v;
      tl ← encode_fields self rest;
      Ok (b :: tl)
  end.

Definition as_bytes (cls : class) (self : instance) : result (list byte) :=
  items ← encode_fields self (iter_fields cls);
  join items.

(** The loop of [from_bytes] that fills [kwargs]. *)
Fixpoint decode_fields (block : list byte) (offset : nat)
    (fields : list (string * field)) (kwargs : instance) : result instance :=
  match fields with
  | [] => Ok kwargs
  | (name, f) :: rest =>
      let size := sizeof (kind f) in
      v ← from_bytes (kind f) (VBytes (take size (drop offset block)));
      decode_fields block (offset + size) rest (<[name := v]> kwargs)
  end.

Definition from_bytes (cls : class) (block : list byte) : result instance :=
  kwargs ← decode_fields block 0 (iter_fields cls) ∅;
  init cls kwargs.

(** [bind(path)]: [data] is what the file at [path] holds. *)
Definition bind (cls : class) (data : list byte) : Table.table :=
  Table.init data (Z.of_nat (block_size cls)).

(** The class methods run on the table the class is bound to; the
    instance methods also on the attributes of [self]. *)
Definition bound : Type := instance * Table.table.

Definition on_self {A} (m : M instance A) : M bound A := λ s,
  let '(r, self) := m s.1 in (r, (self, s.2)).
Definition on_table {A} (m : M Table.table A) : M bound A := λ s,
  let '(r, t) := m s.2 in (r, (s.1, t)).

(** [id > 0 and id <= cls.__table__.size()], then [id - 1]; comparing
    anything but a number with an [int] is a [TypeError]. *)
Definition get_index_by_id (id : value) : M Table.table Z :=
  match as_int id with
  | None => raise TypeError
  | Some z =>
      if 0 <? z then
        size ← Table.size;
        if z <=? size then mret (z - 1) else raise IdError
      else raise IdError
  end.

Definition insert (cls : class) : M bound value :=
  id ← on_self (getattr cls "id");
  if negb (py_eq id (VInt 0)) then raise IdError
  else
    block ← on_self (self ← gets (λ self, self); lift (as_bytes cls self));
    idx ← on_table (Table.append block);
    on_self (setattr cls "id" (VInt (idx + 1)));;
    block ← on_self (self ← gets (λ self, self); lift (as_bytes cls self));
    on_table (Table.update block idx);;
    on_self (getattr cls "id").

Definition update (cls : class) : M bound unit :=
  id ← on_self (getattr cls "id");
  idx ← on_table (get_index_by_id id);
  block ← on_self (self ← gets (λ self, self); lift (as_bytes cls self));
  on_table (Table.update block idx).

Definition get (cls : class) (id : value) : M Table.table instance :=
  idx ← get_index_by_id id;
  block ← Table.get idx;
  lift (from_bytes cls block).

(** The generator of [all()]: [for block in cls.__table__.iter(): yield
    cls.from_bytes(block)]. *)
Inductive all_state : Type :=
  | AllNew
  | AllIn (g : Table.iter_state)
  | AllDone.

Definition all : all_state := AllNew.

(** One turn of a loop [for block in inner: yield cls.from_bytes(block)]. *)
Definition decode_next {G G'} (cls : class) (wrap : G → G') (done : G')
    (next : M (G * Table.table) (option (list byte))) (g : G)
    : M (G' * Table.table) (option instance) :=
  o ← delegate wrap done next g;
  match o with
  | None => mret None
  | Some block => r ← lift (from_bytes cls block); mret (Some r)
  end.

Definition next_all (cls : class) : M (all_state * Table.table) (option instance) :=
  closing AllDone
    (g ← on_fst (gets (λ g, g));
     match g with
     | AllNew => decode_next cls AllIn AllDone Table.next_iter Table.iter
     | AllIn g => decode_next cls AllIn AllDone Table.next_iter g
     | AllDone => mret None
     end).

(** The generator of [iter_between(sorted_value_from, sorted_value_to,
    get_sorted_value)]: the two searches are made when it starts. *)
Inductive sorted_state : Type :=
  | SortedNew
  | SortedIn (g : Table.between_state)
  | SortedDone.

Section iter_between.
Context {K : Type} `{Comparable K}.

Definition next_iter_between (cls : class) (sorted_value_from sorted_value_to : K)
    (get_sorted_value : instance → result K)
    : M (sorted_state * Table.table) (option instance) :=
  closing SortedDone
    (g ← on_fst (gets (λ g, g));
     match g with
     | SortedNew =>
         let get_value := λ block, from_bytes cls block ≫= get_sorted_value in
         idx_from ← on_snd (Table.find_sorted_partial sorted_value_from get_value);
         idx_to ← on_snd (Table.find_sorted_partial sorted_value_to get_value);
         match idx_from, idx_to with
         | Some idx_from, Some idx_to =>
             decode_next cls SortedIn SortedDone Table.next_between
               (Table.iter_between idx_from idx_to)
         | _, _ => mret None
         end
     | SortedIn g => decode_next cls SortedIn SortedDone Table.next_between g
     | SortedDone => mret None
     end).

End iter_between.

End Struct.

(** ** Vocabulary of the properties *)

(** The keys of a sorted store are totally ordered: [>=] is the negation
    of the converse [>], and [>] composes with [>=]. *)
Class ComparableLaws (K : Type) `{Comparable K} : Prop := {
  ge_not_gt : ∀ a b : K, ge a b = negb (gt b a);
  gt_ge_trans : ∀ a b c : K, gt a b = true → ge b c = true → gt a c = true
}.

Global Instance Z_comparable_laws : ComparableLaws Z.
Proof.
  split; simpl.
  - intros a b. rewrite Z.geb_leb, Z.gtb_ltb. apply Z.leb_antisym.
  - intros a b c. rewrite Z.geb_leb, !Z.gtb_ltb. lia.
Qed.

(** What the file of a table holds. *)
Definition data_of (t : Table.table) : list byte :=
  Table.content (Table.file_of t).

(** The number of whole blocks in the file. *)
Definition n_blocks (t : Table.table) : Z :=
  Z.of_nat (length (data_of t)) / Table.block_size t.

(** The bytes of block [i]: the range from [i * width] up to
    [(i + 1) * width]. *)
Definition block_at (t : Table.table) (i : Z) : list byte :=
  take (Z.to_nat (Table.block_size t))
       (drop (Z.to_nat (i * Table.block_size t)) (data_of t)).

(** Two states of a table with the same block width and the same bytes
    on file (the position of the file object may differ). *)
Definition same_store (t t' : Table.table) : Prop :=
  Table.block_size t' = Table.block_size t ∧ data_of t' = data_of t.

(** The next read starts at block [j], or past the end of the file if
    block [j] does. *)
Definition positioned (t : Table.table) (j : Z) : Prop :=
  drop (Table.pos (Table.file_of t)) (data_of t)
  = drop (Z.to_nat (j * Table.block_size t)) (data_of t).

(** The store is sorted: keys never decrease along the blocks. *)
Definition sorted_by {K} `{Comparable K} (get_value : list byte → K)
    (t : Table.table) : Prop :=
  ∀ i j, 0 ≤ i → i ≤ j → j < n_blocks t →
    ge (get_value (block_at t j)) (get_value (block_at t i)) = true.

(** [r] is the lower bound of [value]: every block before [r] has a
    smaller key, and block [r], if there is one, has a key [>= value]. *)
Definition lower_bound {K} `{Comparable K} (value : K)
    (get_value : list byte → K) (t : Table.table) (r : Z) : Prop :=
  0 ≤ r ≤ n_blocks t
  ∧ (∀ i, 0 ≤ i < r → ge (get_value (block_at t i)) value = false)
  ∧ (r < n_blocks t → ge (get_value (block_at t r)) value = true).

(** A value of the codec's own Python type that the codec can store in
    its width: an integer within range, a text whose UTF-8 form has at
    most [length] bytes, a byte string of exactly [length] bytes, a
    boolean. *)
Definition fits (k : Fields.codec) (v : value) : bool :=
  match k, v with
  | Fields.Varchar n, VStr s =>
      match utf8_encode s with
      | Ok bs => bool_decide (length bs ≤ n)%nat
      | Raise _ => false
      end
  | Fields.Bytes n, VBytes bs => bool_decide (length bs = n)
  | Fields.Uint8, VInt z => (0 <=? z) && (z <? 2 ^ 8)
  | Fields.Uint16, VInt z => (0 <=? z) && (z <? 2 ^ 16)
  | Fields.Uint32, VInt z => (0 <=? z) && (z <? 2 ^ 32)
  | Fields.Uint64, VInt z => (0 <=? z) && (z <? 2 ^ 64)
  | Fields.Int8, VInt z => (- 2 ^ 7 <=? z) && (z <? 2 ^ 7)
  | Fields.Int16, VInt z => (- 2 ^ 15 <=? z) && (z <? 2 ^ 15)
  | Fields.Int32, VInt z => (- 2 ^ 31 <=? z) && (z <? 2 ^ 31)
  | Fields.Int64, VInt z => (- 2 ^ 63 <=? z) && (z <? 2 ^ 63)
  | Fields.Boolean, VBool _ => true
  | _, _ => false
  end.

(** The fields that [struct.pack] encodes as an integer. *)
Definition integer_codec (k : Fields.codec) : bool :=
  match k with
  | Fields.Uint8 | Fields.Uint16 | Fields.Uint32 | Fields.Uint64
  | Fields.Int8 | Fields.Int16 | Fields.Int32 | Fields.Int64 => true
  | _ => false
  end.

(** Every field of the instance is set and passes [validate]: what
    [__init__] and [__setattr__] establish. *)
Definition validated (cls : Struct.class) (self : gmap string value) : bool :=
  forallb (λ p : string * Fields.field,
             match self !! p.1 with
             | Some v => is_ok (Fields.validate (Fields.kind p.2) v)
             | None => false
             end) (Struct.iter_fields cls).

(** Every field of the instance holds a value that fits its codec. *)
Definition encodable (cls : Struct.class) (self : gmap string value) : bool :=
  forallb (λ p : string * Fields.field,
             match self !! p.1 with
             | Some v => fits (Fields.kind p.2) v
             | None => false
             end) (Struct.iter_fields cls).

(** The table was opened by [bind] for this class. *)
Definition bound_to (cls : Struct.class) (t : Table.table) : Prop :=
  Table.block_size t = Z.of_nat (Struct.block_size cls).

(** What a text decodes to after a round trip through a field of [n]
    bytes: one null character for each padding byte. *)
Definition padded (n : nat) (s : list N) (encoded : list byte) : list N :=
  s ++ replicate (n - length encoded) 0%N.

(** The value either fits its field or is some integer: the two ways
    the attributes of a record are set in [insert]. *)
Definition storable (k : Fields.codec) (v : value) : Prop :=
  fits k v = true ∨ ∃ z, v = VInt z.

(** What [from_bytes] makes of the encoding of a value that fits: the
    value itself, but for a text, which comes back padded. *)
Definition decoded (k : Fields.codec) (v : value) : value :=
  match k, v with
  | Fields.Varchar n, VStr s =>
      match utf8_encode s with
      | Ok bs => VStr (padded n s bs)
      | Raise _ => v
      end
  | _, _ => v
  end.

(** The field that a name stands for in a class, if it is one. *)
Definition field_of (cls : Struct.class) (name : string) : option Fields.field :=
  match Struct.class_lookup cls name with
  | Some (Struct.AField f) => Some f
  | _ => None
  end.

(** The record that comes back from the file for a record that was
    written: the value of every field as it decodes, and no attribute
    that is not a field. *)
Definition read_back (cls : Struct.class) (self : gmap string value)
    : gmap string value :=
  map_imap (λ name v, (λ f, decoded (Fields.kind f) v) <$> field_of cls name) self.

(** The records of a list as [insert] leaves them on a store of [n]
    blocks: the record at position [i] has the [id] [n + 1 + i]. *)
Definition numbered_from (n : Z) (records : list (gmap string value))
    : list (gmap string value) :=
  imap (λ i self, <["id"%string := VInt (n + 1 + Z.of_nat i)]> self) records.

(** The blocks of the store, in order. *)
Definition blocks_of (t : Table.table) : list (list byte) :=
  block_at t <$> seqZ 0 (n_blocks t).

(** The file consists of whole blocks. *)
Definition whole_blocks (t : Table.table) : Prop :=
  (Table.block_size t | Z.of_nat (length (data_of t))).

(** [wp m Q E s]: run from [s], the computation [m] either returns some
    [a] in a state that satisfies [Q a], or raises some [e] in a state
    that satisfies [E e]. *)
Definition wp {S A} (m : M S A) (Q : A → S → Prop) (E : error → S → Prop)
    (s : S) : Prop :=
  match m s with
  | (Ok a, s') => Q a s'
  | (Raise e, s') => E e s'
  end.

(** ** A caller: inserting records one after the other

    The loop of the test [test_insert_many], over any list of records:
    each record is inserted in turn.  The ids that [insert] returns,
    which the test drops, are collected. *)

Definition insert_record (cls : Struct.class) (self : gmap string value)
    : M Table.table value := λ t,
  let '(r, s) := Struct.insert cls (self, t) in (r, s.2).

Fixpoint insert_each (cls : Struct.class) (records : list (gmap string value))
    : M Table.table (list value) :=
  match records with
  | [] => mret []
  | self :: rest =>
      id ← insert_record cls self;
      ids ← insert_each cls rest;
      mret (id :: ids)
  end.

(** ** The records of the examples *)

Definition Person : Struct.class :=
  [("id"%string, Struct.AField (Fields.Field Fields.Uint64 (VInt 0)));
   ("name"%string, Struct.AField (Fields.Field (Fields.Varchar 32) (VStr [])));
   ("age"%string, Struct.AField (Fields.Field Fields.Uint32 (VInt 0)))].

(** The code points of ['alex']. *)
Definition alex : list N := [97; 108; 101; 120]%N.

(** [Person(name='alex', age=32)]. *)
Definition person_alex : gmap string value :=
  {[ "id"%string := VInt 0; "name"%string := VStr alex; "age"%string := VInt 32 ]}.

(** [Person(name='alex', age=2**32)]. *)
Definition person_old : gmap string value :=
  {[ "id"%string := VInt 0; "name"%string := VStr alex;
     "age"%string := VInt (2 ^ 32) ]}.

(** A class with a one-byte text field, and a store of two of its
    records with the names [''] and ['a']. *)
Definition Tag : Struct.class :=
  [("id"%string, Struct.AField (Fields.Field Fields.Uint64 (VInt 0)));
   ("name"%string, Struct.AField (Fields.Field (Fields.Varchar 1) (VStr [])))].

Definition two_tags : Table.table :=
  Struct.bind Tag
    [x00; x00; x00; x00; x00; x00; x00; x01; x00;
     x00; x00; x00; x00; x00; x00; x00; x02; x61].

(** The first of them, renamed to ['é'] (U+00E9). *)
Definition tag_e_acute : gmap string value :=
  {[ "id"%string := VInt 1; "name"%string := VStr [0xE9%N] ]}.

(** A class whose [id] has one byte, and a store of it that holds as
    many records as one byte can number. *)
Definition Tiny : Struct.class :=
  [("id"%string, Struct.AField (Fields.Field Fields.Uint8 (VInt 0)))].

Definition tiny_full : Table.table := Struct.bind Tiny (replicate 255 x01).

(** A class whose [id] is not the field the documentation asks for. *)
Definition Odd : Struct.class :=
  [("id"%string, Struct.AField (Fields.Field Fields.Uint32 (VInt 5)))].

(** * Properties *)

(** ** Bytes and integers *)

Lemma Z_of_byte_range b : 0 ≤ Z_of_byte b < 256.
Proof.
  unfold Z_of_byte. pose proof (Byte.to_N_bounded b). lia.
Qed.

Lemma Z_of_byte_of_Z z : Z_of_byte (byte_of_Z z) = z mod 256.
Proof.
  unfold Z_of_byte, byte_of_Z.
  assert (Hr : 0 ≤ z mod 256 < 256) by (apply Z.mod_pos_bound; lia).
  destruct (Byte.of_N (Z.to_N (z mod 256))) as [b|] eqn:E.
  - apply Byte.to_of_N in E. rewrite E. lia.
  - apply Byte.of_N_None_iff in E. lia.
Qed.

Lemma byte_of_Z_of_byte b : byte_of_Z (Z_of_byte b) = b.
Proof.
  unfold byte_of_Z. pose proof (Z_of_byte_range b) as Hr.
  rewrite Z.mod_small by lia. unfold Z_of_byte. rewrite N2Z.id.
  by rewrite Byte.of_to_N.
Qed.

Lemma length_be_bytes w z : length (be_bytes w z) = w.
Proof.
  revert z. induction w as [|w IH]; intros z; simpl; [done|].
  rewrite length_app, IH. simpl. lia.
Qed.

Lemma be_value_snoc bs b : be_value (bs ++ [b]) = be_value bs * 256 + Z_of_byte b.
Proof. unfold be_value. by rewrite fold_left_app. Qed.

Lemma be_value_be_bytes w z :
  0 ≤ z < 256 ^ Z.of_nat w → be_value (be_bytes w z) = z.
Proof.
  revert z. induction w as [|w IH]; intros z Hz.
  - simpl in *. unfold be_value. simpl. lia.
  - simpl. rewrite be_value_snoc, Z_of_byte_of_Z.
    rewrite Nat2Z.inj_succ, Z.pow_succ_r in Hz by lia.
    rewrite IH by lia_div. lia_div.
Qed.

Lemma be_value_range bs : 0 ≤ be_value bs < 256 ^ Z.of_nat (length bs).
Proof.
  induction bs as [|b bs IH] using rev_ind.
  - unfold be_value. simpl. lia.
  - rewrite be_value_snoc, length_app. simpl.
    replace (Z.of_nat (length bs + 1)) with (Z.succ (Z.of_nat (length bs))) by lia.
    rewrite Z.pow_succ_r by lia. pose proof (Z_of_byte_range b). lia.
Qed.

Lemma be_bytes_be_value bs : be_bytes (length bs) (be_value bs) = bs.
Proof.
  induction bs as [|b bs IH] using rev_ind; [done|].
  rewrite length_app, be_value_snoc. simpl.
  replace (length bs + 1)%nat with (S (length bs)) by lia. simpl.
  pose proof (Z_of_byte_range b) as Hb.
  replace ((be_value bs * 256 + Z_of_byte b) / 256) with (be_value bs) by lia_div.
  rewrite IH. f_equal. f_equal.
  rewrite <- (byte_of_Z_of_byte b) at 2. unfold byte_of_Z.
  replace ((be_value bs * 256 + Z_of_byte b) mod 256) with (Z_of_byte b mod 256); [done|].
  lia_div.
Qed.

Lemma pow256_succ w : 256 ^ Z.of_nat (S w) = 256 * 256 ^ Z.of_nat w.
Proof. rewrite Nat2Z.inj_succ, Z.pow_succ_r by lia. done. Qed.

Lemma pow256_pos w : 0 < 256 ^ Z.of_nat w.
Proof. apply Z.pow_pos_nonneg; lia. Qed.

Lemma pack_unsigned_inv w v bs :
  pack_unsigned w v = Ok bs →
  ∃ z, as_int v = Some z ∧ 0 ≤ z < 256 ^ Z.of_nat w ∧ bs = be_bytes w z.
Proof.
  unfold pack_unsigned. destruct (as_int v) as [z|]; [|done].
  destruct (0 <=? z) eqn:E1; [|done]. destruct (z <? _) eqn:E2; [|done].
  simpl. intros [= <-]. exists z. split_and!; [done|lia..|done].
Qed.

Lemma pack_signed_inv w v bs :
  pack_signed w v = Ok bs →
  ∃ z, as_int v = Some z
       ∧ - (256 ^ Z.of_nat w / 2) ≤ z < 256 ^ Z.of_nat w / 2
       ∧ bs = be_bytes w (z mod 256 ^ Z.of_nat w).
Proof.
  unfold pack_signed. destruct (as_int v) as [z|]; [|done].
  destruct (_ <=? z) eqn:E1; [|done]. destruct (z <? _) eqn:E2; [|done].
  simpl. intros [= <-]. exists z. split_and!; [done|lia..|done].
Qed.

Lemma unpack_pack_unsigned w v bs :
  pack_unsigned w v = Ok bs →
  ∃ z, as_int v = Some z ∧ unpack_unsigned w (VBytes bs) = Ok (VInt z).
Proof.
  intros (z & Hz & Hr & ->)%pack_unsigned_inv. exists z. split; [done|].
  unfold unpack_unsigned. rewrite length_be_bytes, bool_decide_eq_true_2 by done.
  by rewrite be_value_be_bytes.
Qed.

Lemma unpack_pack_signed w v bs :
  pack_signed w v = Ok bs →
  ∃ z, as_int v = Some z ∧ unpack_signed w (VBytes bs) = Ok (VInt z).
Proof.
  intros (z & Hz & Hr & ->)%pack_signed_inv. exists z. split; [done|].
  unfold unpack_signed. rewrite length_be_bytes, bool_decide_eq_true_2 by done.
  pose proof (pow256_pos w) as Hp.
  rewrite be_value_be_bytes by (apply Z.mod_pos_bound; lia).
  destruct w as [|w].
  { change (256 ^ Z.of_nat 0 / 2) with 0 in Hr. lia. }
  rewrite pow256_succ in *. pose proof (pow256_pos w) as Hq.
  set (p := 256 ^ Z.of_nat w) in *.
  replace (256 * p / 2) with (128 * p) in * by lia_div.
  do 2 f_equal. destruct (decide (0 ≤ z)).
  - rewrite Z.mod_small by lia. destruct (Z.ltb_spec z (128 * p)); lia.
  - replace (z mod (256 * p)) with (z + 256 * p).
    + destruct (Z.ltb_spec (z + 256 * p) (128 * p)); lia.
    + apply (Z.mod_unique_pos _ _ (-1)); lia.
Qed.

Lemma py_eq_as_int z v : as_int v = Some z → py_eq (VInt z) v = true.
Proof. unfold py_eq. simpl. intros ->. lia. Qed.

Lemma py_eq_refl v : py_eq v v = true.
Proof.
  unfold py_eq. destruct (as_int v); [lia|]. by apply bool_decide_eq_true_2.
Qed.

(** ** UTF-8 *)

Lemma to_N_byte_of_N n : (n < 256)%N → Byte.to_N (byte_of_N n) = n.
Proof.
  intros Hn. unfold byte_of_N.
  pose proof (Z_of_byte_of_Z (Z.of_N n)) as H. unfold Z_of_byte in H.
  rewrite Z.mod_small in H by lia. lia.
Qed.

Lemma utf8_decode_cons b0 r0 :
  utf8_decode (b0 :: r0) =
    let n0 := Byte.to_N b0 in
    (if n0 <? 0x80 then
       s ← utf8_decode r0; Ok (n0 :: s)
     else if (0xC2 <=? n0) && (n0 <? 0xE0) then
       match r0 with
       | b1 :: r1 =>
           if is_cont b1 then
             s ← utf8_decode r1;
             Ok (((n0 - 0xC0) * 64 + cont_bits b1) :: s)
           else Raise UnicodeDecodeError
       | _ => Raise UnicodeDecodeError
       end
     else if (0xE0 <=? n0) && (n0 <? 0xF0) then
       match r0 with
       | b1 :: b2 :: r2 =>
           let c := (n0 - 0xE0) * 4096 + cont_bits b1 * 64 + cont_bits b2 in
           if is_cont b1 && is_cont b2 && (0x800 <=? c)
              && negb ((0xD800 <=? c) && (c <? 0xE000)) then
             s ← utf8_decode r2; Ok (c :: s)
           else Raise UnicodeDecodeError
       | _ => Raise UnicodeDecodeError
       end
     else if (0xF0 <=? n0) && (n0 <? 0xF5) then
       match r0 with
       | b1 :: b2 :: b3 :: r3 =>
           let c := (n0 - 0xF0) * 262144 + cont_bits b1 * 4096
                    + cont_bits b2 * 64 + cont_bits b3 in
           if is_cont b1 && is_cont b2 && is_cont b3
              && (0x10000 <=? c) && (c <? 0x110000) then
             s ← utf8_decode r3; Ok (c :: s)
           else Raise UnicodeDecodeError
       | _ => Raise UnicodeDecodeError
       end
     else Raise UnicodeDecodeError)%N.
Proof. reflexivity. Qed.

Lemma utf8_decode_encode_cp c bs rest :
  utf8_encode_cp c = Ok bs →
  utf8_decode (bs ++ rest) = (s ← utf8_decode rest; Ok (c :: s)).
Proof.
  unfold utf8_encode_cp.
  destruct (N.ltb_spec c 0x80).
  { intros [= <-]. cbn [app]. rewrite utf8_decode_cons. cbv zeta.
    rewrite to_N_byte_of_N by lia. settle_tests. done. }
  destruct (N.ltb_spec c 0x800).
  { intros [= <-]. cbn [app]. rewrite utf8_decode_cons. cbv zeta.
    unfold is_cont, cont_bits. rewrite !to_N_byte_of_N by lia_div.
    settle_tests. cbn [andb].
    replace ((192 + c `div` 64 - 192) * 64 + (128 + c `mod` 64 - 128))%N
      with c by lia_div. done. }
  destruct (N.ltb_spec c 0x10000).
  { destruct (N.leb_spec 0xD800 c); destruct (N.ltb_spec c 0xE000);
      try lia; cbn [andb]; try done.
    all: intros [= <-]; cbn [app]; rewrite utf8_decode_cons; cbv zeta;
      unfold is_cont, cont_bits; rewrite !to_N_byte_of_N by lia_div;
      replace ((224 + c `div` 4096 - 224) * 4096
               + (128 + (c `div` 64) `mod` 64 - 128) * 64
               + (128 + c `mod` 64 - 128))%N with c by lia_div;
      settle_tests; cbn [andb negb]; done. }
  destruct (N.ltb_spec c 0x110000); [|done].
  intros [= <-]. cbn [app]. rewrite utf8_decode_cons. cbv zeta.
  unfold is_cont, cont_bits. rewrite !to_N_byte_of_N by lia_div.
  replace ((240 + c `div` 262144 - 240) * 262144
           + (128 + (c `div` 4096) `mod` 64 - 128) * 4096
           + (128 + (c `div` 64) `mod` 64 - 128) * 64
           + (128 + c `mod` 64 - 128))%N with c by lia_div.
  settle_tests. cbn [andb]. done.
Qed.

Lemma utf8_decode_encode s bs rest :
  utf8_encode s = Ok bs →
  utf8_decode (bs ++ rest) = (s' ← utf8_decode rest; Ok (s ++ s')).
Proof.
  revert bs. induction s as [|c s IH]; intros bs; simpl.
  - intros [= <-]. simpl. by destruct (utf8_decode rest).
  - destruct (utf8_encode_cp c) as [b1|] eqn:Ec; [|done]. simpl.
    destruct (utf8_encode s) as [b2|] eqn:Es; [|done]. simpl.
    intros [= <-]. rewrite <- app_assoc.
    rewrite (utf8_decode_encode_cp c b1) by done.
    rewrite (IH b2) by done. by destruct (utf8_decode rest).
Qed.

Lemma utf8_decode_zeros k : utf8_decode (replicate k x00) = Ok (replicate k 0%N).
Proof. induction k as [|k IH]; [done|]. simpl. by rewrite IH. Qed.

Lemma utf8_encode_cp_length c bs :
  utf8_encode_cp c = Ok bs → (1 ≤ length bs)%nat.
Proof.
  unfold utf8_encode_cp. repeat case_match; intros [= <-]; simpl; lia.
Qed.

Lemma utf8_encode_length s bs :
  utf8_encode s = Ok bs → (length s ≤ length bs)%nat.
Proof.
  revert bs. induction s as [|c s IH]; intros bs; simpl.
  - intros [= <-]. done.
  - destruct (utf8_encode_cp c) as [b1|] eqn:Ec; [|done]. simpl.
    destruct (utf8_encode s) as [b2|] eqn:Es; [|done]. simpl.
    intros [= <-]. rewrite length_app.
    apply utf8_encode_cp_length in Ec. specialize (IH _ eq_refl). lia.
Qed.

(** ** Field codecs *)

Lemma fmap_Ok_inv {A B} (f : A → B) (r : result A) (b : B) :
  f <$> r = Ok b → ∃ a, r = Ok a ∧ b = f a.
Proof. destruct r as [a|e]; [|done]. intros [= <-]. by exists a. Qed.

Lemma unpack_pack_bool v :
  unpack_bool (VBytes (pack_bool v)) = Ok (VBool (truthy v)).
Proof. unfold pack_bool. by destruct (truthy v). Qed.

(** A value that fits is encoded, and on exactly the width of the field. *)
Lemma to_bytes_fits k v :
  fits k v = true →
  ∃ bs, Fields.to_bytes k v = Ok (VBytes bs) ∧ length bs = Fields.sizeof k.
Proof.
  destruct k as [n|n| | | | | | | | | ]; destruct v as [|b|z|s|bs];
    try discriminate; simpl.
  - destruct (utf8_encode s) as [bs|]; [|done]. intros Hlen%bool_decide_eq_true.
    eexists. split; [reflexivity|]. rewrite length_app, length_replicate. lia.
  - intros Hlen%bool_decide_eq_true. by exists bs.
  - intros Hz. exists (be_bytes 1 z). unfold pack_unsigned. simpl.
    change (256 ^ Z.of_nat 1) with (2 ^ 8). by rewrite Hz.
  - intros Hz. exists (be_bytes 2 z). unfold pack_unsigned. simpl.
    change (256 ^ Z.of_nat 2) with (2 ^ 16). by rewrite Hz.
  - intros Hz. exists (be_bytes 4 z). unfold pack_unsigned. simpl.
    change (256 ^ Z.of_nat 4) with (2 ^ 32). by rewrite Hz.
  - intros Hz. exists (be_bytes 8 z). unfold pack_unsigned. simpl.
    change (256 ^ Z.of_nat 8) with (2 ^ 64). by rewrite Hz.
  - intros Hz. eexists. unfold pack_signed. simpl.
    change (256 ^ Z.of_nat 1 / 2) with (2 ^ 7). rewrite Hz.
    split; [reflexivity|done].
  - intros Hz. eexists. unfold pack_signed. simpl.
    change (256 ^ Z.of_nat 2 / 2) with (2 ^ 15). rewrite Hz.
    split; [reflexivity|done].
  - intros Hz. eexists. unfold pack_signed. simpl.
    change (256 ^ Z.of_nat 4 / 2) with (2 ^ 31). rewrite Hz.
    split; [reflexivity|done].
  - intros Hz. eexists. unfold pack_signed. simpl.
    change (256 ^ Z.of_nat 8 / 2) with (2 ^ 63). rewrite Hz.
    split; [reflexivity|done].
  - intros _. by eexists.
Qed.

(** A value that fits passes [validate]. *)
Lemma validate_fits k v : fits k v = true → Fields.validate k v = Ok tt.
Proof.
  destruct k as [n|n| | | | | | | | | ]; destruct v as [|b|z|s|bs];
    try discriminate; simpl; try done.
  - destruct (utf8_encode s) as [bs|] eqn:Hs; [|done].
    intros Hlen%bool_decide_eq_true. apply utf8_encode_length in Hs.
    rewrite bool_decide_eq_false_2 by lia. done.
  - intros Hlen%bool_decide_eq_true. by rewrite bool_decide_eq_false_2 by lia.
Qed.

(** Whatever integer a field is given, what it encodes has its width. *)
Lemma to_bytes_int_length k z bs :
  Fields.to_bytes k (VInt z) = Ok (VBytes bs) → length bs = Fields.sizeof k.
Proof.
  destruct k as [n|n| | | | | | | | | ]; simpl; try done.
  1-4: by intros (b & (z' & _ & _ & ->)%pack_unsigned_inv & [= ->])%fmap_Ok_inv.
  1-4: by intros (b & (z' & _ & _ & ->)%pack_signed_inv & [= ->])%fmap_Ok_inv.
  by intros [= <-].
Qed.




Example varchar_round_trip :
  (Fields.to_bytes (Fields.Varchar 6) (VStr alex)
     ≫= Fields.from_bytes (Fields.Varchar 6))
  = Ok (VStr (alex ++ [0; 0]%N)).
Proof. reflexivity. Qed.

Example boolean_round_trip :
  Fields.validate Fields.Boolean (VInt 5) = Ok tt
  ∧ (Fields.to_bytes Fields.Boolean (VInt 5) ≫= Fields.from_bytes Fields.Boolean)
    = Ok (VBool true)
  ∧ py_eq (VBool true) (VInt 5) = false.
Proof. split_and!; reflexivity. Qed.

(** ** Running computations *)

Lemma run_bind {S A B} (m : M S A) (k : A → M S B) (s : S) :
  (m ≫= k) s = match m s with
               | (Ok a, s') => k a s'
               | (Raise e, s') => (Raise e, s')
               end.
Proof. reflexivity. Qed.

Lemma same_store_refl t : same_store t t.
Proof. by split. Qed.

Lemma same_store_trans t1 t2 t3 :
  same_store t1 t2 → same_store t2 t3 → same_store t1 t3.
Proof. intros [? ?] [? ?]. split; congruence. Qed.

Lemma same_store_block_at t t' i : same_store t t' → block_at t' i = block_at t i.
Proof. intros [Hb Hd]. unfold block_at. by rewrite Hb, Hd. Qed.

Lemma same_store_n_blocks t t' : same_store t t' → n_blocks t' = n_blocks t.
Proof. intros [Hb Hd]. unfold n_blocks. by rewrite Hb, Hd. Qed.

(** ** The block store *)

Lemma size_run t :
  Table.block_size t ≠ 0 → Table.size t = (Ok (n_blocks t), t).
Proof.
  destruct t as [bs [data p]]. simpl. intros Hbs.
  unfold Table.size, n_blocks, data_of. rewrite !run_bind. simpl.
  rewrite run_bind. simpl. by rewrite (proj2 (Z.eqb_neq bs 0)).
Qed.

Lemma size_zero t :
  Table.block_size t = 0 → Table.size t = (Raise ZeroDivisionError, t).
Proof.
  destruct t as [bs [data p]]. simpl. intros ->.
  unfold Table.size. rewrite !run_bind. simpl. by rewrite run_bind.
Qed.

Lemma get_run t idx :
  0 ≤ idx * Table.block_size t → 0 ≤ Table.block_size t →
  ∃ t', Table.get idx t = (Ok (block_at t idx), t') ∧ same_store t t'.
Proof.
  destruct t as [bs [data p]]. simpl. intros Hoff Hbs.
  unfold Table.get. rewrite run_bind. simpl. rewrite run_bind.
  unfold Table.on_file at 1, Table.seek. simpl.
  rewrite (proj2 (Z.ltb_ge _ _)) by done.
  unfold Table.on_file, Table.read. simpl.
  rewrite (proj2 (Z.ltb_ge _ _)) by done.
  eexists. split; [reflexivity|]. by split.
Qed.

Lemma get_negative t idx :
  idx * Table.block_size t < 0 → Table.get idx t = (Raise OSError, t).
Proof.
  destruct t as [bs [data p]]. simpl. intros Hoff.
  unfold Table.get. rewrite run_bind. simpl. rewrite run_bind.
  unfold Table.on_file at 1, Table.seek. simpl.
  by rewrite (proj2 (Z.ltb_lt _ _)).
Qed.

Lemma update_run t block idx :
  0 ≤ idx * Table.block_size t →
  ∃ t', Table.update block idx t = (Ok tt, t')
        ∧ Table.block_size t' = Table.block_size t
        ∧ data_of t' = Table.write_at (data_of t)
                         (Z.to_nat (idx * Table.block_size t)) block.
Proof.
  destruct t as [bs [data p]]. simpl. intros Hoff.
  unfold Table.update. rewrite run_bind. simpl. rewrite run_bind.
  unfold Table.on_file at 1, Table.seek. simpl.
  rewrite (proj2 (Z.ltb_ge _ _)) by done.
  rewrite run_bind. unfold Table.on_file, Table.write. simpl.
  eexists. split; [reflexivity|]. by split.
Qed.

Lemma update_negative t block idx :
  idx * Table.block_size t < 0 →
  Table.update block idx t = (Raise OSError, t).
Proof.
  destruct t as [bs [data p]]. simpl. intros Hoff.
  unfold Table.update. rewrite run_bind. simpl. rewrite run_bind.
  unfold Table.on_file at 1, Table.seek. simpl.
  by rewrite (proj2 (Z.ltb_lt _ _)).
Qed.

Lemma n_blocks_nonneg t : 0 < Table.block_size t → 0 ≤ n_blocks t.
Proof. intros. unfold n_blocks. apply Z.div_pos; lia. Qed.

Lemma append_run t block :
  0 < Table.block_size t →
  ∃ t', Table.append block t = (Ok (n_blocks t), t')
        ∧ Table.block_size t' = Table.block_size t
        ∧ data_of t' = Table.write_at (data_of t)
                         (Z.to_nat (n_blocks t * Table.block_size t)) block.
Proof.
  intros Hbs. unfold Table.append. rewrite run_bind, size_run by lia.
  pose proof (n_blocks_nonneg t Hbs) as Hn.
  destruct t as [bs [data p]]. simpl in *.
  rewrite run_bind. simpl. rewrite run_bind.
  unfold Table.on_file at 1, Table.seek. simpl.
  rewrite (proj2 (Z.ltb_ge _ _)) by lia.
  rewrite run_bind. unfold Table.on_file, Table.write. simpl.
  eexists. split; [reflexivity|]. by split.
Qed.

(** ** Binary search *)

Section find_sorted_facts.
Context {K : Type} `{Comparable K}.
Variables (value : K) (get_value : list byte → K).

Lemma find_loop_unfold fuel idx size :
  Table.find_loop fuel value get_value idx size =
    if 0 <? size then
      match fuel with
      | O => mret None
      | S fuel' =>
          block ← Table.get (idx + size / 2);
          if gt value (get_value block) then
            Table.find_loop fuel' value get_value
              (idx + (size / 2 + 1)) (size / 2 + size mod 2 - 1)
          else
            Table.find_loop fuel' value get_value idx (size / 2)
      end
    else mret (Some idx).
Proof. by destruct fuel. Qed.

(** The loop preserves any property [I idx size] that each of its two
    branches preserves; it ends with [size = 0] before the fuel does,
    having read blocks of the store only. *)
Lemma find_loop_invariant (I : Z → Z → Prop) (t0 : Table.table) :
  0 < Table.block_size t0 →
  (∀ idx size, I idx size → 0 ≤ idx → 0 < size → idx + size ≤ n_blocks t0 →
     if gt value (get_value (block_at t0 (idx + size / 2)))
     then I (idx + (size / 2 + 1)) (size / 2 + size mod 2 - 1)
     else I idx (size / 2)) →
  ∀ fuel idx size t,
    same_store t0 t → I idx size →
    0 ≤ idx → 0 ≤ size → idx + size ≤ n_blocks t0 → size ≤ Z.of_nat fuel →
    ∃ r t', Table.find_loop fuel value get_value idx size t = (Ok (Some r), t')
            ∧ same_store t0 t' ∧ idx ≤ r ≤ idx + size ∧ I r 0.
Proof.
  intros Hbs Hstep fuel.
  induction fuel as [|fuel IH]; intros idx size t Hsame HI Hidx Hsize Hn Hfuel;
    rewrite find_loop_unfold.
  - assert (size = 0) as -> by lia. simpl.
    exists idx, t. split_and!; [done..|lia|lia|done].
  - destruct (Z.ltb_spec 0 size) as [Hpos|Hzero].
    + destruct (get_run t (idx + size / 2)) as (t1 & Hget & Hsame1).
      { destruct Hsame as [-> _]. apply Z.mul_nonneg_nonneg; lia_div. }
      { destruct Hsame as [-> _]. lia. }
      rewrite run_bind, Hget.
      rewrite (same_store_block_at t0 t) by done.
      pose proof (same_store_trans _ _ _ Hsame Hsame1) as Hsame01.
      specialize (Hstep idx size HI Hidx Hpos Hn).
      destruct (gt value (get_value (block_at t0 (idx + size / 2)))).
      * destruct (IH (idx + (size / 2 + 1)) (size / 2 + size mod 2 - 1) t1)
          as (r & t' & Hrun & Hs & Hr & HIr); [done|done|lia_div..|].
        exists r, t'. split_and!; [done|done|lia_div|lia_div|done].
      * destruct (IH idx (size / 2) t1)
          as (r & t' & Hrun & Hs & Hr & HIr); [done|done|lia_div..|].
        exists r, t'. split_and!; [done|done|lia_div|lia_div|done].
    + assert (size = 0) as -> by lia.
      exists idx, t. split_and!; [done..|lia|lia|done].
Qed.

(** [find_sorted] runs the loop from [idx = 0] on the whole store. *)
Lemma find_sorted_invariant (I : Z → Z → Prop) (t : Table.table) :
  0 < Table.block_size t →
  (∀ idx size, I idx size → 0 ≤ idx → 0 < size → idx + size ≤ n_blocks t →
     if gt value (get_value (block_at t (idx + size / 2)))
     then I (idx + (size / 2 + 1)) (size / 2 + size mod 2 - 1)
     else I idx (size / 2)) →
  I 0 (n_blocks t) →
  ∃ r t', Table.find_sorted value get_value t = (Ok (Some r), t')
          ∧ same_store t t' ∧ 0 ≤ r ≤ n_blocks t ∧ I r 0.
Proof.
  intros Hbs Hstep HI. unfold Table.find_sorted.
  rewrite run_bind, size_run by lia.
  pose proof (n_blocks_nonneg t Hbs) as Hn.
  destruct (find_loop_invariant I t Hbs Hstep (Z.to_nat (n_blocks t))
              0 (n_blocks t) t) as (r & t' & Hrun & Hs & Hr & HIr);
    [apply same_store_refl|done|lia..|].
  exists r, t'. split_and!; [done|done|lia|lia|done].
Qed.

End find_sorted_facts.

(** C10: on any store of positive block width, whatever it holds and
    whatever the key function and the comparison are, [find_sorted]
    terminates (the loop ends before its fuel does) and returns an index
    between 0 and [size()]; it leaves the file as it was. *)
Theorem find_sorted_in_range {K : Type} `{Comparable K}
    (value : K) (get_value : list byte → K) (t : Table.table) :
  0 < Table.block_size t →
  ∃ r n t', Table.size t = (Ok n, t)
            ∧ Table.find_sorted value get_value t = (Ok (Some r), t')
            ∧ same_store t t' ∧ 0 ≤ r ≤ n.
Proof.
  intros Hbs.
  destruct (find_sorted_invariant value get_value (λ _ _, True) t)
    as (r & t' & Hrun & Hs & Hr & _); [done| |done|].
  { intros idx size _ _ _ _. by case_match. }
  exists r, (n_blocks t), t'. rewrite size_run by lia. done.
Qed.

Lemma find_sorted_in_range_witness :
  ∃ r n t',
    Table.size (Table.init [x05; x01; x09; x02; x02] 1)
      = (Ok n, Table.init [x05; x01; x09; x02; x02] 1)
    ∧ Table.find_sorted (3 : Z) be_value (Table.init [x05; x01; x09; x02; x02] 1)
      = (Ok (Some r), t')
    ∧ same_store (Table.init [x05; x01; x09; x02; x02] 1) t' ∧ 0 ≤ r ≤ n.
Proof.
  apply (find_sorted_in_range (3 : Z) be_value
           (Table.init [x05; x01; x09; x02; x02] 1)).
  simpl. lia.
Defined.

(** C1: on a store of [n] blocks whose keys never decrease, [find_sorted]
    returns the lower bound of the probe: the smallest index whose key is
    [>= value], and [n] when no key is (so 0 on an empty store). *)
Theorem find_sorted_lower_bound {K : Type} `{ComparableLaws K}
    (value : K) (get_value : list byte → K) (t : Table.table) :
  0 < Table.block_size t →
  sorted_by get_value t →
  ∃ r t', Table.size t = (Ok (n_blocks t), t)
          ∧ Table.find_sorted value get_value t = (Ok (Some r), t')
          ∧ same_store t t'
          ∧ lower_bound value get_value t r.
Proof.
  intros Hbs Hsorted.
  set (key := λ i, get_value (block_at t i)).
  destruct (find_sorted_invariant value get_value
              (λ idx size,
                 (∀ i, 0 ≤ i < idx → gt value (key i) = true)
                 ∧ (∀ i, idx + size ≤ i < n_blocks t → gt value (key i) = false))
              t) as (r & t' & Hrun & Hs & Hr & Hlo & Hhi); [done| | |].
  - intros idx size [Hlo Hhi] Hidx Hsize Hn.
    fold (key (idx + size / 2)).
    destruct (gt value (key (idx + size / 2))) eqn:Hcmp.
    + split.
      * intros i Hi. apply (gt_ge_trans _ (key (idx + size / 2))); [done|].
        apply Hsorted; lia_div.
      * intros i Hi. apply Hhi. lia_div.
    + split; [done|]. intros i Hi.
      destruct (gt value (key i)) eqn:Hcmp'; [|done].
      rewrite <- Hcmp. symmetry. apply (gt_ge_trans _ (key i)); [done|].
      apply Hsorted; lia_div.
  - split; intros i Hi; lia.
  - exists r, t'. rewrite size_run by lia. split_and!; [done..|].
    unfold lower_bound. split_and!; [lia|lia| |].
    + intros i Hi. rewrite ge_not_gt. fold (key i). by rewrite Hlo.
    + intros Hlt. rewrite ge_not_gt. fold (key r). rewrite Hhi; [done|lia].
Qed.

Lemma find_sorted_lower_bound_witness :
  ∃ r t',
    Table.size (Table.init [x01; x03; x03; x07] 1)
      = (Ok (n_blocks (Table.init [x01; x03; x03; x07] 1)),
         Table.init [x01; x03; x03; x07] 1)
    ∧ Table.find_sorted (3 : Z) be_value (Table.init [x01; x03; x03; x07] 1)
      = (Ok (Some r), t')
    ∧ same_store (Table.init [x01; x03; x03; x07] 1) t'
    ∧ lower_bound (3 : Z) be_value (Table.init [x01; x03; x03; x07] 1) r.
Proof.
  apply (find_sorted_lower_bound (3 : Z) be_value
           (Table.init [x01; x03; x03; x07] 1)).
  - simpl. lia.
  - intros i j Hi Hij Hj. change (j < 4) in Hj.
    assert (Hc : (i = 0 ∨ i = 1 ∨ i = 2 ∨ i = 3)
                 ∧ (j = 0 ∨ j = 1 ∨ j = 2 ∨ j = 3)) by lia.
    destruct Hc as [[-> | [-> | [-> | ->]]] [-> | [-> | [-> | ->]]]];
      try lia; vm_compute; reflexivity.
Defined.

Example find_sorted_example :
  fst (Table.find_sorted (3 : Z) be_value (Table.init [x01; x03; x03; x07] 1))
    = Ok (Some 1)
  ∧ fst (Table.find_sorted (8 : Z) be_value (Table.init [x01; x03; x03; x07] 1))
    = Ok (Some 4)
  ∧ fst (Table.find_sorted (8 : Z) be_value (Table.init [] 1)) = Ok (Some 0).
Proof. vm_compute. done. Qed.




(** ** Reasoning about computations *)

Lemma wp_bind {S A B} (m : M S A) (k : A → M S B) Q E s :
  wp m (λ a s', wp (k a) Q E s') E s → wp (m ≫= k) Q E s.
Proof.
  unfold wp. rewrite run_bind. by destruct (m s) as [[a|e] s'].
Qed.

Lemma wp_ret {S A} (a : A) (Q : A → S → Prop) E s : Q a s → wp (mret a) Q E s.
Proof. done. Qed.

Lemma wp_raise {S A} e (Q : A → S → Prop) (E : error → S → Prop) s :
  E e s → wp (raise e) Q E s.
Proof. done. Qed.

Lemma wp_lift {S A} (r : result A) (Q : A → S → Prop) E s :
  match r with Ok a => Q a s | Raise e => E e s end → wp (lift r) Q E s.
Proof. unfold wp, lift. by destruct r. Qed.

Lemma wp_gets {S A} (f : S → A) (Q : A → S → Prop) E s :
  Q (f s) s → wp (gets f) Q E s.
Proof. done. Qed.

Lemma wp_modify {S} (f : S → S) (Q : unit → S → Prop) E s :
  Q tt (f s) → wp (modify f) Q E s.
Proof. done. Qed.

Lemma wp_mono {S A} (m : M S A) (Q Q' : A → S → Prop) (E E' : error → S → Prop) s :
  wp m Q E s → (∀ a s', Q a s' → Q' a s') → (∀ e s', E e s' → E' e s') →
  wp m Q' E' s.
Proof.
  unfold wp. destruct (m s) as [[a|e] s']; eauto.
Qed.

(** What [wp] says of the outcome itself. *)
Lemma wp_outcome {S A} (m : M S A) Q E s :
  wp m Q E s →
  (∃ a, fst (m s) = Ok a ∧ Q a (snd (m s)))
  ∨ (∃ e, fst (m s) = Raise e ∧ E e (snd (m s))).
Proof.
  unfold wp. destruct (m s) as [[a|e] s']; simpl; eauto.
Qed.

Lemma wp_on_self {A} (m : M (gmap string value) A) Q E self t :
  wp m (λ a self', Q a (self', t)) (λ e self', E e (self', t)) self →
  wp (Struct.on_self m) Q E (self, t).
Proof.
  unfold wp, Struct.on_self. simpl. by destruct (m self) as [[a|e] self'].
Qed.

Lemma wp_on_table {A} (m : M Table.table A) Q E (self : gmap string value) t :
  wp m (λ a t', Q a (self, t')) (λ e t', E e (self, t')) t →
  wp (Struct.on_table m) Q E (self, t).
Proof.
  unfold wp, Struct.on_table. simpl. by destruct (m t) as [[a|e] t'].
Qed.

(** *** Writing into the file *)

Lemma length_write_at data p bs :
  length (Table.write_at data p bs) = (length data `max` (p + length bs))%nat.
Proof.
  unfold Table.write_at.
  rewrite !length_app, length_take, length_replicate, length_drop. lia.
Qed.

(** A write that starts inside the file, or at its end. *)
Lemma write_at_inside data p bs :
  (p ≤ length data)%nat →
  Table.write_at data p bs = take p data ++ bs ++ drop (p + length bs) data.
Proof.
  intros Hp. unfold Table.write_at.
  by replace (p - length data)%nat with 0%nat by lia.
Qed.

(** The bytes written are read back. *)
Lemma write_at_read data p bs :
  (p ≤ length data)%nat →
  take (length bs) (drop p (Table.write_at data p bs)) = bs.
Proof.
  intros Hp. rewrite write_at_inside by done.
  rewrite drop_app_length' by (rewrite length_take; lia).
  by rewrite take_app_length.
Qed.

(** Bytes before the write are untouched. *)
Lemma write_at_before data p bs q n :
  (q + n ≤ p)%nat → (p ≤ length data)%nat →
  take n (drop q (Table.write_at data p bs)) = take n (drop q data).
Proof.
  intros Hq Hp. rewrite write_at_inside by done.
  rewrite <- (take_drop p data) at 3.
  rewrite !drop_app_le by (rewrite length_take; lia).
  rewrite !take_app_le by (rewrite length_drop, length_take; lia). done.
Qed.

(** Bytes after the write are untouched. *)
Lemma write_at_after data p bs q n :
  (p + length bs ≤ q)%nat → (p ≤ length data)%nat →
  take n (drop q (Table.write_at data p bs)) = take n (drop q data).
Proof.
  intros Hq Hp. rewrite write_at_inside by done.
  rewrite app_assoc, drop_app_ge by (rewrite length_app, length_take; lia).
  rewrite length_app, length_take, drop_drop. do 2 f_equal. lia.
Qed.

(** *** The operations of the block store *)

Lemma wp_size (Q : Z → Table.table → Prop) E t :
  (Table.block_size t ≠ 0 → Q (n_blocks t) t) →
  (Table.block_size t = 0 → E ZeroDivisionError t) →
  wp Table.size Q E t.
Proof.
  intros HQ HE. unfold wp.
  destruct (decide (Table.block_size t = 0)) as [Hz|Hnz].
  - rewrite size_zero by done. auto.
  - rewrite size_run by done. auto.
Qed.

Lemma wp_get idx (Q : list byte → Table.table → Prop) E t :
  0 ≤ idx * Table.block_size t → 0 ≤ Table.block_size t →
  (∀ t', same_store t t' → Q (block_at t idx) t') →
  wp (Table.get idx) Q E t.
Proof.
  intros Hoff Hbs HQ. unfold wp.
  destruct (get_run t idx) as (t' & -> & Hs); auto.
Qed.

Lemma wp_append block (Q : Z → Table.table → Prop) E t :
  0 ≤ Table.block_size t →
  (Table.block_size t = 0 → E ZeroDivisionError t) →
  (∀ t', 0 < Table.block_size t →
         Table.block_size t' = Table.block_size t →
         data_of t' = Table.write_at (data_of t)
                        (Z.to_nat (n_blocks t * Table.block_size t)) block →
         Q (n_blocks t) t') →
  wp (Table.append block) Q E t.
Proof.
  intros Hbs HE HQ. unfold wp.
  destruct (decide (Table.block_size t = 0)) as [Hz|Hnz].
  - unfold Table.append. rewrite run_bind, size_zero by done. auto.
  - destruct (append_run t block) as (t' & -> & Hb & Hd); [lia|].
    apply HQ; [lia|done..].
Qed.

Lemma wp_update block idx (Q : unit → Table.table → Prop) E t :
  0 ≤ idx * Table.block_size t →
  (∀ t', Table.block_size t' = Table.block_size t →
         data_of t' = Table.write_at (data_of t)
                        (Z.to_nat (idx * Table.block_size t)) block →
         Q tt t') →
  wp (Table.update block idx) Q E t.
Proof.
  intros Hoff HQ. unfold wp.
  destruct (update_run t block idx) as (t' & -> & Hb & Hd); auto.
Qed.

(** ** Classes and instances *)

Lemma class_lookup_elem cls name a :
  Struct.class_lookup cls name = Some a → (name, a) ∈ cls.
Proof.
  unfold Struct.class_lookup. induction cls as [|[n b] cls IH]; simpl; [done|].
  case_bool_decide as Hn; simpl in *.
  - intros [= <-]. subst. left.
  - intros Hl. right. auto.
Qed.

Lemma class_lookup_is_Some cls name :
  is_Some (Struct.class_lookup cls name) ↔ ∃ a, (name, a) ∈ cls.
Proof.
  split.
  - intros [a Ha]. exists a. by apply class_lookup_elem.
  - intros [a Ha]. unfold Struct.class_lookup.
    induction cls as [|[n b] cls IH]; simpl.
    + by apply elem_of_nil in Ha.
    + case_bool_decide as Hn; simpl in *; [by eexists|].
      apply elem_of_cons in Ha as [[= -> ->]|Ha]; [done|auto].
Qed.

Lemma class_lookup_unique cls name a :
  NoDup (cls.*1) → (name, a) ∈ cls → Struct.class_lookup cls name = Some a.
Proof.
  unfold Struct.class_lookup. induction cls as [|[n b] cls IH]; simpl.
  - intros _ Ha. by apply elem_of_nil in Ha.
  - intros [Hn Hnd]%NoDup_cons [[= -> ->]|Ha]%elem_of_cons.
    + by rewrite bool_decide_eq_true_2.
    + rewrite bool_decide_eq_false_2; [auto|].
      simpl. intros ->. apply Hn. apply list_elem_of_fmap. by exists (name, a).
Qed.

Lemma elem_of_iter_fields cls name f :
  (name, f) ∈ Struct.iter_fields cls ↔ (name, Struct.AField f) ∈ cls.
Proof.
  unfold Struct.iter_fields. rewrite list_elem_of_omap. split.
  - intros ([n [g|v]] & Hin & Heq); simpl in *; [|done].
    by injection Heq as -> ->.
  - intros Hin. by exists (name, Struct.AField f).
Qed.

Lemma encodable_spec cls self :
  encodable cls self = true ↔
  ∀ name f, (name, f) ∈ Struct.iter_fields cls →
    ∃ v, self !! name = Some v ∧ fits (Fields.kind f) v = true.
Proof.
  unfold encodable. rewrite forallb_forall. split.
  - intros Hall name f Hin%list_elem_of_In. specialize (Hall _ Hin).
    simpl in Hall. destruct (self !! name) as [v|]; [by exists v|done].
  - intros Hall [name f] Hin%list_elem_of_In.
    destruct (Hall _ _ Hin) as (v & Hv & Hfits). simpl. by rewrite Hv.
Qed.

Lemma validated_spec cls self :
  validated cls self = true ↔
  ∀ name f, (name, f) ∈ Struct.iter_fields cls →
    ∃ v, self !! name = Some v ∧ Fields.validate (Fields.kind f) v = Ok tt.
Proof.
  unfold validated. rewrite forallb_forall. split.
  - intros Hall name f Hin%list_elem_of_In. specialize (Hall _ Hin).
    simpl in Hall. destruct (self !! name) as [v|]; [|done].
    exists v. split; [done|]. by destruct (Fields.validate _ v) as [[]|].
  - intros Hall [name f] Hin%list_elem_of_In.
    destruct (Hall _ _ Hin) as (v & Hv & Hval). simpl. by rewrite Hv, Hval.
Qed.

Lemma encodable_validated cls self :
  encodable cls self = true → validated cls self = true.
Proof.
  rewrite encodable_spec, validated_spec. intros Hall name f Hin.
  destruct (Hall _ _ Hin) as (v & Hv & Hfits).
  exists v. split; [done|]. by apply validate_fits.
Qed.

(** *** The encoding of a record *)

Lemma to_bytes_storable_length k v bs :
  storable k v → Fields.to_bytes k v = Ok (VBytes bs) →
  length bs = Fields.sizeof k.
Proof.
  intros [Hfits|[z ->]] Hto.
  - destruct (to_bytes_fits k v Hfits) as (bs' & Hto' & Hlen). congruence.
  - by eapply to_bytes_int_length.
Qed.

Lemma join_encode_fields_length (self : gmap string value) fields items block :
  (∀ name f, (name, f) ∈ fields →
     ∃ v, self !! name = Some v ∧ storable (Fields.kind f) v) →
  Struct.encode_fields self fields = Ok items →
  Struct.join items = Ok block →
  length block = sum_list ((λ p, Fields.sizeof (Fields.kind p.2)) <$> fields).
Proof.
  revert items block. induction fields as [|[name f] fields IH];
    intros items block Hall; simpl.
  - intros [= <-] [= <-]. done.
  - destruct (Hall name f) as (v & Hv & Hst); [left|]. rewrite Hv. simpl.
    destruct (Fields.to_bytes (Fields.kind f) v) as [b|] eqn:Hto; [|done]. simpl.
    destruct (Struct.encode_fields self fields) as [tl|] eqn:Htl; [|done]. simpl.
    intros [= <-]. simpl. destruct b as [| | | |bs]; try done.
    destruct (Struct.join tl) as [btl|] eqn:Hjoin; [|done]. simpl.
    intros [= <-]. rewrite length_app.
    rewrite (to_bytes_storable_length _ _ _ Hst Hto).
    rewrite (IH tl btl); [done| |done..].
    intros n g Hin. apply Hall. by right.
Qed.

Lemma join_encode_fields_fits (self : gmap string value) fields :
  (∀ name f, (name, f) ∈ fields →
     ∃ v, self !! name = Some v ∧ fits (Fields.kind f) v = true) →
  ∃ items block, Struct.encode_fields self fields = Ok items
                 ∧ Struct.join items = Ok block.
Proof.
  induction fields as [|[name f] fields IH]; intros Hall; simpl.
  - by exists [], [].
  - destruct (Hall name f) as (v & Hv & Hfits); [left|]. rewrite Hv. simpl.
    destruct (to_bytes_fits _ _ Hfits) as (bs & -> & _). simpl.
    destruct IH as (items & block & -> & Hjoin).
    { intros n g Hin. apply Hall. by right. }
    simpl. exists (VBytes bs :: items), (bs ++ block). simpl. by rewrite Hjoin.
Qed.

(** The encoding of a record whose values fit has the width of a block. *)
Lemma as_bytes_encodable cls self :
  encodable cls self = true →
  ∃ block, Struct.as_bytes cls self = Ok block
           ∧ length block = Struct.block_size cls.
Proof.
  intros Henc. rewrite encodable_spec in Henc.
  destruct (join_encode_fields_fits self (Struct.iter_fields cls) Henc)
    as (items & block & Hitems & Hjoin).
  exists block. unfold Struct.as_bytes. rewrite Hitems. simpl.
  split; [done|]. eapply join_encode_fields_length; [|done..].
  intros name f Hin. destruct (Henc name f Hin) as (v & Hv & Hfits).
  exists v. split; [done|by left].
Qed.

(** So has the encoding, if there is one, after [id] was set to a number. *)
Lemma as_bytes_length_after_id cls self z block :
  encodable cls self = true →
  Struct.as_bytes cls (<["id"%string := VInt z]> self) = Ok block →
  length block = Struct.block_size cls.
Proof.
  intros Henc. rewrite encodable_spec in Henc. unfold Struct.as_bytes.
  destruct (Struct.encode_fields _ _) as [items|] eqn:Hitems; [|done]. simpl.
  intros Hjoin. eapply join_encode_fields_length; [|done..].
  intros name f Hin. destruct (decide (name = "id"%string)) as [->|Hne].
  - exists (VInt z). rewrite lookup_insert_eq. split; [done|right; by eexists].
  - destruct (Henc name f Hin) as (v & Hv & Hfits).
    exists v. rewrite lookup_insert_ne by done. split; [done|by left].
Qed.

Lemma encodable_insert_id cls self f z :
  NoDup (cls.*1) →
  Struct.class_lookup cls "id" = Some (Struct.AField f) →
  fits (Fields.kind f) (VInt z) = true →
  encodable cls self = true →
  encodable cls (<["id"%string := VInt z]> self) = true.
Proof.
  intros Hnd Hid Hfits. rewrite !encodable_spec. intros Henc name g Hin.
  destruct (decide (name = "id"%string)) as [->|Hne].
  - exists (VInt z). rewrite lookup_insert_eq. split; [done|].
    apply elem_of_iter_fields in Hin.
    apply (class_lookup_unique _ _ _ Hnd) in Hin. congruence.
  - rewrite lookup_insert_ne by done. auto.
Qed.

Lemma block_size_field cls name f :
  (name, f) ∈ Struct.iter_fields cls →
  (Fields.sizeof (Fields.kind f) ≤ Struct.block_size cls)%nat.
Proof.
  unfold Struct.block_size. induction (Struct.iter_fields cls) as [|p l IH].
  - intros Hin. by apply elem_of_nil in Hin.
  - rewrite fmap_cons. simpl.
    intros [<-|Hin]%elem_of_cons; simpl; [lia|]. specialize (IH Hin). lia.
Qed.

Lemma fits_int_sizeof k z : fits k (VInt z) = true → (1 ≤ Fields.sizeof k)%nat.
Proof. destruct k; simpl; try done; lia. Qed.

(** *** The methods of a record *)

Lemma getattr_run cls name (self : gmap string value) v :
  self !! name = Some v → Struct.getattr cls name self = (Ok v, self).
Proof.
  intros Hv. unfold Struct.getattr. rewrite run_bind. simpl. by rewrite Hv.
Qed.

Lemma wp_getattr_some cls name Q E (self : gmap string value) v :
  self !! name = Some v → Q v self → wp (Struct.getattr cls name) Q E self.
Proof. intros Hv HQ. unfold wp. by rewrite (getattr_run _ _ _ v). Qed.

Lemma wp_getattr cls name (Q : value → gmap string value → Prop) E self :
  (∀ v, Q v self) → (∀ e, E e self) → wp (Struct.getattr cls name) Q E self.
Proof.
  intros HQ HE. unfold wp, Struct.getattr. rewrite run_bind. simpl.
  destruct (self !! name); [apply HQ|].
  destruct (Struct.class_lookup cls name) as [[f|v]|]; [apply HE|apply HQ|apply HE].
Qed.

Lemma wp_setattr cls name v (Q : unit → gmap string value → Prop) E self :
  Q tt (<[name := v]> self) → (∀ e, E e self) →
  wp (Struct.setattr cls name v) Q E self.
Proof.
  intros HQ HE. unfold wp, Struct.setattr.
  destruct (Struct.class_lookup cls name) as [[f|w]|]; [|apply HE..].
  rewrite run_bind. unfold lift.
  destruct (Fields.validate (Fields.kind f) v) as [[]|e]; [apply HQ|apply HE].
Qed.

Lemma wp_setattr_field cls name v f (Q : unit → gmap string value → Prop) E self :
  Struct.class_lookup cls name = Some (Struct.AField f) →
  Fields.validate (Fields.kind f) v = Ok tt →
  Q tt (<[name := v]> self) →
  wp (Struct.setattr cls name v) Q E self.
Proof.
  intros Hf Hval HQ. unfold wp, Struct.setattr. rewrite Hf, run_bind.
  unfold lift. by rewrite Hval.
Qed.

Lemma wp_as_bytes cls (Q : list byte → gmap string value → Prop) E self :
  match Struct.as_bytes cls self with
  | Ok block => Q block self
  | Raise e => E e self
  end →
  wp (self ← gets (λ self, self); lift (Struct.as_bytes cls self)) Q E self.
Proof.
  intros H. unfold wp. rewrite run_bind. simpl. unfold lift.
  by destruct (Struct.as_bytes cls self).
Qed.

Lemma wp_get_index_by_id id (Q : Z → Table.table → Prop) E t :
  (∀ z, as_int id = Some z → 0 < z ≤ n_blocks t → Table.block_size t ≠ 0 →
        Q (z - 1) t) →
  (∀ e, E e t) →
  wp (Struct.get_index_by_id id) Q E t.
Proof.
  intros HQ HE. unfold Struct.get_index_by_id.
  destruct (as_int id) as [z|]; [|apply HE].
  destruct (Z.ltb_spec 0 z); [|apply HE].
  apply wp_bind, wp_size; [|intros; apply HE].
  intros Hbs. destruct (Z.leb_spec z (n_blocks t)); [|apply HE].
  apply wp_ret, HQ; [done|lia|done].
Qed.

(** *** Blocks and sizes *)

Lemma n_blocks_bounds t :
  0 < Table.block_size t →
  n_blocks t * Table.block_size t ≤ Z.of_nat (length (data_of t))
  ∧ Z.of_nat (length (data_of t)) < (n_blocks t + 1) * Table.block_size t.
Proof.
  intros Hbs. unfold n_blocks.
  pose proof (Z.div_mod (Z.of_nat (length (data_of t))) (Table.block_size t)).
  pose proof (Z.mod_pos_bound (Z.of_nat (length (data_of t)))
                (Table.block_size t) Hbs).
  nia.
Qed.

Lemma n_blocks_unique t n :
  0 < Table.block_size t →
  n * Table.block_size t ≤ Z.of_nat (length (data_of t))
    < (n + 1) * Table.block_size t →
  n_blocks t = n.
Proof.
  intros Hbs Hn. destruct (n_blocks_bounds t Hbs). nia.
Qed.

Lemma whole_blocks_length t :
  0 < Table.block_size t → whole_blocks t →
  Z.of_nat (length (data_of t)) = n_blocks t * Table.block_size t.
Proof.
  intros Hbs [q Hq]. unfold n_blocks. rewrite Hq, Z.div_mul by lia. done.
Qed.

(** A block appended after the last whole block, then overwritten. *)
Lemma write_at_twice data p block block' :
  (p ≤ length data)%nat → (length data < p + length block)%nat →
  length block' = length block →
  Table.write_at (Table.write_at data p block) p block' = take p data ++ block'.
Proof.
  intros Hp Hlen Hsame.
  rewrite (write_at_inside data) by done.
  rewrite (drop_ge data) by lia. rewrite app_nil_r.
  rewrite write_at_inside by (rewrite length_app, length_take; lia).
  rewrite take_app_length' by (rewrite length_take; lia).
  rewrite drop_ge by (rewrite length_app, length_take; lia).
  by rewrite app_nil_r.
Qed.

(** *** [insert] *)

(** C7: [insert] on a record whose [id] is not 0 raises [IdError] and
    leaves the record and the store (file and position) as they were. *)
Theorem insert_with_id_fails (cls : Struct.class) (self : gmap string value)
    (t : Table.table) (v : value) :
  Struct.getattr cls "id" self = (Ok v, self) →
  py_eq v (VInt 0) = false →
  Struct.insert cls (self, t) = (Raise IdError, (self, t)).
Proof.
  intros Hid Hne. unfold Struct.insert. rewrite run_bind.
  unfold Struct.on_self at 1. simpl. rewrite Hid. by rewrite Hne.
Qed.

Lemma insert_with_id_fails_witness :
  Struct.insert Person (<["id"%string := VInt 7]> person_alex, Struct.bind Person [])
  = (Raise IdError, (<["id"%string := VInt 7]> person_alex, Struct.bind Person [])).
Proof.
  apply (insert_with_id_fails Person (<["id"%string := VInt 7]> person_alex)
           (Struct.bind Person []) (VInt 7)).
  - reflexivity.
  - reflexivity.
Defined.

(** The way a successful [insert] goes, step by step. *)
Lemma wp_insert_encodable cls self t f v block :
  Struct.class_lookup cls "id" = Some (Struct.AField f) →
  bound_to cls t → 0 < Table.block_size t →
  encodable cls self = true →
  self !! "id"%string = Some v → py_eq v (VInt 0) = true →
  fits (Fields.kind f) (VInt (n_blocks t + 1)) = true →
  Struct.as_bytes cls (<["id"%string := VInt (n_blocks t + 1)]> self) = Ok block →
  length block = Struct.block_size cls →
  wp (Struct.insert cls)
     (λ r s, r = VInt (n_blocks t + 1)
             ∧ s.1 = <["id"%string := VInt (n_blocks t + 1)]> self
             ∧ Table.block_size s.2 = Table.block_size t
             ∧ data_of s.2
               = take (Z.to_nat (n_blocks t * Table.block_size t)) (data_of t)
                 ++ block)
     (λ _ _, False) (self, t).
Proof.
  intros Hid Hbound Hbs Henc Hv Hzero Hfits Hblock Hlen.
  destruct (as_bytes_encodable cls self Henc) as (block0 & Hblock0 & Hlen0).
  destruct (n_blocks_bounds t Hbs) as [Hlo Hhi].
  pose proof (n_blocks_nonneg t Hbs) as Hn.
  unfold Struct.insert.
  apply wp_bind, wp_on_self, (wp_getattr_some _ _ _ _ _ v); [done|].
  cbv beta. rewrite Hzero. cbn [negb].
  apply wp_bind, wp_on_self, wp_as_bytes. rewrite Hblock0. cbv beta.
  apply wp_bind, wp_on_table, wp_append; [lia|lia|].
  intros t1 _ Hb1 Hd1. cbv beta.
  apply wp_bind, wp_on_self, (wp_setattr_field _ _ _ f);
    [done|by apply validate_fits|].
  cbv beta.
  apply wp_bind, wp_on_self, wp_as_bytes. rewrite Hblock. cbv beta.
  apply wp_bind, wp_on_table, wp_update; [rewrite Hb1; nia|].
  intros t2 Hb2 Hd2. cbv beta.
  apply wp_on_self, (wp_getattr_some _ _ _ _ _ (VInt (n_blocks t + 1)));
    [by rewrite lookup_insert_eq|].
  simpl. split_and!; [done|done|congruence|].
  rewrite Hd2, Hd1, Hb1. unfold bound_to in Hbound.
  apply write_at_twice; lia.
Qed.

(** C2, as the code has it: when every value of the record fits its
    field and the [id] field can hold the new number, [insert] on a
    record with [id == 0] returns [size + 1], sets [id] to it, makes the
    store one block longer, and that last block is the encoding of the
    record with its new [id]. *)
Theorem insert_assigns_id (cls : Struct.class) (self : gmap string value)
    (t : Table.table) (f : Fields.field) (v : value) :
  NoDup (cls.*1) →
  Struct.class_lookup cls "id" = Some (Struct.AField f) →
  bound_to cls t →
  encodable cls self = true →
  self !! "id"%string = Some v → py_eq v (VInt 0) = true →
  fits (Fields.kind f) (VInt (n_blocks t + 1)) = true →
  ∃ t' block,
    Table.size t = (Ok (n_blocks t), t)
    ∧ Struct.insert cls (self, t)
      = (Ok (VInt (n_blocks t + 1)),
         (<["id"%string := VInt (n_blocks t + 1)]> self, t'))
    ∧ Table.size t' = (Ok (n_blocks t + 1), t')
    ∧ Struct.as_bytes cls (<["id"%string := VInt (n_blocks t + 1)]> self)
      = Ok block
    ∧ block_at t' (n_blocks t) = block.
Proof.
  intros Hnd Hid Hbound Henc Hv Hzero Hfits.
  assert (Hbs : 0 < Table.block_size t).
  { pose proof (class_lookup_elem _ _ _ Hid) as Hin.
    apply elem_of_iter_fields, block_size_field in Hin.
    apply fits_int_sizeof in Hfits. unfold bound_to in Hbound. lia. }
  pose proof (encodable_insert_id _ _ _ _ Hnd Hid Hfits Henc) as Henc'.
  destruct (as_bytes_encodable _ _ Henc') as (block & Hblock & Hlen).
  pose proof (wp_insert_encodable cls self t f v block
                Hid Hbound Hbs Henc Hv Hzero Hfits Hblock Hlen) as Hwp.
  unfold wp in Hwp.
  destruct (Struct.insert cls (self, t)) as [[r|e] [self' t']]; [|done].
  simpl in Hwp. destruct Hwp as (-> & -> & Hb & Hd).
  destruct (n_blocks_bounds t Hbs) as [Hlo Hhi].
  pose proof (n_blocks_nonneg t Hbs) as Hn.
  unfold bound_to in Hbound.
  assert (Hlen' : length (data_of t')
                  = (Z.to_nat (n_blocks t * Table.block_size t)
                     + Struct.block_size cls)%nat).
  { rewrite Hd, length_app, length_take. lia. }
  exists t', block. split_and!; [by rewrite size_run by lia|done| |done|].
  - rewrite size_run by lia. do 2 f_equal.
    apply n_blocks_unique; [lia|]. rewrite Hb. lia.
  - unfold block_at. rewrite Hb, Hd.
    rewrite drop_app_length' by (rewrite length_take; lia).
    rewrite Hbound, Nat2Z.id, <- Hlen. apply take_ge. done.
Qed.

Lemma insert_assigns_id_witness :
  ∃ t' block,
    Table.size (Struct.bind Person [])
      = (Ok (n_blocks (Struct.bind Person [])), Struct.bind Person [])
    ∧ Struct.insert Person (person_alex, Struct.bind Person [])
      = (Ok (VInt (n_blocks (Struct.bind Person []) + 1)),
         (<["id"%string := VInt (n_blocks (Struct.bind Person []) + 1)]>
            person_alex, t'))
    ∧ Table.size t' = (Ok (n_blocks (Struct.bind Person []) + 1), t')
    ∧ Struct.as_bytes Person
        (<["id"%string := VInt (n_blocks (Struct.bind Person []) + 1)]>
           person_alex) = Ok block
    ∧ block_at t' (n_blocks (Struct.bind Person [])) = block.
Proof.
  apply (insert_assigns_id Person person_alex (Struct.bind Person [])
           (Fields.Field Fields.Uint64 (VInt 0)) (VInt 0)).
  - apply (bool_decide_unpack _). vm_compute. reflexivity.
  - reflexivity.
  - reflexivity.
  - vm_compute. reflexivity.
  - vm_compute. reflexivity.
  - reflexivity.
  - vm_compute. reflexivity.
Defined.

(** C2 as stated fails: [Person(name='alex', age=2**32)] is a record with
    [id == 0] that the constructor accepts, all its values pass
    [validate], and [insert] raises on it ([struct.error]). *)
Lemma insert_assigns_id_counterexample :
  is_ok (Struct.init Person person_old) = true
  ∧ validated Person person_old = true
  ∧ person_old !! "id"%string = Some (VInt 0)
  ∧ fst (Struct.insert Person (person_old, Struct.bind Person []))
    = Raise StructPackError.
Proof. split_and!; vm_compute; reflexivity. Qed.

(** *** Whole blocks *)

(** [insert] keeps the file made of whole blocks, however it ends. *)
Lemma wp_insert_whole_blocks cls self t :
  encodable cls self = true → bound_to cls t → whole_blocks t →
  wp (Struct.insert cls)
     (λ _ s, bound_to cls s.2 ∧ whole_blocks s.2)
     (λ _ s, bound_to cls s.2 ∧ whole_blocks s.2) (self, t).
Proof.
  intros Henc Hbound Hwhole.
  destruct (as_bytes_encodable cls self Henc) as (block0 & Hblock0 & Hlen0).
  unfold bound_to in Hbound.
  unfold Struct.insert.
  apply wp_bind, wp_on_self, wp_getattr; [intros v|done]. cbv beta.
  destruct (negb (py_eq v (VInt 0))); [by apply wp_raise|].
  apply wp_bind, wp_on_self, wp_as_bytes. rewrite Hblock0. cbv beta.
  apply wp_bind, wp_on_table, wp_append; [lia|done|].
  intros t1 Hbs Hb1 Hd1. cbv beta.
  pose proof (whole_blocks_length t Hbs Hwhole) as Hlen.
  pose proof (n_blocks_nonneg t Hbs) as Hn.
  assert (Hlen1 : Z.of_nat (length (data_of t1))
                  = (n_blocks t + 1) * Table.block_size t).
  { rewrite Hd1, length_write_at. lia. }
  assert (Hinv1 : bound_to cls t1 ∧ whole_blocks t1).
  { split; [unfold bound_to; congruence|].
    exists (n_blocks t + 1). by rewrite Hb1. }
  apply wp_bind, wp_on_self, wp_setattr; [|done]. cbv beta.
  apply wp_bind, wp_on_self, wp_as_bytes.
  destruct (Struct.as_bytes cls (<[_ := _]> self)) as [block|] eqn:Hblock;
    [|done].
  pose proof (as_bytes_length_after_id _ _ _ _ Henc Hblock) as Hlenb.
  apply wp_bind, wp_on_table, wp_update; [rewrite Hb1; nia|].
  intros t2 Hb2 Hd2. cbv beta.
  assert (Hinv2 : bound_to cls t2 ∧ whole_blocks t2).
  { split; [unfold bound_to; congruence|].
    exists (n_blocks t + 1). rewrite Hb2, Hb1, Hd2, length_write_at, Hb1. lia. }
  by apply wp_on_self, wp_getattr.
Qed.

(** So does [update]. *)
Lemma wp_update_whole_blocks cls self t :
  encodable cls self = true → bound_to cls t → whole_blocks t →
  wp (Struct.update cls)
     (λ _ s, bound_to cls s.2 ∧ whole_blocks s.2)
     (λ _ s, bound_to cls s.2 ∧ whole_blocks s.2) (self, t).
Proof.
  intros Henc Hbound Hwhole.
  destruct (as_bytes_encodable cls self Henc) as (block0 & Hblock0 & Hlen0).
  unfold Struct.update.
  apply wp_bind, wp_on_self, wp_getattr; [intros v|done]. cbv beta.
  apply wp_bind, wp_on_table, wp_get_index_by_id; [|done].
  intros z _ Hz Hbs. cbv beta.
  apply wp_bind, wp_on_self, wp_as_bytes. rewrite Hblock0. cbv beta.
  unfold bound_to in Hbound.
  assert (Hpos : 0 < Table.block_size t) by lia.
  apply wp_on_table, wp_update; [nia|].
  intros t' Hb' Hd'. simpl. split; [unfold bound_to; congruence|].
  destruct Hwhole as [q Hq]. exists q.
  destruct (n_blocks_bounds t Hpos) as [Hlo _].
  rewrite Hb', Hd', length_write_at. nia.
Qed.




(** *** [update] *)

(** On a record whose values fit, [update] rewrites the block of the
    record and nothing else. *)
Theorem update_frame (cls : Struct.class) (self : gmap string value)
    (t : Table.table) (v : value) (z : Z) :
  encodable cls self = true → bound_to cls t →
  self !! "id"%string = Some v → as_int v = Some z →
  1 ≤ z ≤ n_blocks t → Table.block_size t ≠ 0 →
  ∃ t' block,
    Struct.update cls (self, t) = (Ok tt, (self, t'))
    ∧ Struct.as_bytes cls self = Ok block
    ∧ Table.block_size t' = Table.block_size t
    ∧ length (data_of t') = length (data_of t)
    ∧ block_at t' (z - 1) = block
    ∧ ∀ j, 0 ≤ j → j ≠ z - 1 → block_at t' j = block_at t j.
Proof.
  intros Henc Hbound Hv Hz Hrange Hbs.
  destruct (as_bytes_encodable cls self Henc) as (block & Hblock & Hlen).
  unfold bound_to in Hbound.
  assert (Hpos : 0 < Table.block_size t) by lia.
  destruct (n_blocks_bounds t Hpos) as [Hlo _].
  assert (Hwp : wp (Struct.update cls)
                  (λ _ s, s.1 = self
                          ∧ Table.block_size s.2 = Table.block_size t
                          ∧ data_of s.2
                            = Table.write_at (data_of t)
                                (Z.to_nat ((z - 1) * Table.block_size t)) block)
                  (λ _ _, False) (self, t)).
  { unfold Struct.update.
    apply wp_bind, wp_on_self, (wp_getattr_some _ _ _ _ _ v); [done|]. cbv beta.
    apply wp_bind, wp_on_table. unfold wp. unfold Struct.get_index_by_id.
    rewrite Hz. rewrite (proj2 (Z.ltb_lt 0 z)) by lia.
    rewrite run_bind, size_run by done.
    rewrite (proj2 (Z.leb_le z (n_blocks t))) by lia. simpl.
    apply wp_bind, wp_on_self, wp_as_bytes. rewrite Hblock. cbv beta.
    apply wp_on_table, wp_update; [nia|]. intros t' Hb' Hd'. by simpl. }
  unfold wp in Hwp.
  destruct (Struct.update cls (self, t)) as [[[]|e] [self' t']]; [|done].
  simpl in Hwp. destruct Hwp as (-> & Hb & Hd).
  exists t', block. split_and!; [done..| | |].
  - rewrite Hd, length_write_at. nia.
  - unfold block_at. rewrite Hb, Hd, Hbound, Nat2Z.id, <- Hlen.
    apply write_at_read. nia.
  - intros j Hj Hne. unfold block_at. rewrite Hb, Hd, Hbound, Nat2Z.id.
    rewrite Hbound in *.
    destruct (decide (j < z - 1)).
    + apply write_at_before; nia.
    + apply write_at_after; nia.
Qed.

Lemma update_frame_witness :
  ∃ t' block,
    Struct.update Tag (<["name"%string := VStr [0x62%N]]> tag_e_acute, two_tags)
      = (Ok tt, (<["name"%string := VStr [0x62%N]]> tag_e_acute, t'))
    ∧ Struct.as_bytes Tag (<["name"%string := VStr [0x62%N]]> tag_e_acute)
      = Ok block
    ∧ Table.block_size t' = Table.block_size two_tags
    ∧ length (data_of t') = length (data_of two_tags)
    ∧ block_at t' (1 - 1) = block
    ∧ ∀ j, 0 ≤ j → j ≠ 1 - 1 → block_at t' j = block_at two_tags j.
Proof.
  apply (update_frame Tag (<["name"%string := VStr [0x62%N]]> tag_e_acute)
           two_tags (VInt 1) 1).
  - vm_compute. reflexivity.
  - reflexivity.
  - vm_compute. reflexivity.
  - reflexivity.
  - vm_compute. split; discriminate.
  - vm_compute. discriminate.
Defined.

(** C8 on the code: the store [two_tags] holds the two records that two
    calls of [insert] leave; the first one, renamed to ['é'], passes
    [validate] (one character for a width of one), is encoded on ten
    bytes instead of nine, and [update] writes the tenth over the first
    byte of the block of the second record. *)
Theorem update_overwrites_next_block :
  is_ok (Struct.init Tag tag_e_acute) = true
  ∧ validated Tag tag_e_acute = true
  ∧ fst (Table.size two_tags) = Ok 2
  ∧ fst (Struct.get_index_by_id (VInt 1) two_tags) = Ok 0
  ∧ Struct.as_bytes Tag tag_e_acute
    = Ok [x00; x00; x00; x00; x00; x00; x00; x01; xc3; xa9]
  ∧ fst (Struct.update Tag (tag_e_acute, two_tags)) = Ok tt
  ∧ block_at two_tags 1 = [x00; x00; x00; x00; x00; x00; x00; x02; x61]
  ∧ block_at (Struct.update Tag (tag_e_acute, two_tags)).2.2 1
    = [xa9; x00; x00; x00; x00; x00; x00; x02; x61].
Proof. split_and!; vm_compute; reflexivity. Qed.

Example two_tags_by_insert :
  data_of
    (Struct.insert Tag
       ({[ "id"%string := VInt 0; "name"%string := VStr [0x61%N] ]},
        (Struct.insert Tag
           ({[ "id"%string := VInt 0; "name"%string := VStr [] ]},
            Struct.bind Tag [])).2.2)).2.2
  = data_of two_tags.
Proof. vm_compute. reflexivity. Qed.

(** *** [get] *)

(** An [id] outside [1 .. size()] is refused with [IdError], and the
    store is left as it was. *)
Theorem get_unknown_id (cls : Struct.class) (t : Table.table) (z : Z) :
  Table.block_size t ≠ 0 →
  ¬ (1 ≤ z ≤ n_blocks t) →
  Table.size t = (Ok (n_blocks t), t)
  ∧ Struct.get cls (VInt z) t = (Raise IdError, t).
Proof.
  intros Hbs Hz. split; [by apply size_run|].
  unfold Struct.get. rewrite run_bind. unfold Struct.get_index_by_id. simpl.
  destruct (Z.ltb_spec 0 z); [|done].
  rewrite run_bind, size_run by done.
  by rewrite (proj2 (Z.leb_gt z (n_blocks t))) by lia.
Qed.

Lemma get_unknown_id_witness :
  Table.size two_tags = (Ok (n_blocks two_tags), two_tags)
  ∧ Struct.get Tag (VInt 3) two_tags = (Raise IdError, two_tags).
Proof.
  apply (get_unknown_id Tag two_tags 3).
  - vm_compute. discriminate.
  - vm_compute. intros [_ H]. apply H. reflexivity.
Defined.

(** C3 on the code: [Person(name='alex', age=32)] is inserted and gets
    the id 1; the record that [get(1)] returns has the name ['alex']
    followed by 28 null characters, which is not the name that was
    written. *)
Theorem get_returns_padded_text :
  fst (Struct.insert Person (person_alex, Struct.bind Person [])) = Ok (VInt 1)
  ∧ (Struct.insert Person (person_alex, Struct.bind Person [])).2.1
      !! "name"%string = Some (VStr alex)
  ∧ (r ← fst (Struct.get Person (VInt 1)
                (Struct.insert Person (person_alex, Struct.bind Person [])).2.2);
     Ok (r !! "name"%string, r !! "age"%string, r !! "id"%string))
    = Ok (Some (VStr (alex ++ replicate 28 0%N)), Some (VInt 32), Some (VInt 1))
  ∧ py_eq (VStr (alex ++ replicate 28 0%N)) (VStr alex) = false.
Proof. split_and!; vm_compute; reflexivity. Qed.

(** *** The definition of a class *)

(** C5, as the code has it: the check made when a class is defined is
    that its body binds the name [id], to whatever it may be; without
    such a name the definition raises [NoFieldError]. *)
Theorem init_subclass_checks_name (cls : Struct.class) :
  ((∃ a, ("id"%string, a) ∈ cls) ∧ Struct.init_subclass cls = Ok tt)
  ∨ ((∀ a, ("id"%string, a) ∉ cls)
     ∧ Struct.init_subclass cls = Raise NoFieldError).
Proof.
  unfold Struct.init_subclass. case_bool_decide as Hid.
  - left. split; [|done]. by apply class_lookup_is_Some.
  - right. split; [|done]. intros a Ha. apply Hid, class_lookup_is_Some.
    by exists a.
Qed.

(** C5 as stated fails: a class whose [id] is a [Uint32] field with the
    default 5 is accepted. *)
Lemma init_subclass_counterexample :
  Struct.init_subclass Odd = Ok tt
  ∧ Struct.class_lookup Odd "id"
    = Some (Struct.AField (Fields.Field Fields.Uint32 (VInt 5)))
  ∧ Fields.Field Fields.Uint32 (VInt 5) ≠ Fields.Field Fields.Uint64 (VInt 0).
Proof. split_and!; [reflexivity|reflexivity|discriminate]. Qed.

(** *** Reading a record back *)

Lemma from_bytes_fits k v bs :
  fits k v = true → Fields.to_bytes k v = Ok (VBytes bs) →
  Fields.from_bytes k (VBytes bs) = Ok (decoded k v).
Proof.
  destruct k as [n|n| | | | | | | | | ]; destruct v as [|b|z|s|bs'];
    try discriminate; simpl; intros Hfits Hto.
  - destruct (utf8_encode s) as [e|] eqn:He; [|done]. injection Hto as <-.
    rewrite (utf8_decode_encode s e) by done. by rewrite utf8_decode_zeros.
  - by injection Hto as <-.
  - apply fmap_Ok_inv in Hto as (b & Hpack & [= ->]).
    by apply unpack_pack_unsigned in Hpack as (z' & [= <-] & Hun).
  - apply fmap_Ok_inv in Hto as (b & Hpack & [= ->]).
    by apply unpack_pack_unsigned in Hpack as (z' & [= <-] & Hun).
  - apply fmap_Ok_inv in Hto as (b & Hpack & [= ->]).
    by apply unpack_pack_unsigned in Hpack as (z' & [= <-] & Hun).
  - apply fmap_Ok_inv in Hto as (b & Hpack & [= ->]).
    by apply unpack_pack_unsigned in Hpack as (z' & [= <-] & Hun).
  - apply fmap_Ok_inv in Hto as (b & Hpack & [= ->]).
    by apply unpack_pack_signed in Hpack as (z' & [= <-] & Hun).
  - apply fmap_Ok_inv in Hto as (b & Hpack & [= ->]).
    by apply unpack_pack_signed in Hpack as (z' & [= <-] & Hun).
  - apply fmap_Ok_inv in Hto as (b & Hpack & [= ->]).
    by apply unpack_pack_signed in Hpack as (z' & [= <-] & Hun).
  - apply fmap_Ok_inv in Hto as (b & Hpack & [= ->]).
    by apply unpack_pack_signed in Hpack as (z' & [= <-] & Hun).
  - injection Hto as <-. by destruct b.
Qed.

Lemma validate_decoded k v :
  fits k v = true → Fields.validate k (decoded k v) = Ok tt.
Proof.
  intros Hfits. pose proof (validate_fits k v Hfits) as Hval.
  destruct k as [n|n| | | | | | | | | ]; destruct v as [|b|z|s|bs];
    try discriminate; try done.
  simpl in *. destruct (utf8_encode s) as [e|] eqn:He; [|done].
  apply bool_decide_eq_true in Hfits. apply utf8_encode_length in He.
  simpl. unfold padded. rewrite length_app, length_replicate.
  by rewrite bool_decide_eq_false_2 by lia.
Qed.

Lemma NoDup_iter_fields cls :
  NoDup (cls.*1) → NoDup ((Struct.iter_fields cls).*1).
Proof.
  unfold Struct.iter_fields. induction cls as [|[n a] cls IH]; simpl; [done|].
  intros [Hn Hnd]%NoDup_cons. destruct a as [f|v]; simpl; [|auto].
  apply NoDup_cons. split; [|auto].
  intros ([n' f'] & -> & Hin)%list_elem_of_fmap. simpl in *.
  apply list_elem_of_omap in Hin as ([n'' a] & Hin & Heq).
  destruct a as [g|w]; simpl in Heq; [|done]. injection Heq as -> ->.
  apply Hn, list_elem_of_fmap. by exists (n', Struct.AField f').
Qed.

(** Decoding the encoding of the fields gives, field by field, what
    each value decodes to. *)
Lemma decode_encode_fields (self : gmap string value) fields :
  ∀ items enc pre post (kw : gmap string value),
    NoDup (fields.*1) →
    (∀ name f, (name, f) ∈ fields →
       ∃ v, self !! name = Some v ∧ fits (Fields.kind f) v = true) →
    Struct.encode_fields self fields = Ok items →
    Struct.join items = Ok enc →
    ∃ kw', Struct.decode_fields (pre ++ enc ++ post) (length pre) fields kw
             = Ok kw'
           ∧ (∀ name, name ∉ fields.*1 → kw' !! name = kw !! name)
           ∧ (∀ name f v, (name, f) ∈ fields → self !! name = Some v →
                kw' !! name = Some (decoded (Fields.kind f) v)).
Proof.
  induction fields as [|[name f] fields IH];
    intros items enc pre post kw Hnd Hall; simpl.
  - intros _ _. exists kw. split_and!; [done|done|].
    intros n g v Hin. by apply elem_of_nil in Hin.
  - apply NoDup_cons in Hnd as [Hname Hnd].
    destruct (Hall name f) as (v & Hv & Hfits); [left|]. rewrite Hv. simpl.
    destruct (to_bytes_fits _ _ Hfits) as (b & Hto & Hlen). rewrite Hto. simpl.
    destruct (Struct.encode_fields self fields) as [tl|] eqn:Htl; [|done]. simpl.
    intros [= <-]. simpl.
    destruct (Struct.join tl) as [etl|] eqn:Hjoin; [|done]. simpl.
    intros [= <-].
    rewrite drop_app_length, <- app_assoc, <- Hlen, take_app_length.
    rewrite (from_bytes_fits _ _ _ Hfits Hto). simpl.
    destruct (IH tl etl (pre ++ b) post
                (<[name := decoded (Fields.kind f) v]> kw))
      as (kw' & Hdec & Hout & Hin); [done| |done|done|].
    { intros n g Hg. apply Hall. by right. }
    rewrite length_app, <- app_assoc in Hdec. rewrite Hdec.
    exists kw'. split_and!; [done| |].
    + intros n Hn. apply not_elem_of_cons in Hn as [Hne Hn].
      rewrite Hout by done. by rewrite lookup_insert_ne.
    + intros n g w [[= -> ->]|Hg]%elem_of_cons Hw.
      * rewrite Hout by done. rewrite lookup_insert_eq. congruence.
      * by apply (Hin n g w).
Qed.

(** [__init__] keeps the keyword arguments that pass [validate]. *)
Lemma init_fields_run cls (kwargs : gmap string value) fields :
  ∀ self0 : gmap string value,
    (∀ name f, (name, f) ∈ fields →
       Struct.class_lookup cls name = Some (Struct.AField f)
       ∧ ∃ v, kwargs !! name = Some v
              ∧ Fields.validate (Fields.kind f) v = Ok tt) →
    ∃ self1, Struct.init_fields cls kwargs fields self0 = (Ok tt, self1)
             ∧ (∀ name, name ∉ fields.*1 → self1 !! name = self0 !! name)
             ∧ (∀ name, name ∈ fields.*1 → self1 !! name = kwargs !! name).
Proof.
  induction fields as [|[name f] fields IH]; intros self0 Hall; simpl.
  - exists self0. split_and!; [done|done|].
    intros n Hn. by apply elem_of_nil in Hn.
  - destruct (Hall name f) as (Hcls & v & Hv & Hval); [left|].
    rewrite run_bind. unfold Struct.setattr. rewrite Hcls, Hv, run_bind.
    unfold lift. rewrite Hval. simpl.
    destruct (IH (<[name := v]> self0)) as (self1 & Hrun & Hout & Hin).
    { intros n g Hg. apply Hall. by right. }
    rewrite Hrun. exists self1. split_and!; [done| |].
    + intros n Hn. apply not_elem_of_cons in Hn as [Hne Hn].
      rewrite Hout by done. by rewrite lookup_insert_ne.
    + intros n Hn. destruct (decide (n ∈ fields.*1)) as [Hr|Hr]; [auto|].
      apply elem_of_cons in Hn as [->|Hn]; [|done].
      rewrite Hout by done. by rewrite lookup_insert_eq.
Qed.

(** What [get] returns for a block that holds the encoding of a record
    whose values fit: the same values, except that every text comes back
    with its padding. *)
Theorem get_decodes_block (cls : Struct.class) (self : gmap string value)
    (t : Table.table) (z : Z) (block : list byte) :
  NoDup (cls.*1) →
  encodable cls self = true →
  bound_to cls t →
  Table.block_size t ≠ 0 →
  1 ≤ z ≤ n_blocks t →
  Struct.as_bytes cls self = Ok block →
  block_at t (z - 1) = block →
  ∃ r t', Struct.get cls (VInt z) t = (Ok r, t')
          ∧ same_store t t'
          ∧ ∀ name f, (name, f) ∈ Struct.iter_fields cls →
              ∃ v, self !! name = Some v
                   ∧ r !! name = Some (decoded (Fields.kind f) v).
Proof.
  intros Hnd Henc Hbound Hbs Hz Hblock Hat.
  pose proof Henc as Hall. rewrite encodable_spec in Hall.
  unfold Struct.as_bytes in Hblock.
  destruct (Struct.encode_fields self (Struct.iter_fields cls))
    as [items|] eqn:Hitems; [|done]. simpl in Hblock.
  destruct (decode_encode_fields self (Struct.iter_fields cls)
              items block [] [] ∅ (NoDup_iter_fields _ Hnd) Hall Hitems Hblock)
    as (kw & Hdec & _ & Hkw).
  simpl in Hdec. rewrite app_nil_r in Hdec.
  destruct (init_fields_run cls kw (Struct.iter_fields cls) ∅)
    as (r & Hinit & _ & Hr).
  { intros name f Hin. split.
    - apply class_lookup_unique; [done|]. by apply elem_of_iter_fields.
    - destruct (Hall name f Hin) as (v & Hv & Hfits).
      exists (decoded (Fields.kind f) v). split; [by eapply Hkw|].
      by apply validate_decoded. }
  unfold bound_to in Hbound.
  destruct (get_run t (z - 1)) as (t' & Hget & Hsame); [nia|lia|].
  exists r, t'. split_and!; [|done|].
  - unfold Struct.get. rewrite run_bind. unfold Struct.get_index_by_id. simpl.
    rewrite (proj2 (Z.ltb_lt 0 z)) by lia.
    rewrite run_bind, size_run by done.
    rewrite (proj2 (Z.leb_le z (n_blocks t))) by lia. simpl.
    rewrite run_bind, Hget, Hat. unfold lift, Struct.from_bytes.
    rewrite Hdec. simpl. unfold Struct.init. by rewrite Hinit.
  - intros name f Hin. destruct (Hall name f Hin) as (v & Hv & Hfits).
    exists v. split; [done|]. rewrite Hr.
    + by eapply Hkw.
    + apply list_elem_of_fmap. by exists (name, f).
Qed.

Lemma get_decodes_block_witness :
  ∃ r t', Struct.get Tag (VInt 2) two_tags = (Ok r, t')
          ∧ same_store two_tags t'
          ∧ ∀ name f, (name, f) ∈ Struct.iter_fields Tag →
              ∃ v, ({[ "id"%string := VInt 2; "name"%string := VStr [0x61%N] ]}
                      : gmap string value) !! name = Some v
                   ∧ r !! name = Some (decoded (Fields.kind f) v).
Proof.
  apply (get_decodes_block Tag
           {[ "id"%string := VInt 2; "name"%string := VStr [0x61%N] ]}
           two_tags 2 [x00; x00; x00; x00; x00; x00; x00; x02; x61]).
  - apply (bool_decide_unpack _). vm_compute. reflexivity.
  - vm_compute. reflexivity.
  - reflexivity.
  - vm_compute. discriminate.
  - vm_compute. split; discriminate.
  - vm_compute. reflexivity.
  - vm_compute. reflexivity.
Defined.

(** * Further properties of the block store *)

Lemma block_at_app_l t t' i rest :
  Table.block_size t' = Table.block_size t →
  data_of t' = data_of t ++ rest →
  0 < Table.block_size t → 0 ≤ i < n_blocks t →
  block_at t' i = block_at t i.
Proof.
  intros Hb Hd Hbs Hi. destruct (n_blocks_bounds t Hbs) as [Hlo _].
  unfold block_at. rewrite Hb, Hd.
  rewrite drop_app_le by nia. rewrite take_app_le; [done|].
  rewrite length_drop. nia.
Qed.

Lemma write_at_end data p bs :
  (length data ≤ p)%nat →
  Table.write_at data p bs = data ++ replicate (p - length data) x00 ++ bs.
Proof.
  intros Hp. unfold Table.write_at.
  rewrite take_ge by done. rewrite (drop_ge data) by lia.
  by rewrite app_nil_r.
Qed.





(** [empty()] is true exactly when the file holds less than one whole
    block, not only when it holds nothing. *)
Theorem empty_iff_short (t : Table.table) :
  0 < Table.block_size t →
  Table.empty t
  = (Ok (bool_decide (Z.of_nat (length (data_of t)) < Table.block_size t)), t).
Proof.
  intros Hbs. unfold Table.empty. rewrite run_bind, size_run by lia.
  destruct (n_blocks_bounds t Hbs) as [Hlo Hhi].
  pose proof (n_blocks_nonneg t Hbs) as Hn.
  replace (n_blocks t =? 0)
    with (bool_decide (Z.of_nat (length (data_of t)) < Table.block_size t));
    [done|].
  case_bool_decide; symmetry; [apply Z.eqb_eq|apply Z.eqb_neq]; nia.
Qed.

Lemma empty_iff_short_witness :
  Table.empty (Table.init [x01; x02; x03] 4)
  = (Ok (bool_decide
           (Z.of_nat (length (data_of (Table.init [x01; x02; x03] 4)))
            < Table.block_size (Table.init [x01; x02; x03] 4))),
     Table.init [x01; x02; x03] 4).
Proof.
  apply (empty_iff_short (Table.init [x01; x02; x03] 4)). simpl. lia.
Defined.

(** ** Iterating over the blocks *)

Lemma on_fst_gets {S1 S2 A} (f : S1 → A) (s1 : S1) (s2 : S2) :
  on_fst (gets f) (s1, s2) = (Ok (f s1), (s1, s2)).
Proof. reflexivity. Qed.

Lemma on_fst_modify {S1 S2} (f : S1 → S1) (s1 : S1) (s2 : S2) :
  on_fst (modify f) (s1, s2) = (Ok tt, (f s1, s2)).
Proof. reflexivity. Qed.

Lemma on_snd_gets {S1 S2 A} (f : S2 → A) (s1 : S1) (s2 : S2) :
  on_snd (gets f) (s1, s2) = (Ok (f s2), (s1, s2)).
Proof. reflexivity. Qed.

Lemma on_snd_run {S1 S2 A} (m : M S2 A) (s1 : S1) (s2 s2' : S2) r :
  m s2 = (r, s2') → on_snd m (s1, s2) = (r, (s1, s2')).
Proof. unfold on_snd. simpl. by intros ->. Qed.

(** A read of one block from a position that stands for block [j]. *)
Lemma read_positioned t j :
  0 ≤ Table.block_size t → 0 ≤ j → positioned t j →
  ∃ t', Table.on_file (Table.read (Table.block_size t)) t
        = (Ok (block_at t j), t')
        ∧ same_store t t' ∧ positioned t' (j + 1).
Proof.
  destruct t as [bs [data p]]. unfold positioned, block_at, data_of. simpl.
  intros Hbs Hj Hpos. unfold Table.on_file, Table.read. simpl.
  rewrite (proj2 (Z.ltb_ge _ _)) by done. rewrite Hpos.
  eexists. split; [reflexivity|]. split; [done|]. simpl.
  rewrite <- drop_drop, Hpos, drop_drop, length_take, length_drop.
  set (q := Z.to_nat (j * bs)).
  replace (Z.to_nat ((j + 1) * bs)) with (q + Z.to_nat bs)%nat by (unfold q; nia).
  destruct (decide (Z.to_nat bs ≤ length data - q)%nat).
  - f_equal. lia.
  - rewrite !drop_ge by lia. done.
Qed.

Lemma seek_positioned t j :
  0 ≤ j * Table.block_size t →
  ∃ t', Table.on_file (Table.seek (j * Table.block_size t)) t
        = (Ok (j * Table.block_size t), t')
        ∧ same_store t t' ∧ positioned t' j.
Proof.
  destruct t as [bs [data p]]. simpl. intros Hoff.
  unfold Table.on_file, Table.seek. simpl.
  rewrite (proj2 (Z.ltb_ge _ _)) by done.
  eexists. split; [reflexivity|]. by split.
Qed.

Lemma positioned_same t t' j :
  same_store t t' → Table.pos (Table.file_of t') = Table.pos (Table.file_of t) →
  positioned t j → positioned t' j.
Proof. intros [Hb Hd] Hp. unfold positioned. by rewrite Hb, Hd, Hp. Qed.

Lemma next_between_loop todo t :
  Table.next_between (Table.BetweenLoop todo, t)
  = closing Table.BetweenDone (Table.between_loop todo) (Table.BetweenLoop todo, t).
Proof. reflexivity. Qed.

(** One more block from a generator inside its loop. *)
Lemma next_between_step todo t j :
  0 ≤ Table.block_size t → 0 ≤ j → positioned t j →
  ∃ t', Table.next_between (Table.BetweenLoop (S todo), t)
        = (Ok (Some (block_at t j)), (Table.BetweenLoop todo, t'))
        ∧ same_store t t' ∧ positioned t' (j + 1).
Proof.
  intros Hbs Hj Hpos.
  destruct (read_positioned t j Hbs Hj Hpos) as (t' & Hread & Hsame & Hpos').
  exists t'. split; [|done].
  rewrite next_between_loop. unfold closing, Table.between_loop.
  rewrite run_bind, on_snd_gets. cbv beta iota.
  rewrite run_bind, (on_snd_run _ _ _ _ _ Hread). cbv beta iota.
  by rewrite run_bind, on_fst_modify.
Qed.

Lemma next_between_end t :
  Table.next_between (Table.BetweenLoop 0, t) = (Ok None, (Table.BetweenDone, t)).
Proof. reflexivity. Qed.

(** Running a started generator to its end. *)
Lemma drain_between_loop todo :
  ∀ t j fuel,
    0 ≤ Table.block_size t → 0 ≤ j → positioned t j → (todo < fuel)%nat →
    ∃ t', drain Table.next_between fuel (Table.BetweenLoop todo, t)
          = (Ok (Some (block_at t <$> seqZ j (Z.of_nat todo))),
             (Table.BetweenDone, t'))
          ∧ same_store t t'.
Proof.
  induction todo as [|todo IH]; intros t j fuel Hbs Hj Hpos Hfuel;
    (destruct fuel as [|fuel]; [lia|]); simpl drain.
  - rewrite run_bind, next_between_end. exists t. split; [done|].
    apply same_store_refl.
  - destruct (next_between_step todo t j Hbs Hj Hpos)
      as (t1 & Hnext & Hsame & Hpos1).
    rewrite run_bind, Hnext.
    destruct (IH t1 (j + 1) fuel) as (t' & Hdrain & Hsame');
      [destruct Hsame as [-> _]; lia|lia|done|lia|].
    rewrite run_bind, Hdrain. exists t'. split.
    + simpl. unfold mret, M_ret. do 3 f_equal.
      replace (Z.of_nat (S todo)) with (Z.succ (Z.of_nat todo)) by lia.
      rewrite (seqZ_cons j) by lia. rewrite fmap_cons. f_equal.
      replace (Z.pred (Z.succ (Z.of_nat todo))) with (Z.of_nat todo) by lia.
      replace (Z.succ j) with (j + 1) by lia.
      apply list_fmap_ext. intros _ i _. by apply same_store_block_at.
    + by eapply same_store_trans.
Qed.

Lemma next_between_new t idx_from idx_to t1 :
  Table.on_file (Table.seek (idx_from * Table.block_size t)) t
    = (Ok (idx_from * Table.block_size t), t1) →
  Table.next_between (Table.BetweenNew idx_from idx_to, t)
  = Table.next_between (Table.BetweenLoop (Z.to_nat (idx_to - idx_from)), t1).
Proof.
  intros Hseek. rewrite next_between_loop.
  unfold Table.next_between, closing.
  rewrite run_bind, on_fst_gets. cbv beta iota.
  rewrite run_bind, on_snd_gets. cbv beta iota.
  rewrite run_bind, (on_snd_run _ _ _ _ _ Hseek). cbv beta iota.
  by destruct (Z.to_nat (idx_to - idx_from)).
Qed.

(** Running the generator of [iter_between] from its creation. *)
Lemma drain_iter_between t idx_from idx_to fuel :
  0 ≤ Table.block_size t → 0 ≤ idx_from →
  (Z.to_nat (idx_to - idx_from) < fuel)%nat →
  ∃ t', drain Table.next_between fuel (Table.BetweenNew idx_from idx_to, t)
        = (Ok (Some (block_at t <$> seqZ idx_from (idx_to - idx_from))),
           (Table.BetweenDone, t'))
        ∧ same_store t t'.
Proof.
  intros Hbs Hfrom Hfuel.
  destruct (seek_positioned t idx_from) as (t1 & Hseek & Hsame & Hpos); [nia|].
  destruct (drain_between_loop (Z.to_nat (idx_to - idx_from)) t1 idx_from fuel)
    as (t' & Hdrain & Hsame');
    [destruct Hsame as [-> _]; lia|done|done|done|].
  exists t'. split; [|by eapply same_store_trans].
  destruct fuel as [|fuel]; [lia|].
  simpl drain in *. rewrite run_bind in *.
  rewrite (next_between_new t idx_from idx_to t1 Hseek).
  assert (Hlist : block_at t <$> seqZ idx_from (idx_to - idx_from)
                  = block_at t1 <$> seqZ idx_from
                                      (Z.of_nat (Z.to_nat (idx_to - idx_from)))).
  { destruct (decide (0 ≤ idx_to - idx_from)).
    - rewrite Z2Nat.id by done. apply list_fmap_ext. intros _ i _.
      symmetry. by apply same_store_block_at.
    - unfold seqZ. replace (Z.to_nat (idx_to - idx_from)) with 0%nat by lia.
      done. }
  by rewrite Hlist.
Qed.



Example iter_between_example :
  fst (drain Table.next_between 5
         (Table.iter_between 1 4, Table.init [x01; x02; x03; x04; x05] 2))
  = Ok (Some [[x03; x04]; [x05]; []]).
Proof. vm_compute. reflexivity. Qed.

(** *** All the blocks *)

(** A generator that hands on what another one yields ends with the
    same list. *)
Lemma drain_delegate {G G' A} (wrap : G → G') (done : G')
    (next : M (G * Table.table) (option A))
    (next' : M (G' * Table.table) (option A)) :
  (∀ g t, next' (wrap g, t) = delegate wrap done next g (wrap g, t)) →
  ∀ fuel g t l g1 t1,
    drain next fuel (g, t) = (Ok (Some l), (g1, t1)) →
    drain next' fuel (wrap g, t) = (Ok (Some l), (done, t1)).
Proof.
  intros Hnext. induction fuel as [|fuel IH]; intros g t l g1 t1; [done|].
  simpl. rewrite !run_bind, Hnext. unfold delegate. simpl.
  destruct (next (g, t)) as [[[a|]|e] [g2 t2]]; [| |done].
  - rewrite !run_bind.
    destruct (drain next fuel (g2, t2)) as [[[l'|]|e] [g3 t3]] eqn:Hd; try done.
    intros [= <- <- <-]. by rewrite (IH _ _ _ _ _ Hd).
  - by intros [= <- <- <-].
Qed.

Lemma next_iter_in g t :
  Table.next_iter (Table.IterIn g, t)
  = delegate Table.IterIn Table.IterDone Table.next_between g (Table.IterIn g, t).
Proof.
  unfold Table.next_iter, closing. rewrite run_bind, on_fst_gets. cbv beta iota.
  unfold delegate. simpl.
  by destruct (Table.next_between (g, t)) as [[[a|]|e] [g2 t2]].
Qed.

Lemma next_iter_new t :
  Table.block_size t ≠ 0 →
  Table.next_iter (Table.IterNew, t)
  = delegate Table.IterIn Table.IterDone Table.next_between
      (Table.BetweenNew 0 (n_blocks t)) (Table.IterNew, t).
Proof.
  intros Hbs. unfold Table.next_iter, closing.
  rewrite run_bind, on_fst_gets. cbv beta iota.
  rewrite run_bind, (on_snd_run _ _ _ _ _ (size_run t Hbs)). cbv beta iota.
  unfold delegate, Table.iter_between. simpl.
  by destruct (Table.next_between (_, t)) as [[[a|]|e] [g2 t2]].
Qed.

Lemma drain_iter t fuel :
  0 < Table.block_size t → (Z.to_nat (n_blocks t) < fuel)%nat →
  ∃ t', drain Table.next_iter fuel (Table.IterNew, t)
        = (Ok (Some (block_at t <$> seqZ 0 (n_blocks t))), (Table.IterDone, t'))
        ∧ same_store t t'.
Proof.
  intros Hbs Hfuel.
  destruct (drain_iter_between t 0 (n_blocks t) fuel)
    as (t' & Hdrain & Hsame); [lia|lia|by rewrite Z.sub_0_r|].
  rewrite Z.sub_0_r in Hdrain. exists t'. split; [|done].
  pose proof (drain_delegate Table.IterIn Table.IterDone Table.next_between
                Table.next_iter next_iter_in fuel _ _ _ _ _ Hdrain) as Hd.
  destruct fuel as [|fuel]; [done|].
  simpl drain in *. rewrite run_bind in *.
  rewrite next_iter_new by lia. by rewrite next_iter_in in Hd.
Qed.

(** [list(table.iter())]: every whole block of the file, in order, and
    nothing of a trailing partial block; the file is left as it was. *)
Theorem iter_yields_all_blocks (t : Table.table) (fuel : nat) :
  0 < Table.block_size t → (Z.to_nat (n_blocks t) < fuel)%nat →
  ∃ t', drain Table.next_iter fuel (Table.iter, t)
        = (Ok (Some (block_at t <$> seqZ 0 (n_blocks t))), (Table.IterDone, t'))
        ∧ same_store t t'.
Proof. apply drain_iter. Qed.

Lemma iter_yields_all_blocks_witness :
  ∃ t', drain Table.next_iter 3 (Table.iter, Table.init [x01; x02; x03; x04; x05] 2)
        = (Ok (Some (block_at (Table.init [x01; x02; x03; x04; x05] 2)
                       <$> seqZ 0 (n_blocks (Table.init [x01; x02; x03; x04; x05] 2)))),
           (Table.IterDone, t'))
        ∧ same_store (Table.init [x01; x02; x03; x04; x05] 2) t'.
Proof.
  apply (iter_yields_all_blocks (Table.init [x01; x02; x03; x04; x05] 2) 3).
  - simpl. lia.
  - vm_compute. lia.
Defined.

(** A generator of [iter_between] keeps no position of its own: once it
    has started, it goes on from wherever the file position is.  After
    a [get(j)] its next block is block [j + 1], whatever it yielded
    before. *)
Theorem next_between_follows_get (t : Table.table) (j : Z) (todo : nat) :
  0 < Table.block_size t → 0 ≤ j →
  ∃ t1 t2,
    Table.get j t = (Ok (block_at t j), t1)
    ∧ Table.next_between (Table.BetweenLoop (S todo), t1)
      = (Ok (Some (block_at t (j + 1))), (Table.BetweenLoop todo, t2)).
Proof.
  intros Hbs Hj.
  destruct (seek_positioned t j) as (t0 & Hseek & Hsame0 & Hpos0); [nia|].
  destruct (read_positioned t0 j) as (t1 & Hread & Hsame1 & Hpos1);
    [destruct Hsame0 as [-> _]; lia|done|done|].
  destruct (next_between_step todo t1 (j + 1)) as (t2 & Hnext & _ & _);
    [destruct Hsame0 as [Hb0 _], Hsame1 as [Hb1 _]; lia|lia|done|].
  exists t1, t2. split.
  - unfold Table.get. rewrite run_bind. unfold gets at 1. cbv beta iota.
    rewrite run_bind, Hseek. cbv beta iota.
    destruct Hsame0 as [Hb0 Hd0]. rewrite <- Hb0, Hread.
    by rewrite (same_store_block_at t t0).
  - rewrite Hnext. do 3 f_equal.
    rewrite (same_store_block_at t0 t1), (same_store_block_at t t0); done.
Qed.

Lemma next_between_follows_get_witness :
  ∃ t1 t2,
    Table.get 2 (Table.init [x01; x02; x03; x04] 1)
    = (Ok (block_at (Table.init [x01; x02; x03; x04] 1) 2), t1)
    ∧ Table.next_between (Table.BetweenLoop (S 5), t1)
      = (Ok (Some (block_at (Table.init [x01; x02; x03; x04] 1) (2 + 1))),
         (Table.BetweenLoop 5, t2)).
Proof.
  apply (next_between_follows_get (Table.init [x01; x02; x03; x04] 1) 2 5).
  - simpl. lia.
  - lia.
Defined.

(** * Further properties of records *)

(** ** Construction and assignment *)

Lemma iter_fields_lookup cls name f :
  NoDup (cls.*1) → (name, f) ∈ Struct.iter_fields cls →
  Struct.class_lookup cls name = Some (Struct.AField f).
Proof.
  intros Hnd Hin. apply class_lookup_unique; [done|].
  by apply elem_of_iter_fields.
Qed.

Lemma init_fields_ok cls (kwargs : gmap string value) fields :
  ∀ self0 : gmap string value,
    NoDup (fields.*1) →
    (∀ name f, (name, f) ∈ fields →
       Struct.class_lookup cls name = Some (Struct.AField f)
       ∧ Fields.validate (Fields.kind f)
           (match kwargs !! name with
            | Some v => v
            | None => Fields.default f
            end) = Ok tt) →
    ∃ self1, Struct.init_fields cls kwargs fields self0 = (Ok tt, self1)
             ∧ (∀ name, name ∉ fields.*1 → self1 !! name = self0 !! name)
             ∧ (∀ name f, (name, f) ∈ fields →
                  self1 !! name
                  = Some (match kwargs !! name with
                          | Some v => v
                          | None => Fields.default f
                          end)).
Proof.
  induction fields as [|[name f] fields IH]; intros self0 Hnd Hall; simpl.
  - exists self0. split_and!; [done|done|].
    intros n g Hn. by apply elem_of_nil in Hn.
  - apply NoDup_cons in Hnd as [Hname Hnd].
    destruct (Hall name f) as (Hcls & Hval); [left|].
    rewrite run_bind. unfold Struct.setattr. rewrite Hcls, run_bind.
    unfold lift. rewrite Hval. cbv beta iota. unfold modify.
    destruct (IH (<[name := match kwargs !! name with
                            | Some v => v
                            | None => Fields.default f
                            end]> self0) Hnd)
      as (self1 & Hrun & Hout & Hin).
    { intros n g Hg. apply Hall. by right. }
    rewrite Hrun. exists self1. split_and!; [done| |].
    + intros n Hn. apply not_elem_of_cons in Hn as [Hne Hn].
      rewrite Hout by done. by rewrite lookup_insert_ne.
    + intros n g [[= -> ->]|Hg]%elem_of_cons; [|by apply Hin].
      rewrite Hout by done. by rewrite lookup_insert_eq.
Qed.

Lemma init_fields_inv cls (kwargs : gmap string value) fields :
  ∀ self0 self1 : gmap string value,
    (∀ name f, (name, f) ∈ fields →
       Struct.class_lookup cls name = Some (Struct.AField f)) →
    Struct.init_fields cls kwargs fields self0 = (Ok tt, self1) →
    ∀ name f, (name, f) ∈ fields →
      Fields.validate (Fields.kind f)
        (match kwargs !! name with
         | Some v => v
         | None => Fields.default f
         end) = Ok tt.
Proof.
  induction fields as [|[name f] fields IH]; intros self0 self1 Hcls; simpl.
  - intros _ n g Hn. by apply elem_of_nil in Hn.
  - rewrite run_bind. unfold Struct.setattr.
    rewrite (Hcls name f) by left. rewrite run_bind. unfold lift.
    destruct (Fields.validate _ _) as [[]|e] eqn:Hval; [|done].
    cbv beta iota. unfold modify. intros Hrun n g [[= -> ->]|Hg]%elem_of_cons.
    + done.
    + eapply IH; [|done..]. intros n' g' Hg'. apply Hcls. by right.
Qed.

(** [__init__]: the constructor succeeds exactly when, for every field,
    the value passed for it, or else its default, passes [validate].
    The new record then has that value for every field, nothing else
    (keyword arguments that name no field are ignored), and every value
    in it is validated. *)
Theorem init_fills_defaults (cls : Struct.class) (kwargs : gmap string value) :
  NoDup (cls.*1) →
  (is_ok (Struct.init cls kwargs) = true ↔
   ∀ name f, (name, f) ∈ Struct.iter_fields cls →
     Fields.validate (Fields.kind f)
       (match kwargs !! name with
        | Some v => v
        | None => Fields.default f
        end) = Ok tt)
  ∧ ∀ self, Struct.init cls kwargs = Ok self →
      validated cls self = true
      ∧ (∀ name f, (name, f) ∈ Struct.iter_fields cls →
           self !! name = Some (match kwargs !! name with
                                | Some v => v
                                | None => Fields.default f
                                end))
      ∧ (∀ name, name ∉ (Struct.iter_fields cls).*1 → self !! name = None).
Proof.
  intros Hnd.
  assert (Hcls : ∀ name f, (name, f) ∈ Struct.iter_fields cls →
            Struct.class_lookup cls name = Some (Struct.AField f))
    by (intros; by apply iter_fields_lookup).
  assert (Hinv : ∀ self, Struct.init cls kwargs = Ok self →
            ∀ name f, (name, f) ∈ Struct.iter_fields cls →
              Fields.validate (Fields.kind f)
                (match kwargs !! name with
                 | Some v => v
                 | None => Fields.default f
                 end) = Ok tt).
  { intros self Hinit. unfold Struct.init in Hinit.
    destruct (Struct.init_fields cls kwargs (Struct.iter_fields cls) ∅)
      as [[[]|e] self1] eqn:Hrun; [|done].
    by eapply init_fields_inv. }
  assert (Hok : (∀ name f, (name, f) ∈ Struct.iter_fields cls →
             Fields.validate (Fields.kind f)
               (match kwargs !! name with
                | Some v => v
                | None => Fields.default f
                end) = Ok tt) →
           ∃ self, Struct.init cls kwargs = Ok self
             ∧ (∀ name f, (name, f) ∈ Struct.iter_fields cls →
                  self !! name = Some (match kwargs !! name with
                                       | Some v => v
                                       | None => Fields.default f
                                       end))
             ∧ (∀ name, name ∉ (Struct.iter_fields cls).*1 → self !! name = None)).
  { intros Hall.
    destruct (init_fields_ok cls kwargs (Struct.iter_fields cls) ∅
                (NoDup_iter_fields _ Hnd)) as (self & Hrun & Hout & Hin).
    { intros name f Hf. split; [by apply Hcls|by apply Hall]. }
    exists self. unfold Struct.init. rewrite Hrun. split_and!; [done|done|].
    intros name Hname. by rewrite Hout. }
  split.
  - split.
    + destruct (Struct.init cls kwargs) as [self|e] eqn:Hinit; [|done].
      intros _. by apply (Hinv self).
    + intros Hall. by destruct (Hok Hall) as (self & -> & _).
  - intros self Hinit. destruct (Hok (Hinv self Hinit)) as (self' & Hinit' & Hin & Hout).
    assert (self' = self) as -> by congruence.
    split_and!; [|done..].
    apply validated_spec. intros name f Hf. eexists. split; [by apply Hin|].
    by eapply Hinv.
Qed.

Lemma init_fills_defaults_witness :
  (is_ok (Struct.init Person {[ "name"%string := VStr alex ]}) = true ↔
   ∀ name f, (name, f) ∈ Struct.iter_fields Person →
     Fields.validate (Fields.kind f)
       (match ({[ "name"%string := VStr alex ]} : gmap string value) !! name with
        | Some v => v
        | None => Fields.default f
        end) = Ok tt)
  ∧ ∀ self, Struct.init Person {[ "name"%string := VStr alex ]} = Ok self →
      validated Person self = true
      ∧ (∀ name f, (name, f) ∈ Struct.iter_fields Person →
           self !! name
           = Some (match ({[ "name"%string := VStr alex ]} : gmap string value)
                         !! name with
                   | Some v => v
                   | None => Fields.default f
                   end))
      ∧ (∀ name, name ∉ (Struct.iter_fields Person).*1 → self !! name = None).
Proof.
  apply (init_fills_defaults Person {[ "name"%string := VStr alex ]}).
  apply (bool_decide_unpack _). vm_compute. reflexivity.
Defined.

Example init_examples :
  (Struct.init Person {[ "name"%string := VStr alex; "nick"%string := VInt 1 ]}
     ≫= λ self, Ok (map_to_list self))
  = Ok [("id"%string, VInt 0); ("age"%string, VInt 0);
        ("name"%string, VStr alex)]
  ∧ Struct.init Person {[ "name"%string := VStr (replicate 33 97%N) ]}
    = Raise TooLongError
  ∧ Struct.init Person {[ "age"%string := VNone ]} = Raise ValidationError.
Proof. split_and!; vm_compute; reflexivity. Qed.

(** [__setattr__]: an assignment that raises leaves the record as it
    was, one that succeeds changes the named attribute only; either way
    every value of the record is still validated. *)
Theorem setattr_keeps_validated (cls : Struct.class) (name : string)
    (v : value) (self self' : gmap string value) (r : result unit) :
  NoDup (cls.*1) →
  validated cls self = true →
  Struct.setattr cls name v self = (r, self') →
  validated cls self' = true
  ∧ match r with
    | Ok _ => self' = <[name := v]> self
    | Raise _ => self' = self
    end.
Proof.
  intros Hnd Hval. unfold Struct.setattr.
  destruct (Struct.class_lookup cls name) as [[f|w]|] eqn:Hcls;
    [|by intros [= <- <-]..].
  rewrite run_bind. unfold lift.
  destruct (Fields.validate (Fields.kind f) v) as [[]|e] eqn:Hv;
    [|by intros [= <- <-]].
  cbv beta iota. unfold modify. intros [= <- <-]. split; [|done].
  rewrite validated_spec in *. intros n g Hg.
  destruct (decide (n = name)) as [->|Hne].
  - exists v. rewrite lookup_insert_eq. split; [done|].
    pose proof (iter_fields_lookup _ _ _ Hnd Hg) as Hg'.
    assert (g = f) as -> by congruence. done.
  - rewrite lookup_insert_ne by done. auto.
Qed.

Lemma setattr_keeps_validated_witness :
  validated Person person_alex = true
  ∧ match Raise TooLongError : result unit with
    | Ok _ => person_alex
              = <["name"%string := VStr (replicate 33 97%N)]> person_alex
    | Raise _ => person_alex = person_alex
    end.
Proof.
  apply (setattr_keeps_validated Person "name" (VStr (replicate 33 97%N))
           person_alex person_alex (Raise TooLongError)).
  - apply (bool_decide_unpack _). vm_compute. reflexivity.
  - vm_compute. reflexivity.
  - reflexivity.
Defined.

(** ** [update] and [insert] on the store *)

(** [update] on a record whose [id] is not one of [1 .. size()], a
    record that was never inserted for one, raises [IdError]; nothing is
    written and the record is as it was. *)
Theorem update_unknown_id (cls : Struct.class) (self : gmap string value)
    (t : Table.table) (v : value) (z : Z) :
  Table.block_size t ≠ 0 →
  self !! "id"%string = Some v → as_int v = Some z →
  ¬ (1 ≤ z ≤ n_blocks t) →
  Struct.update cls (self, t) = (Raise IdError, (self, t)).
Proof.
  intros Hbs Hv Hz Hrange. unfold Struct.update.
  rewrite run_bind. unfold Struct.on_self at 1. simpl.
  rewrite (getattr_run _ _ _ v) by done. rewrite run_bind.
  unfold Struct.on_table, Struct.get_index_by_id. simpl. rewrite Hz.
  destruct (Z.ltb_spec 0 z); [|done].
  rewrite run_bind, size_run by done.
  by rewrite (proj2 (Z.leb_gt z (n_blocks t))) by lia.
Qed.

Lemma update_unknown_id_witness :
  Struct.update Person (person_alex, Struct.bind Person [])
  = (Raise IdError, (person_alex, Struct.bind Person [])).
Proof.
  apply (update_unknown_id Person person_alex (Struct.bind Person []) (VInt 0) 0).
  - vm_compute. discriminate.
  - vm_compute. reflexivity.
  - reflexivity.
  - lia.
Defined.

(** What a successful [insert] leaves on file. *)
Lemma insert_run_encodable cls self t f v :
  NoDup (cls.*1) →
  Struct.class_lookup cls "id" = Some (Struct.AField f) →
  bound_to cls t →
  encodable cls self = true →
  self !! "id"%string = Some v → py_eq v (VInt 0) = true →
  fits (Fields.kind f) (VInt (n_blocks t + 1)) = true →
  0 < Table.block_size t
  ∧ encodable cls (<["id"%string := VInt (n_blocks t + 1)]> self) = true
  ∧ ∃ t' block,
      Struct.insert cls (self, t)
      = (Ok (VInt (n_blocks t + 1)),
         (<["id"%string := VInt (n_blocks t + 1)]> self, t'))
      ∧ Struct.as_bytes cls (<["id"%string := VInt (n_blocks t + 1)]> self)
        = Ok block
      ∧ length block = Struct.block_size cls
      ∧ Table.block_size t' = Table.block_size t
      ∧ data_of t'
        = take (Z.to_nat (n_blocks t * Table.block_size t)) (data_of t) ++ block.
Proof.
  intros Hnd Hid Hbound Henc Hv Hzero Hfits.
  assert (Hbs : 0 < Table.block_size t).
  { pose proof (class_lookup_elem _ _ _ Hid) as Hin.
    apply elem_of_iter_fields, block_size_field in Hin.
    apply fits_int_sizeof in Hfits. unfold bound_to in Hbound. lia. }
  pose proof (encodable_insert_id _ _ _ _ Hnd Hid Hfits Henc) as Henc'.
  split; [done|]. split; [done|].
  destruct (as_bytes_encodable _ _ Henc') as (block & Hblock & Hlen).
  pose proof (wp_insert_encodable cls self t f v block
                Hid Hbound Hbs Henc Hv Hzero Hfits Hblock Hlen) as Hwp.
  unfold wp in Hwp.
  destruct (Struct.insert cls (self, t)) as [[r|e] [self' t']]; [|done].
  simpl in Hwp. destruct Hwp as (-> & -> & Hb & Hd).
  by exists t', block.
Qed.

(** [insert] only appends: on a file of whole blocks the encoding of
    the record, with its new [id], is added at the end and every block
    that was there is as it was. *)
Theorem insert_appends (cls : Struct.class) (self : gmap string value)
    (t : Table.table) (f : Fields.field) (v : value) :
  NoDup (cls.*1) →
  Struct.class_lookup cls "id" = Some (Struct.AField f) →
  bound_to cls t → whole_blocks t →
  encodable cls self = true →
  self !! "id"%string = Some v → py_eq v (VInt 0) = true →
  fits (Fields.kind f) (VInt (n_blocks t + 1)) = true →
  ∃ t' block,
    Struct.insert cls (self, t)
    = (Ok (VInt (n_blocks t + 1)),
       (<["id"%string := VInt (n_blocks t + 1)]> self, t'))
    ∧ Struct.as_bytes cls (<["id"%string := VInt (n_blocks t + 1)]> self)
      = Ok block
    ∧ data_of t' = data_of t ++ block
    ∧ whole_blocks t'
    ∧ ∀ j, 0 ≤ j < n_blocks t → block_at t' j = block_at t j.
Proof.
  intros Hnd Hid Hbound Hwhole Henc Hv Hzero Hfits.
  destruct (insert_run_encodable cls self t f v)
    as (Hbs & _ & t' & block & Hrun & Hblock & Hlen & Hb & Hd); [done..|].
  pose proof (whole_blocks_length t Hbs Hwhole) as Hlent.
  rewrite take_ge in Hd by lia.
  unfold bound_to in Hbound.
  exists t', block. split_and!; [done..| |].
  - exists (n_blocks t + 1). rewrite Hb, Hd, length_app. lia.
  - intros j Hj. by apply (block_at_app_l t t' j block).
Qed.

Lemma insert_appends_witness :
  ∃ t' block,
    Struct.insert Tag ({[ "id"%string := VInt 0; "name"%string := VStr [0x62%N] ]},
                       two_tags)
    = (Ok (VInt (n_blocks two_tags + 1)),
       (<["id"%string := VInt (n_blocks two_tags + 1)]>
          {[ "id"%string := VInt 0; "name"%string := VStr [0x62%N] ]}, t'))
    ∧ Struct.as_bytes Tag
        (<["id"%string := VInt (n_blocks two_tags + 1)]>
           {[ "id"%string := VInt 0; "name"%string := VStr [0x62%N] ]})
      = Ok block
    ∧ data_of t' = data_of two_tags ++ block
    ∧ whole_blocks t'
    ∧ ∀ j, 0 ≤ j < n_blocks two_tags → block_at t' j = block_at two_tags j.
Proof.
  apply (insert_appends Tag
           {[ "id"%string := VInt 0; "name"%string := VStr [0x62%N] ]}
           two_tags (Fields.Field Fields.Uint64 (VInt 0)) (VInt 0)).
  - apply (bool_decide_unpack _). vm_compute. reflexivity.
  - reflexivity.
  - reflexivity.
  - exists 2. reflexivity.
  - vm_compute. reflexivity.
  - vm_compute. reflexivity.
  - reflexivity.
  - vm_compute. reflexivity.
Defined.

(** ** Reading back what was written *)

Lemma field_of_iter_fields cls name f :
  NoDup (cls.*1) → (name, f) ∈ Struct.iter_fields cls → field_of cls name = Some f.
Proof.
  intros Hnd Hin. unfold field_of. by rewrite (iter_fields_lookup _ _ _ Hnd Hin).
Qed.

Lemma field_of_Some cls name f :
  field_of cls name = Some f → (name, f) ∈ Struct.iter_fields cls.
Proof.
  unfold field_of.
  destruct (Struct.class_lookup cls name) as [[g|v]|] eqn:Hcls; try done.
  intros [= ->]. by apply elem_of_iter_fields, class_lookup_elem.
Qed.

Lemma read_back_lookup cls (self : gmap string value) name :
  read_back cls self !! name
  = self !! name ≫= λ v, (λ f, decoded (Fields.kind f) v) <$> field_of cls name.
Proof. unfold read_back. by rewrite map_lookup_imap. Qed.

Lemma read_back_field cls (self : gmap string value) name f v :
  NoDup (cls.*1) → (name, f) ∈ Struct.iter_fields cls → self !! name = Some v →
  read_back cls self !! name = Some (decoded (Fields.kind f) v).
Proof.
  intros Hnd Hin Hv. rewrite read_back_lookup, Hv. simpl.
  by rewrite (field_of_iter_fields _ _ _ Hnd Hin).
Qed.

(** The encoding of a record decodes to [read_back] of the record. *)
Lemma from_bytes_as_bytes_run cls self block :
  NoDup (cls.*1) → encodable cls self = true →
  Struct.as_bytes cls self = Ok block →
  Struct.from_bytes cls block = Ok (read_back cls self).
Proof.
  intros Hnd Henc Hblock.
  pose proof Henc as Hall. rewrite encodable_spec in Hall.
  unfold Struct.as_bytes in Hblock.
  destruct (Struct.encode_fields self (Struct.iter_fields cls))
    as [items|] eqn:Hitems; [|done]. simpl in Hblock.
  destruct (decode_encode_fields self (Struct.iter_fields cls)
              items block [] [] ∅ (NoDup_iter_fields _ Hnd) Hall Hitems Hblock)
    as (kw & Hdec & _ & Hkw).
  simpl in Hdec. rewrite app_nil_r in Hdec.
  destruct (init_fields_run cls kw (Struct.iter_fields cls) ∅)
    as (r & Hinit & Hout & Hr).
  { intros name f Hin. split; [by apply iter_fields_lookup|].
    destruct (Hall name f Hin) as (v & Hv & Hfits).
    exists (decoded (Fields.kind f) v). split; [by eapply Hkw|].
    by apply validate_decoded. }
  unfold Struct.from_bytes. rewrite Hdec. simpl.
  unfold Struct.init. rewrite Hinit. f_equal.
  apply map_eq. intros name.
  destruct (decide (name ∈ (Struct.iter_fields cls).*1)) as [Hin|Hnin].
  - apply list_elem_of_fmap in Hin as ([n f] & -> & Hin). simpl.
    destruct (Hall n f Hin) as (v & Hv & Hfits).
    rewrite (read_back_field _ _ _ _ _ Hnd Hin Hv).
    rewrite Hr by (apply list_elem_of_fmap; by exists (n, f)).
    by eapply Hkw.
  - rewrite Hout by done. rewrite lookup_empty, read_back_lookup.
    destruct (self !! name) as [v|]; [|done]. simpl.
    destruct (field_of cls name) as [f|] eqn:Hf; [|done].
    exfalso. apply Hnin, list_elem_of_fmap. exists (name, f).
    split; [done|]. by apply field_of_Some.
Qed.

(** [from_bytes] undoes [as_bytes], up to the padding of the texts: the
    encoding of a record whose values fit decodes to the same values,
    each text with its padding. *)
Theorem from_bytes_as_bytes (cls : Struct.class) (self : gmap string value)
    (block : list byte) :
  NoDup (cls.*1) → encodable cls self = true →
  Struct.as_bytes cls self = Ok block →
  Struct.from_bytes cls block = Ok (read_back cls self)
  ∧ ∀ name, read_back cls self !! name
            = match field_of cls name, self !! name with
              | Some f, Some v => Some (decoded (Fields.kind f) v)
              | _, _ => None
              end.
Proof.
  intros Hnd Henc Hblock. split; [by apply from_bytes_as_bytes_run|].
  intros name. rewrite read_back_lookup.
  destruct (self !! name) as [v|]; simpl; by destruct (field_of cls name).
Qed.

Lemma from_bytes_as_bytes_witness :
  Struct.from_bytes Person
    [x00; x00; x00; x00; x00; x00; x00; x00; x61; x6c; x65; x78;
     x00; x00; x00; x00; x00; x00; x00; x00; x00; x00; x00; x00; x00; x00;
     x00; x00; x00; x00; x00; x00; x00; x00; x00; x00; x00; x00; x00; x00;
     x00; x00; x00; x20]
  = Ok (read_back Person person_alex)
  ∧ ∀ name, read_back Person person_alex !! name
            = match field_of Person name, person_alex !! name with
              | Some f, Some v => Some (decoded (Fields.kind f) v)
              | _, _ => None
              end.
Proof.
  apply (from_bytes_as_bytes Person person_alex).
  - apply (bool_decide_unpack _). vm_compute. reflexivity.
  - vm_compute. reflexivity.
  - vm_compute. reflexivity.
Defined.

(** *** Writing back what was read *)

Lemma utf8_encode_app s1 s2 b1 b2 :
  utf8_encode s1 = Ok b1 → utf8_encode s2 = Ok b2 →
  utf8_encode (s1 ++ s2) = Ok (b1 ++ b2).
Proof.
  revert b1. induction s1 as [|c s1 IH]; intros b1; simpl.
  - by intros [= <-].
  - destruct (utf8_encode_cp c) as [bc|]; [|done]. simpl.
    destruct (utf8_encode s1) as [b|]; [|done]. simpl.
    intros [= <-] H2. rewrite (IH b) by done. simpl. by rewrite app_assoc.
Qed.

Lemma utf8_encode_zeros k : utf8_encode (replicate k 0%N) = Ok (replicate k x00).
Proof. induction k as [|k IH]; [done|]. simpl. by rewrite IH. Qed.

Lemma to_bytes_decoded k v :
  fits k v = true →
  fits k (decoded k v) = true
  ∧ Fields.to_bytes k (decoded k v) = Fields.to_bytes k v.
Proof.
  destruct k as [n|n| | | | | | | | | ]; destruct v as [|b|z|s|bs];
    try discriminate; try done.
  simpl. destruct (utf8_encode s) as [e|] eqn:He; [|done].
  intros Hlen%bool_decide_eq_true. unfold padded. simpl.
  rewrite (utf8_encode_app s _ e _ He (utf8_encode_zeros _)). simpl.
  rewrite length_app, length_replicate.
  split; [apply bool_decide_eq_true; lia|].
  replace (n - (length e + (n - length e)))%nat with 0%nat by lia.
  simpl. by rewrite app_nil_r.
Qed.

Lemma encode_fields_ext (self self' : gmap string value) fields :
  (∀ name f, (name, f) ∈ fields →
     ∃ v v', self !! name = Some v ∧ self' !! name = Some v'
             ∧ Fields.to_bytes (Fields.kind f) v'
               = Fields.to_bytes (Fields.kind f) v) →
  Struct.encode_fields self' fields = Struct.encode_fields self fields.
Proof.
  induction fields as [|[name f] fields IH]; intros Hall; simpl; [done|].
  destruct (Hall name f) as (v & v' & Hv & Hv' & Hb); [left|].
  rewrite Hv, Hv'. cbn [mbind result_bind]. rewrite Hb.
  rewrite IH; [done|]. intros n g Hg. apply Hall. by right.
Qed.

Lemma read_back_encodable cls self :
  NoDup (cls.*1) → encodable cls self = true →
  encodable cls (read_back cls self) = true
  ∧ Struct.as_bytes cls (read_back cls self) = Struct.as_bytes cls self.
Proof.
  intros Hnd Henc. pose proof Henc as Hall. rewrite encodable_spec in Hall.
  split.
  - apply encodable_spec. intros name f Hin.
    destruct (Hall name f Hin) as (v & Hv & Hfits).
    exists (decoded (Fields.kind f) v).
    split; [by apply read_back_field|]. by apply to_bytes_decoded.
  - unfold Struct.as_bytes. rewrite (encode_fields_ext self); [done|].
    intros name f Hin. destruct (Hall name f Hin) as (v & Hv & Hfits).
    exists v, (decoded (Fields.kind f) v).
    split_and!; [done|by apply read_back_field|by apply to_bytes_decoded].
Qed.

(** Writing over a range the bytes it already holds. *)
Lemma write_at_same data p bs :
  (p + length bs ≤ length data)%nat →
  take (length bs) (drop p data) = bs →
  Table.write_at data p bs = data.
Proof.
  intros Hlen Hbs. rewrite write_at_inside by lia.
  rewrite <- Hbs at 1. rewrite <- drop_drop.
  rewrite (take_drop (length bs) (drop p data)). apply take_drop.
Qed.

(** [get] on a block that holds the encoding of a record. *)
Lemma get_run_read_back cls self t z block :
  NoDup (cls.*1) → encodable cls self = true →
  Table.block_size t ≠ 0 → 0 ≤ Table.block_size t →
  1 ≤ z ≤ n_blocks t →
  Struct.as_bytes cls self = Ok block →
  block_at t (z - 1) = block →
  ∃ t', Struct.get cls (VInt z) t = (Ok (read_back cls self), t')
        ∧ same_store t t'.
Proof.
  intros Hnd Henc Hbs Hbs' Hz Hblock Hat.
  destruct (get_run t (z - 1)) as (t' & Hget & Hsame); [nia|lia|].
  exists t'. split; [|done].
  unfold Struct.get. rewrite run_bind. unfold Struct.get_index_by_id. simpl.
  rewrite (proj2 (Z.ltb_lt 0 z)) by lia.
  rewrite run_bind, size_run by done.
  rewrite (proj2 (Z.leb_le z (n_blocks t))) by lia. simpl.
  rewrite run_bind, Hget, Hat. unfold lift.
  by rewrite (from_bytes_as_bytes_run cls self block).
Qed.

(** [update] of a record whose values fit and whose [id] is known. *)
Lemma update_run_encodable cls self t v z block :
  encodable cls self = true →
  self !! "id"%string = Some v → as_int v = Some z →
  1 ≤ z ≤ n_blocks t → Table.block_size t ≠ 0 → 0 ≤ Table.block_size t →
  Struct.as_bytes cls self = Ok block →
  ∃ t', Struct.update cls (self, t) = (Ok tt, (self, t'))
        ∧ Table.block_size t' = Table.block_size t
        ∧ data_of t' = Table.write_at (data_of t)
                         (Z.to_nat ((z - 1) * Table.block_size t)) block.
Proof.
  intros Henc Hv Hz Hrange Hbs Hbs' Hblock.
  assert (Hwp : wp (Struct.update cls)
                  (λ _ s, s.1 = self
                          ∧ Table.block_size s.2 = Table.block_size t
                          ∧ data_of s.2
                            = Table.write_at (data_of t)
                                (Z.to_nat ((z - 1) * Table.block_size t)) block)
                  (λ _ _, False) (self, t)).
  { unfold Struct.update.
    apply wp_bind, wp_on_self, (wp_getattr_some _ _ _ _ _ v); [done|]. cbv beta.
    apply wp_bind, wp_on_table. unfold wp. unfold Struct.get_index_by_id.
    rewrite Hz. rewrite (proj2 (Z.ltb_lt 0 z)) by lia.
    rewrite run_bind, size_run by done.
    rewrite (proj2 (Z.leb_le z (n_blocks t))) by lia. simpl.
    apply wp_bind, wp_on_self, wp_as_bytes. rewrite Hblock. cbv beta.
    apply wp_on_table, wp_update; [nia|]. intros t' Hb' Hd'. by simpl. }
  unfold wp in Hwp.
  destruct (Struct.update cls (self, t)) as [[[]|e] [self' t']]; [|done].
  simpl in Hwp. destruct Hwp as (-> & Hb & Hd). by exists t'.
Qed.



(** [insert] followed by [get] of the [id] it returned: [get] succeeds
    and returns the record as it was inserted, with its new [id], each
    text with its padding. *)
Theorem insert_then_get (cls : Struct.class) (self : gmap string value)
    (t : Table.table) (f : Fields.field) (v : value) :
  NoDup (cls.*1) →
  Struct.class_lookup cls "id" = Some (Struct.AField f) →
  bound_to cls t →
  encodable cls self = true →
  self !! "id"%string = Some v → py_eq v (VInt 0) = true →
  fits (Fields.kind f) (VInt (n_blocks t + 1)) = true →
  ∃ id self' t' t'',
    Struct.insert cls (self, t) = (Ok (VInt id), (self', t'))
    ∧ self' = <["id"%string := VInt id]> self
    ∧ Struct.get cls (VInt id) t' = (Ok (read_back cls self'), t'')
    ∧ same_store t' t''.
Proof.
  intros Hnd Hid Hbound Henc Hv Hzero Hfits.
  destruct (insert_run_encodable cls self t f v)
    as (Hbs & Henc' & t' & block & Hrun & Hblock & Hlen & Hb & Hd); [done..|].
  destruct (n_blocks_bounds t Hbs) as [Hlo Hhi].
  pose proof (n_blocks_nonneg t Hbs) as Hn.
  unfold bound_to in Hbound.
  assert (Hn' : n_blocks t' = n_blocks t + 1).
  { apply n_blocks_unique; [lia|]. rewrite Hb, Hd, length_app, length_take. lia. }
  destruct (get_run_read_back cls (<["id"%string := VInt (n_blocks t + 1)]> self)
              t' (n_blocks t + 1) block) as (t'' & Hget & Hsame);
    [done|done|lia|lia|lia|done| |].
  { unfold block_at. rewrite Hb, Hd.
    replace (n_blocks t + 1 - 1) with (n_blocks t) by lia.
    rewrite drop_app_length' by (rewrite length_take; lia).
    apply take_ge. lia. }
  by exists (n_blocks t + 1), (<["id"%string := VInt (n_blocks t + 1)]> self), t', t''.
Qed.

Lemma insert_then_get_witness :
  ∃ id self' t' t'',
    Struct.insert Person (person_alex, Struct.bind Person [])
    = (Ok (VInt id), (self', t'))
    ∧ self' = <["id"%string := VInt id]> person_alex
    ∧ Struct.get Person (VInt id) t' = (Ok (read_back Person self'), t'')
    ∧ same_store t' t''.
Proof.
  apply (insert_then_get Person person_alex (Struct.bind Person [])
           (Fields.Field Fields.Uint64 (VInt 0)) (VInt 0)).
  - apply (bool_decide_unpack _). vm_compute. reflexivity.
  - reflexivity.
  - reflexivity.
  - vm_compute. reflexivity.
  - vm_compute. reflexivity.
  - reflexivity.
  - vm_compute. reflexivity.
Defined.

(** [update] followed by [get] of the same [id], as in the test of
    [update]: [get] returns the values of the record as they were
    written, each text with its padding, whatever the block held
    before. *)
Theorem update_then_get (cls : Struct.class) (self : gmap string value)
    (t : Table.table) (z : Z) :
  NoDup (cls.*1) →
  encodable cls self = true →
  bound_to cls t → Table.block_size t ≠ 0 →
  self !! "id"%string = Some (VInt z) →
  1 ≤ z ≤ n_blocks t →
  ∃ t1 t2,
    Struct.update cls (self, t) = (Ok tt, (self, t1))
    ∧ Struct.get cls (VInt z) t1 = (Ok (read_back cls self), t2)
    ∧ same_store t1 t2.
Proof.
  intros Hnd Henc Hbound Hbs Hself Hz.
  unfold bound_to in Hbound.
  destruct (as_bytes_encodable cls self Henc) as (block & Hblock & Hlen).
  destruct (update_run_encodable cls self t (VInt z) z block)
    as (t1 & Hupd & Hb1 & Hd1); [done|done|done|done|done|lia|done|].
  assert (Hpos : 0 < Table.block_size t) by lia.
  destruct (n_blocks_bounds t Hpos) as [Hlo _].
  assert (Hlen1 : length (data_of t1) = length (data_of t)).
  { rewrite Hd1, length_write_at. nia. }
  assert (Hn1 : n_blocks t1 = n_blocks t).
  { unfold n_blocks. by rewrite Hb1, Hlen1. }
  destruct (get_run_read_back cls self t1 z block) as (t2 & Hget & Hsame);
    [done|done|congruence|lia|lia|done| |].
  { unfold block_at. rewrite Hb1, Hd1.
    replace (Z.to_nat (Table.block_size t)) with (length block) by lia.
    apply write_at_read. nia. }
  by exists t1, t2.
Qed.

Lemma update_then_get_witness :
  ∃ t1 t2,
    Struct.update Tag
      ({[ "id"%string := VInt 1; "name"%string := VStr [0x62%N] ]}, two_tags)
    = (Ok tt, ({[ "id"%string := VInt 1; "name"%string := VStr [0x62%N] ]}, t1))
    ∧ Struct.get Tag (VInt 1) t1
      = (Ok (read_back Tag
               {[ "id"%string := VInt 1; "name"%string := VStr [0x62%N] ]}), t2)
    ∧ same_store t1 t2.
Proof.
  apply (update_then_get Tag
           {[ "id"%string := VInt 1; "name"%string := VStr [0x62%N] ]}
           two_tags 1).
  - apply (bool_decide_unpack _). vm_compute. reflexivity.
  - vm_compute. reflexivity.
  - reflexivity.
  - vm_compute. discriminate.
  - vm_compute. reflexivity.
  - vm_compute. split; discriminate.
Defined.

(** ** All the records *)

Lemma decode_next_state {G G'} cls (wrap : G → G') done next g g1 g2 t :
  Struct.decode_next cls wrap done next g (g1, t)
  = Struct.decode_next cls wrap done next g (g2, t).
Proof. unfold Struct.decode_next. by rewrite !run_bind. Qed.

(** A generator that decodes what another one yields ends with the
    decoded list, when every block decodes. *)
Lemma drain_decode {G G'} cls (wrap : G → G') (done : G')
    (next : M (G * Table.table) (option (list byte)))
    (next' : M (G' * Table.table) (option (gmap string value))) :
  (∀ g t, next' (wrap g, t)
          = closing done (Struct.decode_next cls wrap done next g) (wrap g, t)) →
  ∀ fuel g t blocks g1 t1 recs,
    drain next fuel (g, t) = (Ok (Some blocks), (g1, t1)) →
    Forall2 (λ b r, Struct.from_bytes cls b = Ok r) blocks recs →
    drain next' fuel (wrap g, t) = (Ok (Some recs), (done, t1)).
Proof.
  intros Hnext. induction fuel as [|fuel IH]; intros g t blocks g1 t1 recs; [done|].
  simpl. rewrite !run_bind, Hnext.
  unfold closing, Struct.decode_next. rewrite run_bind. unfold delegate. simpl.
  destruct (next (g, t)) as [[[a|]|e] [g2 t2]]; [| |done].
  - rewrite !run_bind.
    destruct (drain next fuel (g2, t2)) as [[[l'|]|e] [g3 t3]] eqn:Hd; try done.
    intros [= <- <- <-] Hall.
    apply Forall2_cons_inv_l in Hall as (r & recs' & Hr & Hall & ->).
    unfold lift. rewrite Hr. simpl.
    by rewrite run_bind, (IH _ _ _ _ _ _ Hd Hall).
  - intros [= <- <- <-] Hall. by apply Forall2_nil_inv_l in Hall as ->.
Qed.

Lemma next_all_in cls g t :
  Struct.next_all cls (Struct.AllIn g, t)
  = closing Struct.AllDone
      (Struct.decode_next cls Struct.AllIn Struct.AllDone Table.next_iter g)
      (Struct.AllIn g, t).
Proof.
  unfold Struct.next_all, closing. by rewrite run_bind, on_fst_gets.
Qed.

Lemma next_all_new cls t :
  Struct.next_all cls (Struct.AllNew, t)
  = Struct.next_all cls (Struct.AllIn Table.iter, t).
Proof.
  unfold Struct.next_all, closing. rewrite !run_bind, !on_fst_gets. cbv beta iota.
  by rewrite (decode_next_state _ _ _ _ _ Struct.AllNew (Struct.AllIn Table.iter)).
Qed.

Lemma drain_all cls t fuel recs :
  0 < Table.block_size t → (Z.to_nat (n_blocks t) < fuel)%nat →
  Forall2 (λ b r, Struct.from_bytes cls b = Ok r) (blocks_of t) recs →
  ∃ t', drain (Struct.next_all cls) fuel (Struct.AllNew, t)
        = (Ok (Some recs), (Struct.AllDone, t'))
        ∧ same_store t t'.
Proof.
  intros Hbs Hfuel Hall.
  destruct (drain_iter t fuel Hbs Hfuel) as (t' & Hdrain & Hsame).
  exists t'. split; [|done].
  pose proof (drain_decode cls Struct.AllIn Struct.AllDone Table.next_iter
                (Struct.next_all cls) (next_all_in cls)
                fuel _ _ _ _ _ _ Hdrain Hall) as Hd.
  destruct fuel as [|fuel]; [done|].
  simpl drain in *. rewrite run_bind in *. by rewrite next_all_new.
Qed.

(** [list(cls.all())]: when every block of the file decodes, the decoded
    records of all the whole blocks, in order; the file is left as it
    was. *)
Theorem all_yields_records (cls : Struct.class) (t : Table.table) (fuel : nat)
    (recs : list (gmap string value)) :
  0 < Table.block_size t → (Z.to_nat (n_blocks t) < fuel)%nat →
  Forall2 (λ b r, Struct.from_bytes cls b = Ok r) (blocks_of t) recs →
  ∃ t', drain (Struct.next_all cls) fuel (Struct.all, t)
        = (Ok (Some recs), (Struct.AllDone, t'))
        ∧ same_store t t'.
Proof. apply drain_all. Qed.

Lemma all_yields_records_witness :
  ∃ t', drain (Struct.next_all Tag) 3 (Struct.all, two_tags)
        = (Ok (Some [ {[ "id"%string := VInt 1; "name"%string := VStr [0%N] ]};
                      {[ "id"%string := VInt 2; "name"%string := VStr [0x61%N] ]} ]),
           (Struct.AllDone, t'))
        ∧ same_store two_tags t'.
Proof.
  apply (all_yields_records Tag two_tags 3).
  - vm_compute. reflexivity.
  - vm_compute. lia.
  - apply Forall2_cons. split; [vm_compute; reflexivity|].
    apply Forall2_cons. split; [vm_compute; reflexivity|]. apply Forall2_nil_2.
Defined.

(** The same generator, when a block does not decode. *)
Lemma drain_decode_raise {G G'} cls (wrap : G → G') (done : G')
    (next : M (G * Table.table) (option (list byte)))
    (next' : M (G' * Table.table) (option (gmap string value))) e :
  (∀ g t, next' (wrap g, t)
          = closing done (Struct.decode_next cls wrap done next g) (wrap g, t)) →
  ∀ fuel g t pre b rest g1 t1 recs,
    drain next fuel (g, t) = (Ok (Some (pre ++ b :: rest)), (g1, t1)) →
    Forall2 (λ b r, Struct.from_bytes cls b = Ok r) pre recs →
    Struct.from_bytes cls b = Raise e →
    ∃ t2, drain next' fuel (wrap g, t) = (Raise e, (done, t2)).
Proof.
  intros Hnext.
  induction fuel as [|fuel IH]; intros g t pre b rest g1 t1 recs; [done|].
  simpl. rewrite !run_bind, Hnext.
  unfold closing, Struct.decode_next. rewrite run_bind. unfold delegate. simpl.
  destruct (next (g, t)) as [[[a|]|e'] [g2 t2]]; [| |done].
  - rewrite !run_bind.
    destruct (drain next fuel (g2, t2)) as [[[l'|]|e'] [g3 t3]] eqn:Hd; try done.
    intros [= Hl <- <-] Hall Hbad. unfold lift.
    destruct pre as [|p pre]; simplify_eq/=.
    + rewrite Hbad. simpl. by exists t2.
    + apply Forall2_cons_inv_l in Hall as (r & recs' & Hr & Hall & ->).
      rewrite Hr. simpl. rewrite run_bind.
      destruct (IH _ _ _ _ _ _ _ _ Hd Hall Hbad) as (t4 & ->). by exists t4.
  - intros [= Hl]. by destruct pre.
Qed.

(** [list(cls.all())] when a block does not decode: the error of the
    first such block is raised, whatever follows it in the file, and
    the generator is finished. *)
Theorem all_raises_at_bad_block (cls : Struct.class) (t : Table.table)
    (fuel : nat) (pre rest : list (list byte)) (b : list byte)
    (recs : list (gmap string value)) (e : error) :
  0 < Table.block_size t → (Z.to_nat (n_blocks t) < fuel)%nat →
  blocks_of t = pre ++ b :: rest →
  Forall2 (λ b r, Struct.from_bytes cls b = Ok r) pre recs →
  Struct.from_bytes cls b = Raise e →
  ∃ t', drain (Struct.next_all cls) fuel (Struct.all, t)
        = (Raise e, (Struct.AllDone, t')).
Proof.
  intros Hbs Hfuel Hblocks Hall Hbad.
  destruct (drain_iter t fuel Hbs Hfuel) as (t1 & Hdrain & Hsame).
  fold (blocks_of t) in Hdrain. rewrite Hblocks in Hdrain.
  destruct (drain_decode_raise cls Struct.AllIn Struct.AllDone Table.next_iter
              (Struct.next_all cls) e (next_all_in cls)
              fuel _ _ _ _ _ _ _ _ Hdrain Hall Hbad) as (t' & Hd).
  exists t'. unfold Struct.all.
  destruct fuel as [|fuel]; [done|].
  simpl drain in *. rewrite run_bind in *. by rewrite next_all_new.
Qed.

Lemma all_raises_at_bad_block_witness :
  ∃ t', drain (Struct.next_all Tag) 3
          (Struct.all,
           Struct.bind Tag [x00; x00; x00; x00; x00; x00; x00; x01; x61;
                            x00; x00; x00; x00; x00; x00; x00; x02; xff])
        = (Raise UnicodeDecodeError, (Struct.AllDone, t')).
Proof.
  apply (all_raises_at_bad_block Tag
           (Struct.bind Tag [x00; x00; x00; x00; x00; x00; x00; x01; x61;
                             x00; x00; x00; x00; x00; x00; x00; x02; xff])
           3 [[x00; x00; x00; x00; x00; x00; x00; x01; x61]] []
           [x00; x00; x00; x00; x00; x00; x00; x02; xff]
           [ {[ "id"%string := VInt 1; "name"%string := VStr [0x61%N] ]} ]).
  - vm_compute. reflexivity.
  - vm_compute. lia.
  - vm_compute. reflexivity.
  - apply Forall2_cons. split; [vm_compute; reflexivity|]. apply Forall2_nil_2.
  - vm_compute. reflexivity.
Defined.

(** *** Inserting many records *)

Lemma fits_int_le k lo hi :
  fits k (VInt hi) = true → 0 ≤ lo ≤ hi → fits k (VInt lo) = true.
Proof.
  destruct k; simpl; try done; intros Hhi Hlo;
    apply andb_true_iff in Hhi as [H1 H2]; apply andb_true_iff;
    split; [apply Z.leb_le|apply Z.ltb_lt| apply Z.leb_le|apply Z.ltb_lt
           |apply Z.leb_le|apply Z.ltb_lt| apply Z.leb_le|apply Z.ltb_lt
           |apply Z.leb_le|apply Z.ltb_lt| apply Z.leb_le|apply Z.ltb_lt
           |apply Z.leb_le|apply Z.ltb_lt| apply Z.leb_le|apply Z.ltb_lt];
    try apply Z.leb_le in H1; try apply Z.ltb_lt in H2; lia.
Qed.

Lemma int_field_positive cls name f t z :
  Struct.class_lookup cls name = Some (Struct.AField f) →
  bound_to cls t → fits (Fields.kind f) (VInt z) = true →
  0 < Table.block_size t.
Proof.
  intros Hid Hbound Hfits. unfold bound_to in Hbound. rewrite Hbound.
  pose proof (class_lookup_elem _ _ _ Hid) as Hin.
  apply elem_of_iter_fields in Hin.
  pose proof (block_size_field cls _ _ Hin) as Hle.
  assert (0 < Fields.sizeof (Fields.kind f))%nat; [|lia].
  destruct f as [[] ?]; simpl in *; try lia; done.
Qed.

(** The blocks of a store after a block was appended. *)
Lemma blocks_of_append t t' block :
  0 < Table.block_size t →
  Table.block_size t' = Table.block_size t →
  Z.of_nat (length block) = Table.block_size t →
  data_of t'
  = take (Z.to_nat (n_blocks t * Table.block_size t)) (data_of t) ++ block →
  n_blocks t' = n_blocks t + 1 ∧ blocks_of t' = blocks_of t ++ [block].
Proof.
  intros Hbs Hb Hlen Hd.
  destruct (n_blocks_bounds t Hbs) as [Hlo Hhi].
  pose proof (n_blocks_nonneg t Hbs) as Hn.
  assert (Hn' : n_blocks t' = n_blocks t + 1).
  { apply n_blocks_unique; [lia|]. rewrite Hb, Hd, length_app, length_take. lia. }
  split; [done|]. unfold blocks_of. rewrite Hn'.
  rewrite seqZ_app by lia. rewrite fmap_app. f_equal.
  - apply list_fmap_ext. intros _ i Hi%list_elem_of_lookup_2%elem_of_seqZ.
    unfold block_at. rewrite Hb, Hd.
    rewrite drop_app_le by (rewrite length_take; nia).
    rewrite take_app_le by (rewrite length_drop, length_take; nia).
    rewrite skipn_firstn_comm, take_take. f_equal. nia.
  - change (seqZ (0 + n_blocks t) 1) with [0 + n_blocks t]. simpl.
    unfold block_at. rewrite Hb, Hd.
    rewrite drop_app_length' by (rewrite length_take; lia).
    f_equal. apply take_ge. lia.
Qed.

Lemma insert_record_run cls self t r self' t' :
  Struct.insert cls (self, t) = (r, (self', t')) →
  insert_record cls self t = (r, t').
Proof. unfold insert_record. by intros ->. Qed.

Lemma insert_each_run cls f :
  NoDup (cls.*1) →
  Struct.class_lookup cls "id" = Some (Struct.AField f) →
  ∀ records t recs,
    bound_to cls t →
    Forall (λ self, encodable cls self = true
                    ∧ ∃ v, self !! "id"%string = Some v
                           ∧ py_eq v (VInt 0) = true) records →
    fits (Fields.kind f) (VInt (n_blocks t + Z.of_nat (length records))) = true →
    Forall2 (λ b r, Struct.from_bytes cls b = Ok r) (blocks_of t) recs →
    ∃ t', insert_each cls records t
          = (Ok (VInt <$> seqZ (n_blocks t + 1) (Z.of_nat (length records))), t')
          ∧ bound_to cls t'
          ∧ n_blocks t' = n_blocks t + Z.of_nat (length records)
          ∧ Forall2 (λ b r, Struct.from_bytes cls b = Ok r) (blocks_of t')
              (recs ++ (read_back cls <$> numbered_from (n_blocks t) records)).
Proof.
  intros Hnd Hid records.
  induction records as [|self records IH]; intros t recs Hbound Hall Hfits Hrecs.
  - exists t. simpl. rewrite Z.add_0_r, app_nil_r. done.
  - apply Forall_cons in Hall as [(Henc & v & Hv & Hzero) Hall].
    pose proof (n_blocks_nonneg t (int_field_positive _ _ _ _ _ Hid Hbound Hfits))
      as Hbs0.
    destruct (insert_run_encodable cls self t f v)
      as (Hbs & Henc' & t1 & block & Hrun & Hblock & Hlen & Hb & Hd); [done..| |].
    { apply (fits_int_le _ _ _ Hfits). simpl length. lia. }
    unfold bound_to in Hbound.
    destruct (blocks_of_append t t1 block) as [Hn1 Hblocks]; [done|done|lia|done|].
    destruct (IH t1 (recs ++ [read_back cls
                                (<["id"%string := VInt (n_blocks t + 1)]> self)]))
      as (t' & Heach & Hbound' & Hn' & Hrecs'); [unfold bound_to; lia|done| | |].
    { rewrite Hn1. simpl length in Hfits.
      by replace (n_blocks t + 1 + Z.of_nat (length records))
        with (n_blocks t + Z.of_nat (S (length records))) by lia. }
    { rewrite Hblocks. apply Forall2_app; [done|].
      apply Forall2_cons. split; [|done]. by apply from_bytes_as_bytes_run. }
    exists t'. split_and!; [|done|simpl length; lia|].
    + cbn [insert_each]. rewrite run_bind, (insert_record_run _ _ _ _ _ _ Hrun).
      rewrite run_bind, Heach. unfold mret, M_ret. do 2 f_equal.
      simpl length.
      replace (Z.of_nat (S (length records)))
        with (Z.succ (Z.of_nat (length records))) by lia.
      rewrite (seqZ_cons (n_blocks t + 1)) by lia. rewrite fmap_cons.
      rewrite Hn1. do 3 f_equal; lia.
    + rewrite <- app_assoc in Hrecs'. simpl in Hrecs'.
      unfold numbered_from in *. simpl. rewrite Z.add_0_r.
      erewrite (imap_ext _ _ records) in Hrecs'; [exact Hrecs'|].
      intros i x _. simpl. rewrite Hn1. do 2 f_equal. lia.
Qed.

(** The loop of the tests that inserts records one after the other,
    followed by [list(cls.all())]: the ids returned are the next block
    numbers in order, [size()] has grown by the number of records, and
    [all()] yields the records that the store held before, followed by
    the inserted ones, each with its [id] and each text with its
    padding. *)
Theorem insert_each_then_all (cls : Struct.class) (f : Fields.field)
    (records recs : list (gmap string value)) (t : Table.table) (fuel : nat) :
  NoDup (cls.*1) →
  Struct.class_lookup cls "id" = Some (Struct.AField f) →
  bound_to cls t →
  Forall (λ self, encodable cls self = true
                  ∧ ∃ v, self !! "id"%string = Some v
                         ∧ py_eq v (VInt 0) = true) records →
  fits (Fields.kind f) (VInt (n_blocks t + Z.of_nat (length records))) = true →
  Forall2 (λ b r, Struct.from_bytes cls b = Ok r) (blocks_of t) recs →
  (Z.to_nat (n_blocks t) + length records < fuel)%nat →
  ∃ t' t'',
    insert_each cls records t
    = (Ok (VInt <$> seqZ (n_blocks t + 1) (Z.of_nat (length records))), t')
    ∧ Table.size t' = (Ok (n_blocks t + Z.of_nat (length records)), t')
    ∧ drain (Struct.next_all cls) fuel (Struct.all, t')
      = (Ok (Some (recs ++ (read_back cls <$> numbered_from (n_blocks t) records))),
         (Struct.AllDone, t'')).
Proof.
  intros Hnd Hid Hbound Hall Hfits Hrecs Hfuel.
  destruct (insert_each_run cls f Hnd Hid records t recs)
    as (t' & Heach & Hbound' & Hn' & Hrecs'); [done..|].
  pose proof (int_field_positive _ _ _ _ _ Hid Hbound' Hfits) as Hbs.
  destruct (drain_all cls t' fuel _ Hbs ltac:(lia) Hrecs') as (t'' & Hdrain & _).
  exists t', t''. split_and!; [done| |done].
  rewrite size_run by lia. by rewrite Hn'.
Qed.

Lemma insert_each_then_all_witness :
  ∃ t' t'',
    insert_each Person [person_alex; person_alex] (Struct.bind Person [])
    = (Ok (VInt <$> seqZ (n_blocks (Struct.bind Person []) + 1)
                      (Z.of_nat (length [person_alex; person_alex]))), t')
    ∧ Table.size t'
      = (Ok (n_blocks (Struct.bind Person [])
             + Z.of_nat (length [person_alex; person_alex])), t')
    ∧ drain (Struct.next_all Person) 3 (Struct.all, t')
      = (Ok (Some ([] ++ (read_back Person
                            <$> numbered_from (n_blocks (Struct.bind Person []))
                                  [person_alex; person_alex]))),
         (Struct.AllDone, t'')).
Proof.
  apply (insert_each_then_all Person (Fields.Field Fields.Uint64 (VInt 0))
           [person_alex; person_alex] [] (Struct.bind Person []) 3).
  - apply (bool_decide_unpack _). vm_compute. reflexivity.
  - reflexivity.
  - reflexivity.
  - repeat constructor; try (vm_compute; reflexivity).
    all: exists (VInt 0); split; vm_compute; reflexivity.
  - vm_compute. reflexivity.
  - apply Forall2_nil_2.
  - vm_compute. lia.
Defined.

(** ** The records of a range of keys *)

Section find_sorted_partial_facts.
Context {K : Type} `{Comparable K}.
Variables (value : K) (get_value : list byte → result K) (key_of : list byte → K).

(** With a key function that fails on no block of the store, the search
    runs as the one of [find_sorted]. *)
Lemma find_loop_partial_run (t0 : Table.table) :
  0 < Table.block_size t0 →
  (∀ i, 0 ≤ i < n_blocks t0 → get_value (block_at t0 i) = Ok (key_of (block_at t0 i))) →
  ∀ fuel idx size t,
    same_store t0 t → 0 ≤ idx → 0 ≤ size → idx + size ≤ n_blocks t0 →
    Table.find_loop_partial fuel value get_value idx size t
    = Table.find_loop fuel value key_of idx size t.
Proof.
  intros Hbs Hkey fuel.
  induction fuel as [|fuel IH]; intros idx size t Hsame Hidx Hsize Hn; [done|].
  cbn [Table.find_loop_partial Table.find_loop].
  destruct (Z.ltb_spec 0 size) as [Hpos|Hzero]; [|done].
  destruct (get_run t (idx + size / 2)) as (t1 & Hget & Hsame1).
  { destruct Hsame as [-> _]. apply Z.mul_nonneg_nonneg; lia_div. }
  { destruct Hsame as [-> _]. lia. }
  rewrite !run_bind, Hget. cbv beta iota.
  rewrite (same_store_block_at t0 t) by done.
  rewrite run_bind. unfold lift. rewrite Hkey by lia_div. cbv beta iota.
  pose proof (same_store_trans _ _ _ Hsame Hsame1) as Hsame01.
  destruct (gt value (key_of (block_at t0 (idx + size / 2))));
    apply IH; try done; lia_div.
Qed.

Lemma find_sorted_partial_run (t : Table.table) :
  0 < Table.block_size t →
  (∀ i, 0 ≤ i < n_blocks t → get_value (block_at t i) = Ok (key_of (block_at t i))) →
  Table.find_sorted_partial value get_value t = Table.find_sorted value key_of t.
Proof.
  intros Hbs Hkey. unfold Table.find_sorted_partial, Table.find_sorted.
  rewrite !run_bind, size_run by lia.
  pose proof (n_blocks_nonneg t Hbs) as Hn.
  apply (find_loop_partial_run t); [done|done|apply same_store_refl|lia..].
Qed.

End find_sorted_partial_facts.

(** The search on a sorted store ends at the lower bound. *)
Lemma find_sorted_run_sorted {K : Type} `{ComparableLaws K}
    (value : K) (get_value : list byte → K) (t : Table.table) :
  0 < Table.block_size t →
  sorted_by get_value t →
  ∃ r t', Table.find_sorted value get_value t = (Ok (Some r), t')
          ∧ same_store t t'
          ∧ lower_bound value get_value t r.
Proof.
  intros Hbs Hsorted.
  set (key := λ i, get_value (block_at t i)).
  destruct (find_sorted_invariant value get_value
              (λ idx size,
                 (∀ i, 0 ≤ i < idx → gt value (key i) = true)
                 ∧ (∀ i, idx + size ≤ i < n_blocks t → gt value (key i) = false))
              t) as (r & t' & Hrun & Hs & Hr & Hlo & Hhi); [done| | |].
  - intros idx size [Hlo Hhi] Hidx Hsize Hn.
    fold (key (idx + size / 2)).
    destruct (gt value (key (idx + size / 2))) eqn:Hcmp.
    + split.
      * intros i Hi. apply (gt_ge_trans _ (key (idx + size / 2))); [done|].
        apply Hsorted; lia_div.
      * intros i Hi. apply Hhi. lia_div.
    + split; [done|]. intros i Hi.
      destruct (gt value (key i)) eqn:Hcmp'; [|done].
      rewrite <- Hcmp. symmetry. apply (gt_ge_trans _ (key i)); [done|].
      apply Hsorted; lia_div.
  - split; intros i Hi; lia.
  - exists r, t'. split_and!; [done..|].
    unfold lower_bound. split_and!; [lia|lia| |].
    + intros i Hi. rewrite ge_not_gt. fold (key i). by rewrite Hlo.
    + intros Hlt. rewrite ge_not_gt. fold (key r). rewrite Hhi; [done|lia].
Qed.

Lemma sorted_by_same_store {K : Type} `{Comparable K}
    (get_value : list byte → K) t t' :
  same_store t t' → sorted_by get_value t → sorted_by get_value t'.
Proof.
  intros Hsame Hsorted i j Hi Hij Hj.
  rewrite !(same_store_block_at t t') by done.
  apply Hsorted; try done. by rewrite <- (same_store_n_blocks t t').
Qed.

Lemma lower_bound_same_store {K : Type} `{Comparable K}
    (value : K) (get_value : list byte → K) t t' r :
  same_store t t' → lower_bound value get_value t' r →
  lower_bound value get_value t r.
Proof.
  intros Hsame (Hr & Hlo & Hhi). unfold lower_bound.
  rewrite (same_store_n_blocks t t') in * by done.
  split; [done|split].
  - intros i Hi. rewrite <- (same_store_block_at t t') by done. by apply Hlo.
  - intros Hlt. rewrite <- (same_store_block_at t t') by done. by apply Hhi.
Qed.

Lemma Forall2_exists {A B} (P : A → B → Prop) (l : list A) :
  Forall (λ a, ∃ b, P a b) l → ∃ k, Forall2 P l k.
Proof.
  induction 1 as [|a l [b Hb] _ [k Hk]]; [by exists []|].
  exists (b :: k). by apply Forall2_cons.
Qed.

Section struct_iter_between.
Context {K : Type} `{ComparableLaws K}.
Variables (cls : Struct.class) (sorted_value_from sorted_value_to : K)
  (get_sorted_value : gmap string value → result K).

Lemma next_iter_between_in g t :
  Struct.next_iter_between cls sorted_value_from sorted_value_to get_sorted_value
    (Struct.SortedIn g, t)
  = closing Struct.SortedDone
      (Struct.decode_next cls Struct.SortedIn Struct.SortedDone Table.next_between g)
      (Struct.SortedIn g, t).
Proof.
  unfold Struct.next_iter_between, closing. by rewrite run_bind, on_fst_gets.
Qed.

Lemma next_iter_between_new t t1 t2 idx_from idx_to :
  Table.find_sorted_partial sorted_value_from
    (λ block, Struct.from_bytes cls block ≫= get_sorted_value) t
  = (Ok (Some idx_from), t1) →
  Table.find_sorted_partial sorted_value_to
    (λ block, Struct.from_bytes cls block ≫= get_sorted_value) t1
  = (Ok (Some idx_to), t2) →
  Struct.next_iter_between cls sorted_value_from sorted_value_to get_sorted_value
    (Struct.SortedNew, t)
  = Struct.next_iter_between cls sorted_value_from sorted_value_to get_sorted_value
      (Struct.SortedIn (Table.iter_between idx_from idx_to), t2).
Proof.
  intros Hfrom Hto. rewrite next_iter_between_in.
  unfold Struct.next_iter_between, closing.
  rewrite run_bind, on_fst_gets. cbv beta iota.
  rewrite run_bind, (on_snd_run _ _ _ _ _ Hfrom). cbv beta iota.
  rewrite run_bind, (on_snd_run _ _ _ _ _ Hto). cbv beta iota.
  by rewrite (decode_next_state _ _ _ _ _ Struct.SortedNew
                (Struct.SortedIn (Table.iter_between idx_from idx_to))).
Qed.

Lemma drain_struct_iter_between (key_of : list byte → K) (t : Table.table)
    (fuel : nat) :
  0 < Table.block_size t → (Z.to_nat (n_blocks t) < fuel)%nat →
  (∀ i, 0 ≤ i < n_blocks t →
     ∃ r, Struct.from_bytes cls (block_at t i) = Ok r
          ∧ get_sorted_value r = Ok (key_of (block_at t i))) →
  sorted_by key_of t →
  ∃ idx_from idx_to recs t',
    lower_bound sorted_value_from key_of t idx_from
    ∧ lower_bound sorted_value_to key_of t idx_to
    ∧ drain (Struct.next_iter_between cls sorted_value_from sorted_value_to
               get_sorted_value) fuel (Struct.SortedNew, t)
      = (Ok (Some recs), (Struct.SortedDone, t'))
    ∧ Forall2 (λ b r, Struct.from_bytes cls b = Ok r)
        (block_at t <$> seqZ idx_from (idx_to - idx_from)) recs
    ∧ same_store t t'.
Proof.
  intros Hbs Hfuel Hdec Hsorted.
  set (get_value := λ block, Struct.from_bytes cls block ≫= get_sorted_value).
  assert (Hkey : ∀ t1, same_store t t1 → ∀ i, 0 ≤ i < n_blocks t1 →
                   get_value (block_at t1 i) = Ok (key_of (block_at t1 i))).
  { intros t1 Hsame i Hi. rewrite (same_store_n_blocks t t1) in Hi by done.
    rewrite (same_store_block_at t t1) by done.
    destruct (Hdec i Hi) as (r & Hr & Hk). unfold get_value. by rewrite Hr. }
  destruct (find_sorted_run_sorted sorted_value_from key_of t Hbs Hsorted)
    as (lo & t1 & Hfrom & Hsame1 & Hlo).
  rewrite <- (find_sorted_partial_run _ get_value) in Hfrom
    by (try done; apply Hkey, same_store_refl).
  assert (Hbs1 : 0 < Table.block_size t1) by (destruct Hsame1 as [-> _]; lia).
  destruct (find_sorted_run_sorted sorted_value_to key_of t1 Hbs1
              (sorted_by_same_store _ _ _ Hsame1 Hsorted))
    as (hi & t2 & Hto & Hsame2 & Hhi).
  rewrite <- (find_sorted_partial_run _ get_value) in Hto
    by (try done; by apply Hkey).
  pose proof (same_store_trans _ _ _ Hsame1 Hsame2) as Hsame12.
  pose proof (lower_bound_same_store _ _ _ _ _ Hsame1 Hhi) as Hhi'.
  assert (Hbs2 : 0 < Table.block_size t2) by (destruct Hsame12 as [-> _]; lia).
  rewrite <- (same_store_n_blocks t t2) in Hfuel by done.
  destruct (drain_iter_between t2 lo hi fuel) as (t' & Hdrain & Hsame');
    [lia|destruct Hlo; lia| |].
  { destruct Hlo as [Hlo _], Hhi as [Hhi _].
    rewrite <- (same_store_n_blocks t1 t2) in Hhi by done. lia. }
  destruct (Forall2_exists (λ b r, Struct.from_bytes cls b = Ok r)
              (block_at t <$> seqZ lo (hi - lo))) as (recs & Hrecs).
  { apply Forall_fmap, Forall_forall. intros i Hi%elem_of_seqZ. simpl.
    destruct Hlo as [Hlo _], Hhi' as [Hhi' _].
    destruct (Hdec i) as (r & Hr & _); [lia|].
    by exists r. }
  exists lo, hi, recs, t'.
  split_and!; [done|done| |done|by eapply same_store_trans].
  assert (Hblocks : block_at t2 <$> seqZ lo (hi - lo)
                    = block_at t <$> seqZ lo (hi - lo)).
  { apply list_fmap_ext. intros _ i _. by apply same_store_block_at. }
  rewrite Hblocks in Hdrain.
  pose proof (drain_decode cls Struct.SortedIn Struct.SortedDone Table.next_between
                (Struct.next_iter_between cls sorted_value_from sorted_value_to
                   get_sorted_value)
                next_iter_between_in fuel _ _ _ _ _ _ Hdrain Hrecs) as Hd.
  destruct fuel as [|fuel]; [done|].
  simpl drain in *. rewrite run_bind in *.
  by rewrite (next_iter_between_new t t1 t2 lo hi Hfrom Hto).
Qed.

End struct_iter_between.

(** [list(cls.iter_between(from, to, get_sorted_value))] on a store whose
    blocks all decode and whose keys never decrease: the decoded records
    of the blocks from the lower bound of [from] up to, and without, the
    lower bound of [to]; so the records with [from <= key < to], in
    order, and none when [to] is below [from].  The file is left as it
    was. *)
Theorem struct_iter_between_yields {K : Type} `{ComparableLaws K}
    (cls : Struct.class) (sorted_value_from sorted_value_to : K)
    (get_sorted_value : gmap string value → result K)
    (key_of : list byte → K) (t : Table.table) (fuel : nat) :
  0 < Table.block_size t → (Z.to_nat (n_blocks t) < fuel)%nat →
  (∀ i, 0 ≤ i < n_blocks t →
     ∃ r, Struct.from_bytes cls (block_at t i) = Ok r
          ∧ get_sorted_value r = Ok (key_of (block_at t i))) →
  sorted_by key_of t →
  ∃ idx_from idx_to recs t',
    lower_bound sorted_value_from key_of t idx_from
    ∧ lower_bound sorted_value_to key_of t idx_to
    ∧ drain (Struct.next_iter_between cls sorted_value_from sorted_value_to
               get_sorted_value) fuel (Struct.SortedNew, t)
      = (Ok (Some recs), (Struct.SortedDone, t'))
    ∧ Forall2 (λ b r, Struct.from_bytes cls b = Ok r)
        (block_at t <$> seqZ idx_from (idx_to - idx_from)) recs
    ∧ same_store t t'.
Proof. apply drain_struct_iter_between. Qed.

Lemma struct_iter_between_yields_witness :
  ∃ idx_from idx_to recs t',
    lower_bound (2 : Z) (λ block, be_value (take 8 block)) two_tags idx_from
    ∧ lower_bound (3 : Z) (λ block, be_value (take 8 block)) two_tags idx_to
    ∧ drain (Struct.next_iter_between Tag (2 : Z) (3 : Z)
               (λ r, match r !! "id"%string with
                     | Some (VInt z) => Ok z
                     | _ => Raise AttributeError
                     end)) 3 (Struct.SortedNew, two_tags)
      = (Ok (Some recs), (Struct.SortedDone, t'))
    ∧ Forall2 (λ b r, Struct.from_bytes Tag b = Ok r)
        (block_at two_tags <$> seqZ idx_from (idx_to - idx_from)) recs
    ∧ same_store two_tags t'.
Proof.
  apply (struct_iter_between_yields Tag (2 : Z) (3 : Z)
           (λ r, match r !! "id"%string with
                 | Some (VInt z) => Ok z
                 | _ => Raise AttributeError
                 end)
           (λ block, be_value (take 8 block)) two_tags 3).
  - vm_compute. reflexivity.
  - vm_compute. lia.
  - intros i Hi. change (0 ≤ i < 2) in Hi.
    assert (Hc : i = 0 ∨ i = 1) by lia.
    destruct Hc as [-> | ->]; eexists; split; vm_compute; reflexivity.
  - intros i j Hi Hij Hj. change (j < 2) in Hj.
    assert (Hc : (i = 0 ∨ i = 1) ∧ (j = 0 ∨ j = 1)) by lia.
    destruct Hc as [[-> | ->] [-> | ->]]; try lia; vm_compute; reflexivity.
Defined.

Example struct_iter_between_example :
  fst (drain (Struct.next_iter_between Tag (2 : Z) (3 : Z)
                (λ r, match r !! "id"%string with
                      | Some (VInt z) => Ok z
                      | _ => Raise AttributeError
                      end)) 3 (Struct.SortedNew, two_tags))
  = Ok (Some [ {[ "id"%string := VInt 2; "name"%string := VStr [0x61%N] ]} ]).
Proof. vm_compute. reflexivity. Qed.

(** ** Further properties of the fields *)

Lemma pow256_values :
  256 ^ Z.of_nat 1 = 2 ^ 8 ∧ 256 ^ Z.of_nat 2 = 2 ^ 16
  ∧ 256 ^ Z.of_nat 4 = 2 ^ 32 ∧ 256 ^ Z.of_nat 8 = 2 ^ 64.
Proof. split_and!; reflexivity. Qed.

Lemma integer_codec_cases k z :
  integer_codec k = true →
  Fields.validate k (VInt z) = Ok tt
  ∧ is_ok (Fields.to_bytes k (VInt z)) = fits k (VInt z)
  ∧ (fits k (VInt z) = false →
       Fields.to_bytes k (VInt z) = Raise StructPackError).
Proof.
  destruct pow256_values as (H1 & H2 & H4 & H8).
  assert (H1' : 256 ^ Z.of_nat 1 / 2 = 2 ^ 7) by reflexivity.
  assert (H2' : 256 ^ Z.of_nat 2 / 2 = 2 ^ 15) by reflexivity.
  assert (H4' : 256 ^ Z.of_nat 4 / 2 = 2 ^ 31) by reflexivity.
  assert (H8' : 256 ^ Z.of_nat 8 / 2 = 2 ^ 63) by reflexivity.
  destruct k; try discriminate; intros _;
    (split; [reflexivity|]);
    unfold Fields.to_bytes, pack_unsigned, pack_signed, fits, as_int;
    rewrite ?H1', ?H2', ?H4', ?H8', ?H1, ?H2, ?H4, ?H8;
    match goal with
    | |- context [?a && ?b] => destruct (a && b)
    end; (split; [reflexivity|]); intros; try discriminate; reflexivity.
Qed.

(** An integer field checks no range when a value is set: [validate]
    accepts every integer, and it is [struct.pack] that raises, when the
    value is encoded, for the integers outside the range of the
    format. *)
Theorem integer_range_checked_late (k : Fields.codec) (z : Z) :
  integer_codec k = true →
  Fields.validate k (VInt z) = Ok tt
  ∧ is_ok (Fields.to_bytes k (VInt z)) = fits k (VInt z)
  ∧ (fits k (VInt z) = false →
       Fields.to_bytes k (VInt z) = Raise StructPackError).
Proof. apply integer_codec_cases. Qed.

Lemma integer_range_checked_late_witness :
  Fields.validate Fields.Uint8 (VInt 256) = Ok tt
  ∧ is_ok (Fields.to_bytes Fields.Uint8 (VInt 256)) = fits Fields.Uint8 (VInt 256)
  ∧ (fits Fields.Uint8 (VInt 256) = false →
       Fields.to_bytes Fields.Uint8 (VInt 256) = Raise StructPackError).
Proof. apply (integer_range_checked_late Fields.Uint8 256). reflexivity. Defined.

Lemma pack_unpack_unsigned w bs :
  length bs = w →
  ∃ z, unpack_unsigned w (VBytes bs) = Ok (VInt z)
       ∧ (0 <=? z) && (z <? 256 ^ Z.of_nat w) = true
       ∧ pack_unsigned w (VInt z) = Ok bs.
Proof.
  intros Hlen. exists (be_value bs).
  pose proof (be_value_range bs) as Hrange. rewrite Hlen in Hrange.
  assert (Hin : (0 <=? be_value bs) && (be_value bs <? 256 ^ Z.of_nat w) = true).
  { apply andb_true_iff. split; [apply Z.leb_le|apply Z.ltb_lt]; lia. }
  unfold unpack_unsigned, pack_unsigned, as_int.
  rewrite (bool_decide_eq_true_2 _ Hlen), Hin. split_and!; [done..|].
  by rewrite <- Hlen, be_bytes_be_value.
Qed.

Lemma pack_unpack_signed w bs :
  length bs = S w →
  ∃ z, unpack_signed (S w) (VBytes bs) = Ok (VInt z)
       ∧ (- (256 ^ Z.of_nat (S w) / 2) <=? z) && (z <? 256 ^ Z.of_nat (S w) / 2)
         = true
       ∧ pack_signed (S w) (VInt z) = Ok bs.
Proof.
  intros Hlen.
  pose proof (be_value_range bs) as Hrange. rewrite Hlen in Hrange.
  pose proof (pow256_pos w) as Hpos.
  pose proof (pow256_succ w) as Hsucc.
  unfold unpack_signed, pack_signed, as_int.
  rewrite (bool_decide_eq_true_2 _ Hlen).
  set (m := 256 ^ Z.of_nat (S w)) in *.
  assert (Hhalf : m / 2 = 128 * 256 ^ Z.of_nat w) by lia_div.
  set (z := if be_value bs <? m / 2 then be_value bs else be_value bs - m).
  assert (Hz : - (m / 2) ≤ z < m / 2 ∧ z mod m = be_value bs).
  { unfold z. destruct (Z.ltb_spec (be_value bs) (m / 2)).
    - split; [lia|]. apply Z.mod_small. lia.
    - split; [lia|].
      replace (be_value bs - m) with (be_value bs + (-1) * m) by lia.
      rewrite Z.mod_add by lia. apply Z.mod_small. lia. }
  destruct Hz as [Hz Hmod].
  assert (Hin : (- (m / 2) <=? z) && (z <? m / 2) = true).
  { apply andb_true_iff. split; [apply Z.leb_le|apply Z.ltb_lt]; lia. }
  exists z. rewrite Hin, Hmod. split_and!; [done..|].
  unfold m. by rewrite <- Hlen, be_bytes_be_value.
Qed.

(** Every byte string of the width of an integer field decodes, to an
    integer within the range of the field, and that integer is encoded
    as the same bytes: on integer fields [to_bytes] undoes
    [from_bytes]. *)
Theorem integer_to_bytes_from_bytes (k : Fields.codec) (bs : list byte) :
  integer_codec k = true →
  length bs = Fields.sizeof k →
  ∃ z, Fields.from_bytes k (VBytes bs) = Ok (VInt z)
       ∧ fits k (VInt z) = true
       ∧ Fields.to_bytes k (VInt z) = Ok (VBytes bs).
Proof.
  intros Hk Hlen.
  destruct k; try discriminate; clear Hk;
    unfold Fields.sizeof in Hlen; unfold Fields.from_bytes, Fields.to_bytes;
    match goal with
    | |- context [unpack_unsigned _ _] =>
        destruct (pack_unpack_unsigned _ bs Hlen) as (z & Hun & Hin & Hpack)
    | |- context [unpack_signed _ _] =>
        destruct (pack_unpack_signed _ bs Hlen) as (z & Hun & Hin & Hpack)
    end;
    exists z; rewrite Hun, Hpack; (split_and!; [done| |done]); exact Hin.
Qed.

Lemma integer_to_bytes_from_bytes_witness :
  ∃ z, Fields.from_bytes Fields.Int16 (VBytes [xff; xfe]) = Ok (VInt z)
       ∧ fits Fields.Int16 (VInt z) = true
       ∧ Fields.to_bytes Fields.Int16 (VInt z) = Ok (VBytes [xff; xfe]).
Proof.
  apply (integer_to_bytes_from_bytes Fields.Int16 [xff; xfe]); reflexivity.
Defined.



(** ** When the encoding fails *)

Lemma encode_fields_raise (self : gmap string value) fields e :
  (∀ name f, (name, f) ∈ fields →
     ∃ v, self !! name = Some v
          ∧ (fits (Fields.kind f) v = true
             ∨ Fields.to_bytes (Fields.kind f) v = Raise e)) →
  (∃ name f v, (name, f) ∈ fields ∧ self !! name = Some v
               ∧ Fields.to_bytes (Fields.kind f) v = Raise e) →
  Struct.encode_fields self fields = Raise e.
Proof.
  induction fields as [|[name f] fields IH]; intros Hall (n & g & w & Hin & Hw & Hbad).
  - by apply elem_of_nil in Hin.
  - cbn [Struct.encode_fields].
    destruct (Hall name f) as (v & Hv & Hcase); [left|]. rewrite Hv.
    cbn [mbind result_bind].
    destruct Hcase as [Hfits|Hraise]; [|by rewrite Hraise].
    destruct (to_bytes_fits _ _ Hfits) as (bs & Hbs & _). rewrite Hbs.
    rewrite IH; [done| |].
    + intros n' g' Hin'. apply Hall. by right.
    + apply elem_of_cons in Hin as [[= -> ->]|Hin].
      * congruence.
      * by exists n, g, w.
Qed.

(** An encoding that fails is found before anything is written:
    [insert] and [update] on a record that [as_bytes] cannot encode
    raise its error and leave the file and the record as they were. *)
Theorem failed_encoding_keeps_file (cls : Struct.class)
    (self : gmap string value) (t : Table.table) (v : value) (e : error) :
  self !! "id"%string = Some v →
  Struct.as_bytes cls self = Raise e →
  (py_eq v (VInt 0) = true →
     Struct.insert cls (self, t) = (Raise e, (self, t)))
  ∧ (∀ z, as_int v = Some z → 1 ≤ z ≤ n_blocks t → Table.block_size t ≠ 0 →
       Struct.update cls (self, t) = (Raise e, (self, t))).
Proof.
  intros Hv Hbad. split.
  - intros Hzero. unfold Struct.insert.
    rewrite run_bind. unfold Struct.on_self at 1. cbn [fst snd].
    rewrite (getattr_run _ _ _ v) by done. rewrite Hzero. cbn [negb].
    rewrite run_bind. unfold Struct.on_self at 1. cbn [fst snd].
    rewrite run_bind. unfold gets at 1. cbv beta. unfold lift. by rewrite Hbad.
  - intros z Hz Hrange Hbs. unfold Struct.update.
    rewrite run_bind. unfold Struct.on_self at 1. cbn [fst snd].
    rewrite (getattr_run _ _ _ v) by done.
    rewrite run_bind. unfold Struct.on_table at 1, Struct.get_index_by_id.
    cbn [fst snd]. rewrite Hz. rewrite (proj2 (Z.ltb_lt 0 z)) by lia.
    rewrite run_bind, size_run by done.
    rewrite (proj2 (Z.leb_le z (n_blocks t))) by lia. cbv beta iota.
    unfold mret, M_ret.
    rewrite run_bind. unfold Struct.on_self at 1. cbn [fst snd].
    rewrite run_bind. unfold gets at 1. cbv beta. unfold lift. by rewrite Hbad.
Qed.

Lemma failed_encoding_keeps_file_witness :
  (py_eq (VInt 0) (VInt 0) = true →
     Struct.insert Person (person_old, Struct.bind Person [])
     = (Raise StructPackError, (person_old, Struct.bind Person [])))
  ∧ (∀ z, as_int (VInt 0) = Some z → 1 ≤ z ≤ n_blocks (Struct.bind Person []) →
       Table.block_size (Struct.bind Person []) ≠ 0 →
       Struct.update Person (person_old, Struct.bind Person [])
       = (Raise StructPackError, (person_old, Struct.bind Person []))).
Proof.
  apply (failed_encoding_keeps_file Person person_old (Struct.bind Person [])
           (VInt 0) StructPackError).
  - vm_compute. reflexivity.
  - vm_compute. reflexivity.
Defined.



(** ** Texts and booleans *)

Lemma utf8_encode_ascii s :
  Forall (λ c, (c < 0x80)%N) s →
  utf8_encode s = Ok (byte_of_N <$> s).
Proof.
  induction 1 as [|c s Hc _ IH]; [done|].
  simpl. unfold utf8_encode_cp. rewrite (proj2 (N.ltb_lt c 0x80)) by done.
  simpl. by rewrite IH.
Qed.

(** A text of ASCII characters has as many bytes as characters, so for
    such a text the check of [validate], which counts characters, is
    the check that the text fits the field; and a text that passes is
    stored and read back with its padding. *)
Theorem varchar_ascii (n : nat) (s : list N) :
  Forall (λ c, (c < 0x80)%N) s →
  (Fields.validate (Fields.Varchar n) (VStr s) = Ok tt
   ↔ fits (Fields.Varchar n) (VStr s) = true)
  ∧ (fits (Fields.Varchar n) (VStr s) = true ↔ (length s ≤ n)%nat)
  ∧ ((length s ≤ n)%nat →
       (Fields.to_bytes (Fields.Varchar n) (VStr s)
          ≫= Fields.from_bytes (Fields.Varchar n))
       = Ok (VStr (s ++ replicate (n - length s) 0%N))).
Proof.
  intros Hascii. pose proof (utf8_encode_ascii s Hascii) as Henc.
  assert (Hfits : fits (Fields.Varchar n) (VStr s) = true ↔ (length s ≤ n)%nat).
  { simpl. rewrite Henc, length_fmap. apply bool_decide_eq_true. }
  split_and!; [|done|].
  - rewrite Hfits. simpl. case_bool_decide; split; try done; lia.
  - intros Hlen. simpl. rewrite Henc. simpl.
    rewrite (utf8_decode_encode s (byte_of_N <$> s)) by done.
    rewrite utf8_decode_zeros. simpl. by rewrite length_fmap.
Qed.

Lemma varchar_ascii_witness :
  (Fields.validate (Fields.Varchar 6) (VStr alex) = Ok tt
   ↔ fits (Fields.Varchar 6) (VStr alex) = true)
  ∧ (fits (Fields.Varchar 6) (VStr alex) = true ↔ (length alex ≤ 6)%nat)
  ∧ ((length alex ≤ 6)%nat →
       (Fields.to_bytes (Fields.Varchar 6) (VStr alex)
          ≫= Fields.from_bytes (Fields.Varchar 6))
       = Ok (VStr (alex ++ replicate (6 - length alex) 0%N))).
Proof.
  apply (varchar_ascii 6 alex).
  repeat constructor.
Defined.

(** A [Boolean] field accepts any value but [None] and stores its truth
    value: what is read back is [bool(value)], so a non-empty text or a
    non-zero number comes back as [True]. *)
Theorem boolean_stores_truth (v : value) :
  v ≠ VNone →
  Fields.validate Fields.Boolean v = Ok tt
  ∧ (Fields.to_bytes Fields.Boolean v ≫= Fields.from_bytes Fields.Boolean)
    = Ok (VBool (truthy v)).
Proof.
  intros Hv. split; [by destruct v|].
  simpl. unfold pack_bool. by destruct (truthy v).
Qed.

Lemma boolean_stores_truth_witness :
  Fields.validate Fields.Boolean (VStr [0x46%N]) = Ok tt
  ∧ (Fields.to_bytes Fields.Boolean (VStr [0x46%N])
       ≫= Fields.from_bytes Fields.Boolean)
    = Ok (VBool (truthy (VStr [0x46%N]))).
Proof. apply (boolean_stores_truth (VStr [0x46%N])). discriminate. Defined.
